(** * Storyboard core: image codec, legacy shot migration, auto-save,
      project/shot reducer and throttle controller

    Shallow embedding of [src/App.tsx] and [src/types.ts].

    Conventions of the embedding.
    - JavaScript strings are [string] (byte strings); [String.length] stands
      for [.length], which agrees with it on the ASCII payloads (base64 text,
      data URLs) the size formula is applied to.
    - Time stamps ([Date.now()]) and shot numbers are integers, [Z].
    - File sizes are computed with a division by four and may be fractional;
      they are canonical rationals, [Qc].  The arithmetic involved
      (an integer times three, divided by four, minus 0, 1 or 2) is exact in
      IEEE doubles for every string length a browser can hold.
    - An optional property ([x?: T], or a property a parsed JSON object may
      lack) is an [option]; JavaScript truthiness is written out.
    - [uuidv4()] and [Date.now()] are inputs of the functions that call them.
    - An asynchronous handler is split at its [await]: the part before it
      returns the new state and the collaborator calls it issues; the part
      after it takes the outcome of those calls. *)

From Stdlib Require Import ZArith QArith Qcanon Qround String Ascii Lia.
From stdpp Require Import base list sets strings numbers.

Local Open Scope string_scope.
Local Open Scope list_scope.

(** ** JavaScript truthiness and string helpers *)

(** [!!s] for an optional string: absent and the empty string are falsy. *)
Definition truthy_str (o : option string) : bool :=
  match o with
  | Some s => negb (String.eqb s "")
  | None => false
  end.

(** [!!n] for an optional number: absent and zero are falsy. *)
Definition truthy_num (o : option Qc) : bool :=
  match o with
  | Some q => negb (Qc_eq_bool q (Qc_of_Z 0))
  | None => false
  end.

(** [a || b] on optional strings. *)
Definition or_str (a b : option string) : option string :=
  if truthy_str a then a else b.

(** [a || b || ""] : the first truthy operand, else the empty string. *)
Definition or_str_default (a b : option string) : string :=
  match or_str a b with
  | Some s => s
  | None => ""
  end.

(** [s.endsWith(suffix)]. *)
Definition endsWith (s suffix : string) : bool :=
  let n := String.length s in
  let m := String.length suffix in
  if (m <=? n)%nat then String.eqb (substring (n - m) m s) suffix else false.

(** [s.includes(pat)]. *)
Definition includes (s pat : string) : bool :=
  match index 0 pat s with
  | Some _ => true
  | None => false
  end.

(** [c.toUpperCase()] on one byte: ASCII lower-case letters are shifted,
    every other byte is kept. *)
Definition upper_ascii (c : ascii) : ascii :=
  let n := nat_of_ascii c in
  if ((97 <=? n) && (n <=? 122))%nat then ascii_of_nat (n - 32) else c.

Fixpoint toUpperCase (s : string) : string :=
  match s with
  | EmptyString => EmptyString
  | String c r => String (upper_ascii c) (toUpperCase r)
  end.

(** ** Data model ([src/types.ts]) *)

Module ShotSettings.
Record t : Type := mk {
  cameraMovement : string;
  shotType : string;
  aspectRatio : string;
  artStyle : string;
  lighting : string
}.
End ShotSettings.

(** [Partial<ShotSettings>], the argument of the settings handler. *)
Module PartialSettings.
Record t : Type := mk {
  cameraMovement : option string;
  shotType : option string;
  aspectRatio : option string;
  artStyle : option string;
  lighting : option string
}.
End PartialSettings.

(** Settings as found in stored data: [shotType] was added later and the
    import code tests for its absence. *)
Module StoredSettings.
Record t : Type := mk {
  cameraMovement : string;
  shotType : option string;
  aspectRatio : string;
  artStyle : string;
  lighting : string
}.

(** Complete settings seen as stored ones. *)
Definition of_settings (st : ShotSettings.t) : t :=
  mk (ShotSettings.cameraMovement st) (Some (ShotSettings.shotType st))
     (ShotSettings.aspectRatio st) (ShotSettings.artStyle st)
     (ShotSettings.lighting st).
End StoredSettings.

(** [previewFileSize] is declared a number, but the migration code can
    store [undefined] there (a deprecated preview URL without its size), so
    the field is optional in the model. *)
Module ImageAsset.
Record t : Type := mk {
  id : string;
  previewUrl : string;
  originalUrl : string;
  previewFileSize : option Qc;
  originalFileSize : Qc;
  createdAt : Z
}.
End ImageAsset.

(** A shot as [JSON.parse] may return it from the legacy store or from an
    imported file: the properties the migration code tests for absence are
    optional. *)
Module StoredShot.
Record t : Type := mk {
  id : string;
  shotNumber : Z;
  description : string;
  visualPrompt : string;
  imageVariations : option (list ImageAsset.t);
  selectedVariationId : option string;
  imagePreviewUrl : option string;
  imageOriginalUrl : option string;
  imagePreviewFileSize : option Qc;
  imageOriginalFileSize : option Qc;
  imageUrl : option string;
  isGeneratingImage : bool;
  isUpdatingPrompt : bool;
  settings : option StoredSettings.t
}.

Definition set_settings (o : option StoredSettings.t) (s : t) : t :=
  mk (id s) (shotNumber s) (description s) (visualPrompt s)
     (imageVariations s) (selectedVariationId s) (imagePreviewUrl s)
     (imageOriginalUrl s) (imagePreviewFileSize s)
     (imageOriginalFileSize s) (imageUrl s) (isGeneratingImage s)
     (isUpdatingPrompt s) o.
End StoredShot.

(** [interface Shot]. *)
Module Shot.
Record t : Type := mk {
  id : string;
  shotNumber : Z;
  description : string;
  visualPrompt : string;
  imageVariations : list ImageAsset.t;
  selectedVariationId : option string;
  imagePreviewUrl : option string;
  imageOriginalUrl : option string;
  imagePreviewFileSize : option Qc;
  imageOriginalFileSize : option Qc;
  imageUrl : option string;
  isGeneratingImage : bool;
  isUpdatingPrompt : bool;
  settings : ShotSettings.t
}.

(** [{ ...s, shotNumber: n }] and its siblings. *)
Definition set_shotNumber (n : Z) (s : t) : t :=
  mk (id s) n (description s) (visualPrompt s) (imageVariations s)
     (selectedVariationId s) (imagePreviewUrl s) (imageOriginalUrl s)
     (imagePreviewFileSize s) (imageOriginalFileSize s) (imageUrl s)
     (isGeneratingImage s) (isUpdatingPrompt s) (settings s).

Definition set_description (d : string) (s : t) : t :=
  mk (id s) (shotNumber s) d (visualPrompt s) (imageVariations s)
     (selectedVariationId s) (imagePreviewUrl s) (imageOriginalUrl s)
     (imagePreviewFileSize s) (imageOriginalFileSize s) (imageUrl s)
     (isGeneratingImage s) (isUpdatingPrompt s) (settings s).

Definition set_visualPrompt (v : string) (s : t) : t :=
  mk (id s) (shotNumber s) (description s) v (imageVariations s)
     (selectedVariationId s) (imagePreviewUrl s) (imageOriginalUrl s)
     (imagePreviewFileSize s) (imageOriginalFileSize s) (imageUrl s)
     (isGeneratingImage s) (isUpdatingPrompt s) (settings s).

Definition set_imageVariations (vs : list ImageAsset.t) (s : t) : t :=
  mk (id s) (shotNumber s) (description s) (visualPrompt s) vs
     (selectedVariationId s) (imagePreviewUrl s) (imageOriginalUrl s)
     (imagePreviewFileSize s) (imageOriginalFileSize s) (imageUrl s)
     (isGeneratingImage s) (isUpdatingPrompt s) (settings s).

Definition set_selectedVariationId (v : option string) (s : t) : t :=
  mk (id s) (shotNumber s) (description s) (visualPrompt s)
     (imageVariations s) v (imagePreviewUrl s) (imageOriginalUrl s)
     (imagePreviewFileSize s) (imageOriginalFileSize s) (imageUrl s)
     (isGeneratingImage s) (isUpdatingPrompt s) (settings s).

Definition set_isGeneratingImage (b : bool) (s : t) : t :=
  mk (id s) (shotNumber s) (description s) (visualPrompt s)
     (imageVariations s) (selectedVariationId s) (imagePreviewUrl s)
     (imageOriginalUrl s) (imagePreviewFileSize s)
     (imageOriginalFileSize s) (imageUrl s) b (isUpdatingPrompt s)
     (settings s).

Definition set_isUpdatingPrompt (b : bool) (s : t) : t :=
  mk (id s) (shotNumber s) (description s) (visualPrompt s)
     (imageVariations s) (selectedVariationId s) (imagePreviewUrl s)
     (imageOriginalUrl s) (imagePreviewFileSize s)
     (imageOriginalFileSize s) (imageUrl s) (isGeneratingImage s) b
     (settings s).

Definition set_settings (st : ShotSettings.t) (s : t) : t :=
  mk (id s) (shotNumber s) (description s) (visualPrompt s)
     (imageVariations s) (selectedVariationId s) (imagePreviewUrl s)
     (imageOriginalUrl s) (imagePreviewFileSize s)
     (imageOriginalFileSize s) (imageUrl s) (isGeneratingImage s)
     (isUpdatingPrompt s) st.

(** A typed shot seen as a stored one (every tested property present). *)
Definition stored (s : t) : StoredShot.t :=
  StoredShot.mk (id s) (shotNumber s) (description s) (visualPrompt s)
    (Some (imageVariations s)) (selectedVariationId s) (imagePreviewUrl s)
    (imageOriginalUrl s) (imagePreviewFileSize s)
    (imageOriginalFileSize s) (imageUrl s) (isGeneratingImage s)
    (isUpdatingPrompt s)
    (Some (StoredSettings.of_settings (settings s))).
End Shot.

(** [interface Project]. *)
Module Project.
Record t : Type := mk {
  id : string;
  title : string;
  idea : string;
  shots : list Shot.t;
  trashedShots : option (list Shot.t);
  createdAt : Z;
  updatedAt : Z;
  isTrashed : option bool
}.

Definition set_shots (ss : list Shot.t) (p : t) : t :=
  mk (id p) (title p) (idea p) ss (trashedShots p) (createdAt p)
     (updatedAt p) (isTrashed p).

Definition set_trashedShots (ts : option (list Shot.t)) (p : t) : t :=
  mk (id p) (title p) (idea p) (shots p) ts (createdAt p) (updatedAt p)
     (isTrashed p).

Definition set_updatedAt (u : Z) (p : t) : t :=
  mk (id p) (title p) (idea p) (shots p) (trashedShots p) (createdAt p) u
     (isTrashed p).

Definition set_isTrashed (b : option bool) (p : t) : t :=
  mk (id p) (title p) (idea p) (shots p) (trashedShots p) (createdAt p)
     (updatedAt p) b.

Definition set_title (s : string) (p : t) : t :=
  mk (id p) s (idea p) (shots p) (trashedShots p) (createdAt p)
     (updatedAt p) (isTrashed p).

Definition set_idea (s : string) (p : t) : t :=
  mk (id p) (title p) s (shots p) (trashedShots p) (createdAt p)
     (updatedAt p) (isTrashed p).
End Project.

(** ** Image asset codec *)

(** The padding adjustment of [calculateBase64Size]. *)
Definition base64Padding (base64String : string) : Z :=
  if endsWith base64String "==" then 2
  else if endsWith base64String "=" then 1
  else 0.

(** [calculateBase64Size]: [length * 3 / 4 - padding], in JavaScript
    arithmetic, where [/] is the exact division. *)
Definition calculateBase64Size (base64String : string) : Qc :=
  (Qc_of_Z (Z.of_nat (String.length base64String)) * Qc_of_Z 3 / Qc_of_Z 4
   - Qc_of_Z (base64Padding base64String))%Qc.

(** The size formula in the words of the specification: the ceiling of
    three quarters of the encoded length, minus the padding adjustment. *)
Definition specBase64Size (base64String : string) : Z :=
  (Qceiling (inject_Z (Z.of_nat (String.length base64String)) * (3 # 4))
   - base64Padding base64String)%Z.

Section Application.

(** [compressImage] draws the image on a canvas and re-encodes it; it
    resolves to its argument when the image cannot be decoded and never
    rejects.  The canvas is outside the program: the function is taken as
    given. *)
Variable compressImage : string → string.

(** [processAndSaveImage]. *)
Definition processAndSaveImage (newId : string) (now : Z)
    (base64Original : string) : ImageAsset.t :=
  let originalSize := calculateBase64Size base64Original in
  let base64Preview := compressImage base64Original in
  let previewSize := calculateBase64Size base64Preview in
  ImageAsset.mk newId base64Preview base64Original (Some previewSize)
    originalSize now.

(** ** Legacy shot migration *)

(** The asset built from the deprecated single-image properties
    ([initializeData], lines 129-139; [handleImportJson], lines 813-826:
    the same statements under other variable names). *)
Definition legacyAsset (newId : string) (now : Z) (s : StoredShot.t)
    : ImageAsset.t :=
  let originalUrl :=
    or_str_default (StoredShot.imageOriginalUrl s) (StoredShot.imageUrl s) in
  let originalSize :=
    match StoredShot.imageOriginalFileSize s with
    | Some q =>
        if truthy_num (Some q) then q else calculateBase64Size originalUrl
    | None => calculateBase64Size originalUrl
    end in
  let preview :=
    match StoredShot.imagePreviewUrl s with
    | Some u =>
        if truthy_str (Some u) then (u, StoredShot.imagePreviewFileSize s)
        else
          let c := compressImage originalUrl in
          (c, Some (calculateBase64Size c))
    | None =>
        let c := compressImage originalUrl in
        (c, Some (calculateBase64Size c))
    end in
  ImageAsset.mk newId (fst preview) originalUrl (snd preview) originalSize
    now.

(** The shot migration of [initializeData] (first run, legacy store). *)
Definition initializeData_migrateShot (newId : string) (now : Z)
    (s : StoredShot.t) : StoredShot.t :=
  let variations0 :=
    match StoredShot.imageVariations s with
    | Some vs => vs
    | None => []
    end in
  let convert :=
    truthy_str (or_str (StoredShot.imageOriginalUrl s) (StoredShot.imageUrl s))
    && (length variations0 =? 0)%nat in
  let newVar := legacyAsset newId now s in
  StoredShot.mk (StoredShot.id s) (StoredShot.shotNumber s)
    (StoredShot.description s) (StoredShot.visualPrompt s)
    (Some (if convert then [newVar] else variations0))
    (if convert then Some (ImageAsset.id newVar)
     else StoredShot.selectedVariationId s)
    None None
    (StoredShot.imagePreviewFileSize s) (StoredShot.imageOriginalFileSize s)
    None
    (StoredShot.isGeneratingImage s) (StoredShot.isUpdatingPrompt s)
    (StoredShot.settings s).

(** The settings literal used wherever a shot is created or repaired. *)
Definition defaultSettings : ShotSettings.t :=
  ShotSettings.mk "Static" "Medium Shot" "16:9" "Cinematic Realistic"
    "Natural Daylight".

(** "Ensure settings exist" of [handleImportJson]. *)
Definition ensureSettings (o : option StoredSettings.t) : ShotSettings.t :=
  match o with
  | None => defaultSettings
  | Some st =>
      ShotSettings.mk (StoredSettings.cameraMovement st)
        (match StoredSettings.shotType st with
         | Some t => if truthy_str (Some t) then t else "Medium Shot"
         | None => "Medium Shot"
         end)
        (StoredSettings.aspectRatio st) (StoredSettings.artStyle st)
        (StoredSettings.lighting st)
  end.

(** The shot migration of [handleImportJson]. *)
Definition handleImportJson_migrateShot (newId : string) (now : Z)
    (s : StoredShot.t) : Shot.t :=
  let variations0 :=
    match StoredShot.imageVariations s with
    | Some vs => vs
    | None => []
    end in
  let convert :=
    truthy_str (or_str (StoredShot.imageUrl s) (StoredShot.imageOriginalUrl s))
    && (length variations0 =? 0)%nat in
  let newVar := legacyAsset newId now s in
  Shot.mk (StoredShot.id s) (StoredShot.shotNumber s)
    (StoredShot.description s) (StoredShot.visualPrompt s)
    (if convert then [newVar] else variations0)
    (if convert then Some (ImageAsset.id newVar)
     else StoredShot.selectedVariationId s)
    None None
    (StoredShot.imagePreviewFileSize s) (StoredShot.imageOriginalFileSize s)
    None
    (StoredShot.isGeneratingImage s) (StoredShot.isUpdatingPrompt s)
    (ensureSettings (StoredShot.settings s)).

(** A project of the legacy store or of an imported file.  [trashedShots]
    is copied through by both migrations without being looked at. *)
Record StoredProject : Type := mkStoredProject {
  sp_id : option string;
  sp_title : option string;
  sp_idea : string;
  sp_shots : option (list StoredShot.t);
  sp_trashedShots : option (list Shot.t);
  sp_createdAt : Z;
  sp_updatedAt : Z;
  sp_isTrashed : option bool
}.

(** The project loop of [initializeData]: [None] when [p.shots.map] throws
    on a project without shots, in which case nothing is written. *)
Definition initializeData_migrate (uuid : nat → nat → string)
    (clock : nat → nat → Z) (parsed : list StoredProject)
    : option (list StoredProject) :=
  mapM (λ jp : nat * StoredProject,
          let j := fst jp in
          let p := snd jp in
          match sp_shots p with
          | None => None
          | Some ss =>
              Some (mkStoredProject (sp_id p) (sp_title p) (sp_idea p)
                      (Some (imap (λ i s,
                               initializeData_migrateShot (uuid j i)
                                 (clock j i) s) ss))
                      (sp_trashedShots p) (sp_createdAt p) (sp_updatedAt p)
                      (sp_isTrashed p))
          end)
       (imap (λ j p, (j, p)) parsed).

(** ** Application state (the [useState] and [useRef] cells of [App]) *)

Inductive ApiKeyStatus : Type := active | warning | error.
Inductive AppView : Type := DASHBOARD | PROJECT_DETAIL.

Record AppState : Type := mkAppState {
  projects : list Project.t;
  currentView : AppView;
  selectedProjectId : option string;
  prevProjectsRef : option (list Project.t);
  pendingShotDeletionId : option string;
  isEditingProjectInfo : bool;
  editedTitle : string;
  editedIdea : string;
  ideaInput : string;
  isApiBusy : bool;
  apiThrottle : Z;
  rateLimitCooldown : Z;
  globalError : option string;
  apiKeyStatus : ApiKeyStatus
}.

Definition setProjects (f : list Project.t → list Project.t)
    (st : AppState) : AppState :=
  mkAppState (f (projects st)) (currentView st) (selectedProjectId st)
    (prevProjectsRef st) (pendingShotDeletionId st)
    (isEditingProjectInfo st) (editedTitle st) (editedIdea st)
    (ideaInput st) (isApiBusy st) (apiThrottle st) (rateLimitCooldown st)
    (globalError st) (apiKeyStatus st).

Definition setCurrentView (v : AppView) (st : AppState) : AppState :=
  mkAppState (projects st) v (selectedProjectId st)
    (prevProjectsRef st) (pendingShotDeletionId st)
    (isEditingProjectInfo st) (editedTitle st) (editedIdea st)
    (ideaInput st) (isApiBusy st) (apiThrottle st) (rateLimitCooldown st)
    (globalError st) (apiKeyStatus st).

Definition setSelectedProjectId (o : option string) (st : AppState)
    : AppState :=
  mkAppState (projects st) (currentView st) o
    (prevProjectsRef st) (pendingShotDeletionId st)
    (isEditingProjectInfo st) (editedTitle st) (editedIdea st)
    (ideaInput st) (isApiBusy st) (apiThrottle st) (rateLimitCooldown st)
    (globalError st) (apiKeyStatus st).

Definition setPrevProjectsRef (o : option (list Project.t))
    (st : AppState) : AppState :=
  mkAppState (projects st) (currentView st) (selectedProjectId st)
    o (pendingShotDeletionId st)
    (isEditingProjectInfo st) (editedTitle st) (editedIdea st)
    (ideaInput st) (isApiBusy st) (apiThrottle st) (rateLimitCooldown st)
    (globalError st) (apiKeyStatus st).

Definition setPendingShotDeletionId (o : option string) (st : AppState)
    : AppState :=
  mkAppState (projects st) (currentView st) (selectedProjectId st)
    (prevProjectsRef st) o
    (isEditingProjectInfo st) (editedTitle st) (editedIdea st)
    (ideaInput st) (isApiBusy st) (apiThrottle st) (rateLimitCooldown st)
    (globalError st) (apiKeyStatus st).

Definition setIsEditingProjectInfo (b : bool) (st : AppState) : AppState :=
  mkAppState (projects st) (currentView st) (selectedProjectId st)
    (prevProjectsRef st) (pendingShotDeletionId st)
    b (editedTitle st) (editedIdea st)
    (ideaInput st) (isApiBusy st) (apiThrottle st) (rateLimitCooldown st)
    (globalError st) (apiKeyStatus st).

Definition setIdeaInput (s : string) (st : AppState) : AppState :=
  mkAppState (projects st) (currentView st) (selectedProjectId st)
    (prevProjectsRef st) (pendingShotDeletionId st)
    (isEditingProjectInfo st) (editedTitle st) (editedIdea st)
    s (isApiBusy st) (apiThrottle st) (rateLimitCooldown st)
    (globalError st) (apiKeyStatus st).

Definition setIsApiBusy (b : bool) (st : AppState) : AppState :=
  mkAppState (projects st) (currentView st) (selectedProjectId st)
    (prevProjectsRef st) (pendingShotDeletionId st)
    (isEditingProjectInfo st) (editedTitle st) (editedIdea st)
    (ideaInput st) b (apiThrottle st) (rateLimitCooldown st)
    (globalError st) (apiKeyStatus st).

Definition setApiThrottle (n : Z) (st : AppState) : AppState :=
  mkAppState (projects st) (currentView st) (selectedProjectId st)
    (prevProjectsRef st) (pendingShotDeletionId st)
    (isEditingProjectInfo st) (editedTitle st) (editedIdea st)
    (ideaInput st) (isApiBusy st) n (rateLimitCooldown st)
    (globalError st) (apiKeyStatus st).

Definition setRateLimitCooldown (n : Z) (st : AppState) : AppState :=
  mkAppState (projects st) (currentView st) (selectedProjectId st)
    (prevProjectsRef st) (pendingShotDeletionId st)
    (isEditingProjectInfo st) (editedTitle st) (editedIdea st)
    (ideaInput st) (isApiBusy st) (apiThrottle st) n
    (globalError st) (apiKeyStatus st).

Definition setGlobalError (e : option string) (st : AppState) : AppState :=
  mkAppState (projects st) (currentView st) (selectedProjectId st)
    (prevProjectsRef st) (pendingShotDeletionId st)
    (isEditingProjectInfo st) (editedTitle st) (editedIdea st)
    (ideaInput st) (isApiBusy st) (apiThrottle st) (rateLimitCooldown st)
    e (apiKeyStatus st).

Definition setApiKeyStatus (k : ApiKeyStatus) (st : AppState) : AppState :=
  mkAppState (projects st) (currentView st) (selectedProjectId st)
    (prevProjectsRef st) (pendingShotDeletionId st)
    (isEditingProjectInfo st) (editedTitle st) (editedIdea st)
    (ideaInput st) (isApiBusy st) (apiThrottle st) (rateLimitCooldown st)
    (globalError st) k.

(** ** Collaborators *)

(** The calls a handler issues to the AI service ([services/geminiService]). *)
Inductive AiCall : Type :=
| generateScriptBreakdown (idea : string)
| generateShotImage (visualPrompt : string) (settings : ShotSettings.t)
    (referenceImageUrl : option string)
| editShotImage (originalUrl instruction : string)
| regenerateVisualPrompt (description : string)
| getScriptSuggestions (projectIdea currentDescription : string).

(** The calls a handler issues to the persistence gateway ([services/db]). *)
Inductive DbCall : Type :=
| saveProject (p : Project.t)
| saveAllProjects (ps : list StoredProject)
| deleteProject (id : string).

(** How an awaited promise settles; a rejection carries [error?.message]. *)
Inductive Settled (A : Type) : Type :=
| fulfilled (value : A)
| rejected (message : option string).
Arguments fulfilled {A} value.
Arguments rejected {A} message.

(** One element of the script breakdown. *)
Record ShotData : Type := mkShotData {
  sd_shotNumber : Z;
  sd_description : string;
  sd_visualPrompt : string
}.

(** ** Reducer helpers *)

(** [prev.map(p => p.id !== pid ? p : f(p))]. *)
Definition mapProject (pid : string) (f : Project.t → Project.t)
    (ps : list Project.t) : list Project.t :=
  (λ p, if decide (Project.id p = pid) then f p else p) <$> ps.

(** [shots.map(s => s.id === shotId ? f(s) : s)]. *)
Definition mapShot (shotId : string) (f : Shot.t → Shot.t)
    (ss : list Shot.t) : list Shot.t :=
  (λ s, if decide (Shot.id s = shotId) then f s else s) <$> ss.

(** [projects.find(p => p.id === pid)]. *)
Definition findProject (pid : string) (ps : list Project.t)
    : option Project.t :=
  snd <$> list_find (λ p, Project.id p = pid) ps.

(** [shots.find(s => s.id === shotId)]. *)
Definition findShot (shotId : string) (ss : list Shot.t) : option Shot.t :=
  snd <$> list_find (λ s, Shot.id s = shotId) ss.

(** [variations.find(v => v.id === vid)]. *)
Definition findVariation (vid : string) (vs : list ImageAsset.t)
    : option ImageAsset.t :=
  snd <$> list_find (λ v, ImageAsset.id v = vid) vs.

(** [list.map((shot, index) => ({ ...shot, shotNumber: index + 1 }))]. *)
Definition renumber (ss : list Shot.t) : list Shot.t :=
  imap (λ index shot, Shot.set_shotNumber (Z.of_nat index + 1) shot) ss.

(** [list.sort((a, b) => a.shotNumber - b.shotNumber)]: the sort is stable,
    so it is the insertion of each element before the first later element
    that is not smaller. *)
Fixpoint insertByShotNumber (x : Shot.t) (l : list Shot.t) : list Shot.t :=
  match l with
  | [] => [x]
  | y :: r =>
      if (Shot.shotNumber x <=? Shot.shotNumber y)%Z then x :: y :: r
      else y :: insertByShotNumber x r
  end.

Definition sortByShotNumber (l : list Shot.t) : list Shot.t :=
  foldr insertByShotNumber [] l.

(** [!s.trim()] : the string holds white space only (ASCII white space;
    the multi-byte Unicode spaces are not recognised by the model). *)
Definition isWhiteSpace (c : ascii) : bool :=
  let n := nat_of_ascii c in
  ((9 <=? n) && (n <=? 13) || (n =? 32))%nat.

Fixpoint isBlank (s : string) : bool :=
  match s with
  | EmptyString => true
  | String c r => isWhiteSpace c && isBlank r
  end.

(** [p.isTrashed] as a condition. *)
Definition truthy_bool (o : option bool) : bool :=
  match o with
  | Some b => b
  | None => false
  end.

(** ** Rate/throttle controller *)

(** [handleApiError]. *)
Definition handleApiError (message : option string) (st : AppState)
    : AppState :=
  let errorMessage :=
    match message with
    | Some m => if truthy_str (Some m) then m else "Lỗi không xác định."
    | None => "Lỗi không xác định."
    end in
  let upperMsg := toUpperCase errorMessage in
  if includes upperMsg "429" || includes upperMsg "RESOURCE_EXHAUSTED"
     || includes upperMsg "RATE LIMIT"
  then setGlobalError None
         (setApiKeyStatus warning (setRateLimitCooldown 60 st))
  else if includes upperMsg "PERMISSION_DENIED"
          || includes upperMsg "API_KEY" || includes upperMsg "403"
  then setGlobalError (Some errorMessage) (setApiKeyStatus error st)
  else setGlobalError (Some errorMessage) st.

(** The [finally] block shared by the five AI-triggering handlers. *)
Definition finallyThrottle (st : AppState) : AppState :=
  setApiThrottle 3 (setIsApiBusy false st).

(** [if (apiKeyStatus === 'warning') setApiKeyStatus('active')], on the
    status the handler captured when it was called. *)
Definition resetWarning (captured : ApiKeyStatus) (st : AppState)
    : AppState :=
  match captured with
  | warning => setApiKeyStatus active st
  | _ => st
  end.

(** The cool-down effect: one second after the counter became positive it
    is decremented. *)
Definition cooldownTick (st : AppState) : AppState :=
  if (0 <? rateLimitCooldown st)%Z
  then setRateLimitCooldown (rateLimitCooldown st - 1) st
  else st.

(** The proactive-throttle effect, the same on [apiThrottle]. *)
Definition throttleTick (st : AppState) : AppState :=
  if (0 <? apiThrottle st)%Z
  then setApiThrottle (apiThrottle st - 1) st
  else st.

(** The guard shared by the shot-level AI handlers:
    [!selectedProjectId || isApiBusy || apiThrottle > 0]. *)
Definition shotGate (st : AppState) : bool :=
  negb (truthy_str (selectedProjectId st)) || isApiBusy st
  || (0 <? apiThrottle st)%Z.

(** ** Create project *)

Definition handleCreateProject (st : AppState) : AppState * list AiCall :=
  if isBlank (ideaInput st) || isApiBusy st || (0 <? apiThrottle st)%Z
  then (st, [])
  else (setGlobalError None (setIsApiBusy true st),
        [generateScriptBreakdown (ideaInput st)]).

(** The shots built from the breakdown; [uuid i] is the id drawn for the
    [i]-th shot. *)
Definition newShotsOf (uuid : nat → string) (shotsData : list ShotData)
    : list Shot.t :=
  imap (λ i s,
          Shot.mk (uuid i) (sd_shotNumber s) (sd_description s)
            (sd_visualPrompt s) [] None None None None None None false false
            defaultSettings)
       shotsData.

(** After [await generateScriptBreakdown(ideaInput)]; [idea] and
    [captured] are the input and the key status the handler was called
    with.  The title is cut by bytes, which is the cut of [slice(0, 30)]
    on an idea of ASCII characters. *)
Definition handleCreateProject_settled (idea : string)
    (captured : ApiKeyStatus) (uuid : nat → string) (projectId : string)
    (createdNow updatedNow : Z) (result : Settled (list ShotData))
    (st : AppState) : AppState :=
  finallyThrottle
    match result with
    | fulfilled shotsData =>
        let newProject :=
          Project.mk projectId
            (substring 0 30 idea
             ++ (if (30 <? String.length idea)%nat then "..." else ""))%string
            idea (newShotsOf uuid shotsData) (Some []) createdNow
            updatedNow (Some false) in
        resetWarning captured
          (setIdeaInput ""
             (setCurrentView PROJECT_DETAIL
                (setSelectedProjectId (Some projectId)
                   (setProjects (λ prev, newProject :: prev) st))))
    | rejected message => handleApiError message st
    end.

(** ** Generate image *)

(** The state update that marks or clears the generating flag of a shot;
    the project's [updatedAt] is not part of it. *)
Definition markGenerating (pid shotId : string) (b : bool)
    (ps : list Project.t) : list Project.t :=
  mapProject pid
    (λ p, Project.set_shots
            (mapShot shotId (Shot.set_isGeneratingImage b) (Project.shots p))
            p)
    ps.

(** Reference image: the custom upload first, else the selected variation
    of the reference shot. *)
Definition referenceImageUrl (project : Project.t)
    (referenceShotId customReferenceBase64 : option string)
    : option string :=
  if truthy_str customReferenceBase64 then customReferenceBase64
  else
    match referenceShotId with
    | Some rid =>
        if truthy_str (Some rid) then
          match findShot rid (Project.shots project) with
          | Some refShot =>
              match Shot.selectedVariationId refShot with
              | Some vid =>
                  if truthy_str (Some vid) then
                    ImageAsset.originalUrl
                      <$> findVariation vid (Shot.imageVariations refShot)
                  else None
              | None => None
              end
          | None => None
          end
        else None
    | None => None
    end.

Definition handleGenerateImage (shotId : string)
    (referenceShotId customReferenceBase64 : option string)
    (st : AppState) : AppState * list AiCall :=
  if shotGate st then (st, [])
  else
    match selectedProjectId st with
    | None => (st, [])
    | Some pid =>
        match findProject pid (projects st) with
        | None => (st, [])
        | Some project =>
            match findShot shotId (Project.shots project) with
            | None => (st, [])
            | Some shot =>
                let ref :=
                  referenceImageUrl project referenceShotId
                    customReferenceBase64 in
                let call :=
                  generateShotImage (Shot.visualPrompt shot)
                    (Shot.settings shot) ref in
                (setProjects (markGenerating pid shotId true)
                   (setIsApiBusy true (setGlobalError None st)),
                 [call; call])
            end
        end
    end.

(** The values of the fulfilled results, in order. *)
Definition successfulImages (results : list (Settled string))
    : list string :=
  omap (λ res, match res with
               | fulfilled value => Some value
               | rejected _ => None
               end) results.

(** The update of a shot on success: new variations first, the first new
    one selected. *)
Definition addVariations (newVariations : list ImageAsset.t) (s : Shot.t)
    : Shot.t :=
  Shot.set_isGeneratingImage false
    (Shot.set_selectedVariationId (ImageAsset.id <$> head newVariations)
       (Shot.set_imageVariations (newVariations ++ Shot.imageVariations s)
          s)).

(** After [await Promise.allSettled([promise1, promise2])]; [pid] and
    [captured] are the selected project and key status the handler was
    called with; [uuid i] and [clock i] are drawn for the [i]-th image. *)
Definition handleGenerateImage_settled (pid shotId : string)
    (captured : ApiKeyStatus) (uuid : nat → string) (clock : nat → Z)
    (now : Z) (results : list (Settled string)) (st : AppState)
    : AppState :=
  finallyThrottle
    match successfulImages results with
    | [] =>
        setProjects (markGenerating pid shotId false)
          (handleApiError (Some "Không thể tạo được ảnh nào.") st)
    | img :: imgs =>
        let newVariations :=
          imap (λ i b, processAndSaveImage (uuid i) (clock i) b)
            (img :: imgs) in
        resetWarning captured
          (setProjects
             (mapProject pid
                (λ p, Project.set_shots
                        (mapShot shotId (addVariations newVariations)
                           (Project.shots p))
                        (Project.set_updatedAt now p)))
             st)
    end.

(** ** Edit current image *)

Definition handleEditShotImage (shotId instruction : string)
    (st : AppState) : AppState * list AiCall :=
  if shotGate st then (st, [])
  else
    match selectedProjectId st with
    | None => (st, [])
    | Some pid =>
        match findProject pid (projects st) with
        | None => (st, [])
        | Some project =>
            match findShot shotId (Project.shots project) with
            | None => (st, [])
            | Some shot =>
                match Shot.selectedVariationId shot with
                | None => (st, [])
                | Some vid =>
                    if negb (truthy_str (Some vid)) then (st, [])
                    else
                      match findVariation vid (Shot.imageVariations shot) with
                      | None => (st, [])
                      | Some currentVariation =>
                          (setProjects (markGenerating pid shotId true)
                             (setIsApiBusy true (setGlobalError None st)),
                           [editShotImage
                              (ImageAsset.originalUrl currentVariation)
                              instruction])
                      end
                end
            end
        end
    end.

(** After [await editShotImage(...)]. *)
Definition handleEditShotImage_settled (pid shotId : string)
    (captured : ApiKeyStatus) (newId : string) (assetNow now : Z)
    (result : Settled string) (st : AppState) : AppState :=
  finallyThrottle
    match result with
    | fulfilled editedImageBase64 =>
        let newVariation :=
          processAndSaveImage newId assetNow editedImageBase64 in
        resetWarning captured
          (setProjects
             (mapProject pid
                (λ p, Project.set_shots
                        (mapShot shotId
                           (λ s, Shot.set_isGeneratingImage false
                                   (Shot.set_selectedVariationId
                                      (Some (ImageAsset.id newVariation))
                                      (Shot.set_imageVariations
                                         (newVariation
                                          :: Shot.imageVariations s) s)))
                           (Project.shots p))
                        (Project.set_updatedAt now p)))
             st)
    | rejected message =>
        setProjects (markGenerating pid shotId false)
          (handleApiError message st)
    end.

(** ** Select variation *)

Definition handleSelectVariation (now : Z) (shotId variationId : string)
    (st : AppState) : AppState :=
  match selectedProjectId st with
  | Some pid =>
      if truthy_str (Some pid) then
        setProjects
          (mapProject pid
             (λ p, Project.set_shots
                     (mapShot shotId
                        (Shot.set_selectedVariationId (Some variationId))
                        (Project.shots p))
                     (Project.set_updatedAt now p)))
          st
      else st
  | None => st
  end.

(** ** Project trash *)

Definition handleDeleteProject (now : Z) (id : string) (st : AppState)
    : AppState :=
  let st1 :=
    setProjects
      (mapProject id
         (λ p, Project.set_updatedAt now (Project.set_isTrashed (Some true) p)))
      st in
  if decide (selectedProjectId st = Some id)
  then setCurrentView DASHBOARD (setSelectedProjectId None st1)
  else st1.

Definition handleRestoreProject (now : Z) (id : string) (st : AppState)
    : AppState :=
  setProjects
    (mapProject id
       (λ p, Project.set_updatedAt now (Project.set_isTrashed (Some false) p)))
    st.

(** [onConfirm] of [handlePermanentlyDeleteProject]. *)
Definition handlePermanentlyDeleteProject (id : string) (st : AppState)
    : AppState * list DbCall :=
  (setProjects (filter (λ p, Project.id p ≠ id)) st, [deleteProject id]).

(** [onConfirm] of [handleEmptyProjectTrash]. *)
Definition handleEmptyProjectTrash (st : AppState)
    : AppState * list DbCall :=
  let idsToDelete :=
    Project.id
      <$> filter (λ p, truthy_bool (Project.isTrashed p) = true)
            (projects st) in
  (setProjects (filter (λ p, truthy_bool (Project.isTrashed p) = false)) st,
   deleteProject <$> idsToDelete).

(** ** Project and shot text *)

Definition handleSaveProjectInfo (now : Z) (st : AppState) : AppState :=
  match selectedProjectId st with
  | Some pid =>
      if truthy_str (Some pid) then
        setIsEditingProjectInfo false
          (setProjects
             (mapProject pid
                (λ p, Project.set_updatedAt now
                        (Project.set_idea (editedIdea st)
                           (Project.set_title (editedTitle st) p))))
             st)
      else st
  | None => st
  end.

Definition handleUpdateShotDescription (now : Z)
    (shotId newDescription : string) (st : AppState)
    : AppState * list AiCall :=
  if shotGate st then (st, [])
  else
    match selectedProjectId st with
    | None => (st, [])
    | Some pid =>
        (setProjects
           (mapProject pid
              (λ p, Project.set_updatedAt now
                      (Project.set_shots
                         (mapShot shotId
                            (λ s, Shot.set_isUpdatingPrompt true
                                    (Shot.set_description newDescription s))
                            (Project.shots p))
                         p)))
           (setIsApiBusy true (setGlobalError None st)),
         [regenerateVisualPrompt newDescription])
    end.

(** After [await regenerateVisualPrompt(newDescription)]: neither branch
    writes [updatedAt]. *)
Definition handleUpdateShotDescription_settled (pid shotId : string)
    (captured : ApiKeyStatus) (result : Settled string) (st : AppState)
    : AppState :=
  finallyThrottle
    match result with
    | fulfilled newVisualPrompt =>
        resetWarning captured
          (setProjects
             (mapProject pid
                (λ p, Project.set_shots
                        (mapShot shotId
                           (λ s, Shot.set_isUpdatingPrompt false
                                   (Shot.set_visualPrompt newVisualPrompt s))
                           (Project.shots p))
                        p))
             st)
    | rejected message =>
        setProjects
          (mapProject pid
             (λ p, Project.set_shots
                     (mapShot shotId (Shot.set_isUpdatingPrompt false)
                        (Project.shots p))
                     p))
          (handleApiError message st)
    end.

Definition handleUpdateVisualPrompt (now : Z) (shotId newPrompt : string)
    (st : AppState) : AppState :=
  match selectedProjectId st with
  | Some pid =>
      if truthy_str (Some pid) then
        setProjects
          (mapProject pid
             (λ p, Project.set_updatedAt now
                     (Project.set_shots
                        (mapShot shotId (Shot.set_visualPrompt newPrompt)
                           (Project.shots p))
                        p)))
          st
      else st
  | None => st
  end.

(** [{ ...s.settings, ...newSettings }]. *)
Definition mergeSettings (old : ShotSettings.t) (new : PartialSettings.t)
    : ShotSettings.t :=
  ShotSettings.mk
    (default (ShotSettings.cameraMovement old)
       (PartialSettings.cameraMovement new))
    (default (ShotSettings.shotType old) (PartialSettings.shotType new))
    (default (ShotSettings.aspectRatio old)
       (PartialSettings.aspectRatio new))
    (default (ShotSettings.artStyle old) (PartialSettings.artStyle new))
    (default (ShotSettings.lighting old) (PartialSettings.lighting new)).

Definition handleUpdateShotSettings (now : Z) (shotId : string)
    (newSettings : PartialSettings.t) (st : AppState) : AppState :=
  match selectedProjectId st with
  | Some pid =>
      if truthy_str (Some pid) then
        setProjects
          (mapProject pid
             (λ p, Project.set_updatedAt now
                     (Project.set_shots
                        (mapShot shotId
                           (λ s, Shot.set_settings
                                   (mergeSettings (Shot.settings s)
                                      newSettings) s)
                           (Project.shots p))
                        p)))
          st
      else st
  | None => st
  end.

(** ** Suggestions *)

Definition handleGetSuggestionsForShot
    (projectIdea currentDescription : string) (st : AppState)
    : AppState * list AiCall :=
  if isApiBusy st || (0 <? apiThrottle st)%Z then (st, [])
  else (setIsApiBusy true (setGlobalError None st),
        [getScriptSuggestions projectIdea currentDescription]).

(** After [await getScriptSuggestions(...)]: the state and the value the
    handler returns. *)
Definition handleGetSuggestionsForShot_settled
    (result : Settled (list string)) (st : AppState)
    : AppState * option (list string) :=
  match result with
  | fulfilled suggestions => (finallyThrottle st, Some suggestions)
  | rejected message => (finallyThrottle (handleApiError message st), None)
  end.

(** ** Shots: insert, trash, restore, delete *)

(** The updater of [handleAddShotAfter] on the selected project. *)
Definition addShotAfter (now : Z) (newId previousShotId : string)
    (project : Project.t) : Project.t :=
  match list_find (λ s, Shot.id s = previousShotId) (Project.shots project)
  with
  | None => project
  | Some (shotIndex, _) =>
      let newShot :=
        Shot.mk newId 0 "Mô tả cảnh quay mới." "A new scene" [] None None
          None None None None false false defaultSettings in
      let newShots :=
        take (shotIndex + 1) (Project.shots project)
        ++ newShot :: drop (shotIndex + 1) (Project.shots project) in
      Project.set_updatedAt now (Project.set_shots (renumber newShots) project)
  end.

Definition handleAddShotAfter (now : Z) (newId previousShotId : string)
    (st : AppState) : AppState :=
  match selectedProjectId st with
  | Some pid =>
      if truthy_str (Some pid) then
        setProjects (mapProject pid (addShotAfter now newId previousShotId))
          st
      else st
  | None => st
  end.

Definition handleInitiateDeleteShot (shotId : string) (st : AppState)
    : AppState :=
  setPendingShotDeletionId (Some shotId) st.

Definition handleCancelDeleteShot (st : AppState) : AppState :=
  setPendingShotDeletionId None st.

(** The updater of [handleConfirmDeleteShot] on the selected project. *)
Definition trashShot (now : Z) (shotId : string) (project : Project.t)
    : Project.t :=
  match findShot shotId (Project.shots project) with
  | None => project
  | Some shotToTrash =>
      let remainingShots :=
        filter (λ s, Shot.id s ≠ shotId) (Project.shots project) in
      let updatedTrashedShots :=
        default [] (Project.trashedShots project) ++ [shotToTrash] in
      Project.set_updatedAt now
        (Project.set_trashedShots (Some updatedTrashedShots)
           (Project.set_shots (renumber remainingShots) project))
  end.

Definition handleConfirmDeleteShot (now : Z) (st : AppState) : AppState :=
  match pendingShotDeletionId st, selectedProjectId st with
  | Some shotId, Some pid =>
      if truthy_str (Some shotId) && truthy_str (Some pid) then
        setPendingShotDeletionId None
          (setProjects (mapProject pid (trashShot now shotId)) st)
      else st
  | _, _ => st
  end.

(** The updater of [handleRestoreShot] on the selected project. *)
Definition restoreShot (now : Z) (shotId : string) (project : Project.t)
    : Project.t :=
  match Project.trashedShots project with
  | None => project
  | Some trashed =>
      match findShot shotId trashed with
      | None => project
      | Some shotToRestore =>
          let updatedTrashedShots :=
            filter (λ s, Shot.id s ≠ shotId) trashed in
          let restoredShotsList :=
            sortByShotNumber (Project.shots project ++ [shotToRestore]) in
          Project.set_updatedAt now
            (Project.set_trashedShots (Some updatedTrashedShots)
               (Project.set_shots (renumber restoredShotsList) project))
      end
  end.

Definition handleRestoreShot (now : Z) (shotId : string) (st : AppState)
    : AppState :=
  match selectedProjectId st with
  | Some pid =>
      if truthy_str (Some pid) then
        setProjects (mapProject pid (restoreShot now shotId)) st
      else st
  | None => st
  end.

(** [onConfirm] of [handlePermanentlyDeleteShot]. *)
Definition handlePermanentlyDeleteShot (now : Z) (shotId : string)
    (st : AppState) : AppState :=
  match selectedProjectId st with
  | Some pid =>
      if truthy_str (Some pid) then
        setProjects
          (mapProject pid
             (λ p, Project.set_updatedAt now
                     (Project.set_trashedShots
                        (Some (filter (λ s, Shot.id s ≠ shotId)
                                 (default [] (Project.trashedShots p))))
                        p)))
          st
      else st
  | None => st
  end.

(** [onConfirm] of [handleEmptyTrash]. *)
Definition handleEmptyTrash (now : Z) (st : AppState) : AppState :=
  match selectedProjectId st with
  | Some pid =>
      if truthy_str (Some pid) then
        setProjects
          (mapProject pid
             (λ p, Project.set_updatedAt now
                     (Project.set_trashedShots (Some []) p)))
          st
      else st
  | None => st
  end.

(** ** Import *)

(** [reader.onload] of [handleImportJson].  [parsed] is the result of
    [JSON.parse]: [None] when it throws.  [uuid i] and [clock i] are drawn
    for the [i]-th shot, [projectId] for the project. *)
Definition handleImportJson (uuid : nat → string) (clock : nat → Z)
    (projectId : string) (parsed : option StoredProject) (st : AppState)
    : AppState :=
  let reject :=
    setGlobalError (Some "File bị lỗi hoặc không đúng định dạng.") st in
  match parsed with
  | None => reject
  | Some parsedProject =>
      match sp_shots parsedProject with
      | Some stored =>
          if truthy_str (sp_id parsedProject) then
            let migrated :=
              imap (λ i s, handleImportJson_migrateShot (uuid i) (clock i) s)
                stored in
            let imported :=
              Project.mk projectId
                (default "undefined" (sp_title parsedProject)
                 ++ " (Imported)")%string
                (sp_idea parsedProject) migrated
                (sp_trashedShots parsedProject) (sp_createdAt parsedProject)
                (sp_updatedAt parsedProject) (sp_isTrashed parsedProject) in
            setGlobalError None (setProjects (λ prev, imported :: prev) st)
          else reject
      | None => reject
      end
  end.

(** ** Change-tracking auto-save *)

(** The body of the debounced timer: the projects to persist. *)
Definition changedProjects (prevProjects : option (list Project.t))
    (current : list Project.t) : list Project.t :=
  match prevProjects with
  | None => [] ++ current
  | Some prev =>
      foldl (λ changed project,
               match findProject (Project.id project) prev with
               | None => changed ++ [project]
               | Some old =>
                   if decide (Project.updatedAt old ≠ Project.updatedAt project)
                   then changed ++ [project]
                   else changed
               end)
            [] current
  end.

(** The timer callback: one [saveProject] per changed project, then the
    snapshot is replaced by the current sequence. *)
Definition saveTimeout (st : AppState) : AppState * list DbCall :=
  (setPrevProjectsRef (Some (projects st)) st,
   saveProject <$> changedProjects (prevProjectsRef st) (projects st)).

(** The auto-save effect: no timer is armed for an empty collection;
    otherwise the timer, when it fires, runs [saveTimeout]. *)
Definition autoSave (st : AppState) : AppState * list DbCall :=
  match projects st with
  | [] => (st, [])
  | _ :: _ => saveTimeout st
  end.

(** ** Properties stated by the specification *)

(** [shotNumber] is the 1-based position. *)
Definition wellNumbered (ss : list Shot.t) : Prop :=
  ∀ (i : nat) (s : Shot.t),
    ss !! i = Some s → Shot.shotNumber s = (Z.of_nat i + 1)%Z.


(** A project is dirty with respect to a snapshot: its id is absent from
    the snapshot, or the snapshot's entry with that id has another
    [updatedAt]. *)
Definition dirty (snapshot : list Project.t) (p : Project.t) : Prop :=
  Forall (λ q, Project.id q ≠ Project.id p) snapshot
  ∨ Exists (λ q, Project.id q = Project.id p
                 ∧ Project.updatedAt q ≠ Project.updatedAt p) snapshot.

#[global] Instance dirty_dec snapshot p : Decision (dirty snapshot p).
Proof. unfold dirty. apply _. Defined.

(** No AI-triggering handler admits a call: each returns the state
    unchanged and issues no collaborator call, whatever its arguments. *)
Definition admitsNothing (st : AppState) : Prop :=
  handleCreateProject st = (st, [])
  ∧ (∀ shotId r c, handleGenerateImage shotId r c st = (st, []))
  ∧ (∀ shotId instruction,
       handleEditShotImage shotId instruction st = (st, []))
  ∧ (∀ now shotId d, handleUpdateShotDescription now shotId d st = (st, []))
  ∧ (∀ idea d, handleGetSuggestionsForShot idea d st = (st, [])).

(** An admitted AI-triggering call has completed: the state after the
    part of a handler that follows its [await], for any outcome. *)
Inductive aiCallCompletes (st : AppState) : AppState → Prop :=
| createCompletes idea captured uuid projectId t1 t2 result :
    aiCallCompletes st
      (handleCreateProject_settled idea captured uuid projectId t1 t2 result
         st)
| generateCompletes pid shotId captured uuid clock now results :
    aiCallCompletes st
      (handleGenerateImage_settled pid shotId captured uuid clock now
         results st)
| editCompletes pid shotId captured newId t1 t2 result :
    aiCallCompletes st
      (handleEditShotImage_settled pid shotId captured newId t1 t2 result st)
| descriptionCompletes pid shotId captured result :
    aiCallCompletes st
      (handleUpdateShotDescription_settled pid shotId captured result st)
| suggestionsCompletes result :
    aiCallCompletes st (handleGetSuggestionsForShot_settled result st).1.

(** Every project that a transformation changed carries the time of the
    transformation in [updatedAt]. *)
Definition bumps (now : Z) (before after : list Project.t) : Prop :=
  ∀ (i : nat) p p',
    before !! i = Some p → after !! i = Some p' → p' ≠ p →
    Project.updatedAt p' = now.

(** Some project was changed and kept its [updatedAt]. *)
Definition touchedWithoutBump (before after : list Project.t) : Prop :=
  ∃ (i : nat) p p',
    before !! i = Some p ∧ after !! i = Some p' ∧ p' ≠ p
    ∧ Project.updatedAt p' = Project.updatedAt p.



(** The shot has no variation yet and carries a usable deprecated image:
    the case in which the migration converts. *)
Definition legacyImaged (s : StoredShot.t) : Prop :=
  default [] (StoredShot.imageVariations s) = []
  ∧ (truthy_str (StoredShot.imageUrl s) = true
     ∨ truthy_str (StoredShot.imageOriginalUrl s) = true).

Definition deprecatedUrlsAbsent (s : StoredShot.t) : Prop :=
  StoredShot.imageUrl s = None ∧ StoredShot.imageOriginalUrl s = None
  ∧ StoredShot.imagePreviewUrl s = None.

(** The stored settings exist and name a shot type. *)
Definition settingsComplete (s : StoredShot.t) : Prop :=
  ∃ st t, StoredShot.settings s = Some st
          ∧ StoredSettings.shotType st = Some t ∧ t ≠ "".

(** What both migrations do to the deprecated URL properties. *)
Definition clearDeprecatedUrls (s : StoredShot.t) : StoredShot.t :=
  StoredShot.mk (StoredShot.id s) (StoredShot.shotNumber s)
    (StoredShot.description s) (StoredShot.visualPrompt s)
    (StoredShot.imageVariations s) (StoredShot.selectedVariationId s)
    None None
    (StoredShot.imagePreviewFileSize s) (StoredShot.imageOriginalFileSize s)
    None
    (StoredShot.isGeneratingImage s) (StoredShot.isUpdatingPrompt s)
    (StoredShot.settings s).

(** The loop of the timer callback selects, in order, the projects for
    which the test of its body succeeds. *)
Definition isChanged (prev : list Project.t) (project : Project.t) : bool :=
  match findProject (Project.id project) prev with
  | None => true
  | Some old =>
      bool_decide (Project.updatedAt old ≠ Project.updatedAt project)
  end.

(** ** Sample data for the examples *)

Definition sampleAsset : ImageAsset.t :=
  ImageAsset.mk "v1" "TWE=" "TWFu" (Some (Qc_of_Z 2)) (Qc_of_Z 3) 100.

Definition sampleShot (id : string) (n : Z) : Shot.t :=
  Shot.mk id n "A street at night" "night street, neon" [] None None None
    None None None false false defaultSettings.

Definition sampleProject (id : string) (updated : Z) : Project.t :=
  Project.mk id "Neon" "A detective looks for a lost memory"
    [sampleShot "s1" 1; sampleShot "s2" 2] (Some [sampleShot "s3" 2]) 10
    updated (Some false).

Definition sampleState : AppState :=
  mkAppState
    [sampleProject "p1" 10; sampleProject "p2" 20; sampleProject "p3" 30]
    PROJECT_DETAIL (Some "p1") None (Some "s1") false "Neon II" "A sequel"
    "A robot learns to paint" false 0 0 None active.

(** The same state one tick into a rate-limit cool-down whose throttle
    window has elapsed. *)
Definition cooldownState : AppState :=
  setRateLimitCooldown 57 sampleState.

(** A shot in the deprecated single-image shape, with its size fields and
    settings that predate [shotType]. *)
Definition legacyShot : StoredShot.t :=
  StoredShot.mk "s1" 1 "A street at night" "night street, neon" None None
    (Some "TWE=") None (Some (Qc_of_Z 2)) (Some (Qc_of_Z 3)) (Some "TWFu")
    false false
    (Some (StoredSettings.mk "Static" None "16:9" "Cinematic Realistic"
             "Natural Daylight")).

(** A shot that already has a variation but still carries a deprecated
    URL and has no settings. *)
Definition halfMigratedShot : StoredShot.t :=
  StoredShot.mk "s1" 1 "A street at night" "night street, neon"
    (Some [sampleAsset]) (Some "v1") None None None None (Some "TWFu")
    false false None.

(** The state after the first save of [sampleState] and a later change
    of the second project. *)
Definition savedState : AppState :=
  setPrevProjectsRef (Some (projects sampleState))
    (setProjects (λ ps, <[1 := Project.set_updatedAt 25 (sampleProject "p2" 20)]> ps)
       sampleState).

(** The same state while an AI call is in flight. *)
Definition busyState : AppState := setIsApiBusy true sampleState.

(** What [compressImage] resolves to when the image cannot be decoded. *)
Definition keepOriginal (base64Str : string) : string := base64Str.



Definition legacyFile : StoredProject :=
  mkStoredProject (Some "old-id") (Some "Neon") "A detective" (Some [legacyShot])
    None 10 20 None.

(** ** Derived values and further properties *)

(** [projects.find(p => p.id === selectedProjectId)], the project on
    display. *)
Definition currentProject (st : AppState) : option Project.t :=
  match selectedProjectId st with
  | Some pid => findProject pid (projects st)
  | None => None
  end.

(** [projects.filter(p => p.isTrashed)], the content of the project trash. *)
Definition trashedProjects (st : AppState) : list Project.t :=
  filter (λ p, truthy_bool (Project.isTrashed p) = true) (projects st).

(** The ids of the shots of a project, active ones first, then trashed
    ones. *)
Definition shotIds (p : Project.t) : list string :=
  Shot.id <$> (Project.shots p ++ default [] (Project.trashedShots p)).

(** ** Export *)

(** [c.toLowerCase()] on one byte. *)
Definition lower_ascii (c : ascii) : ascii :=
  let n := nat_of_ascii c in
  if ((65 <=? n) && (n <=? 90))%nat then ascii_of_nat (n + 32) else c.

(** The characters the class [[a-z0-9]] matches under the flag [i]. *)
Definition isAlnum (c : ascii) : bool :=
  let n := nat_of_ascii c in
  ((48 <=? n) && (n <=? 57) || (65 <=? n) && (n <=? 90)
   || (97 <=? n) && (n <=? 122))%nat.

(** [title.replace(/[^a-z0-9]/gi, '_').toLowerCase()], unit by unit: the
    model replaces every byte outside the class, where JavaScript replaces
    every UTF-16 unit outside it. *)
Fixpoint sanitizeTitle (title : string) : string :=
  match title with
  | EmptyString => EmptyString
  | String c r =>
      String (lower_ascii (if isAlnum c then c else "_"%char))
        (sanitizeTitle r)
  end.

(** The download name of [handleExportJson]. *)
Definition exportJsonFileName (title : string) : string :=
  (sanitizeTitle title ++ "_backup.json")%string.

(** [title.replace(/ /g, '_')]. *)
Fixpoint replaceSpaces (title : string) : string :=
  match title with
  | EmptyString => EmptyString
  | String c r =>
      String (if Ascii.eqb c " "%char then "_"%char else c) (replaceSpaces r)
  end.

(** The download name of [handleExportToHtml]. *)
Definition exportHtmlFileName (title : string) : string :=
  (replaceSpaces title ++ "_storyboard.html")%string.

(** What [JSON.parse] returns on the text [JSON.stringify] wrote for a
    project: properties that are [undefined] are not written, every other
    property is read back as it was. *)
Definition exportedProject (p : Project.t) : StoredProject :=
  mkStoredProject (Some (Project.id p)) (Some (Project.title p))
    (Project.idea p) (Some (Shot.stored <$> Project.shots p))
    (Project.trashedShots p) (Project.createdAt p) (Project.updatedAt p)
    (Project.isTrashed p).

(** [handleExportJson]: nothing without a project on display; else the
    download name and the content of the file (as read back). *)
Definition handleExportJson (st : AppState)
    : option (string * StoredProject) :=
  match currentProject st with
  | None => None
  | Some p => Some (exportJsonFileName (Project.title p), exportedProject p)
  end.

(** The shot carries none of the deprecated URL properties. *)
Definition noDeprecatedUrls (s : Shot.t) : Prop :=
  Shot.imageUrl s = None ∧ Shot.imageOriginalUrl s = None
  ∧ Shot.imagePreviewUrl s = None.

(** Every character of the string satisfies the test. *)
Fixpoint allChars (f : ascii → bool) (s : string) : bool :=
  match s with
  | EmptyString => true
  | String c r => f c && allChars f r
  end.

(** Lower-case ASCII letters, digits and the underscore. *)
Definition isFileNameChar (c : ascii) : bool :=
  let n := nat_of_ascii c in
  ((48 <=? n) && (n <=? 57) || (97 <=? n) && (n <=? 122) || (n =? 95))%nat.

(** ** More sample data *)

(** A shot with one variation, selected, in a project on display. *)
Definition imagedShot : Shot.t :=
  Shot.set_selectedVariationId (Some "v1")
    (Shot.set_imageVariations [sampleAsset] (sampleShot "s1" 1)).

Definition imagedProject : Project.t :=
  Project.set_shots [imagedShot; sampleShot "s2" 2] (sampleProject "p1" 10).

Definition imagedState : AppState :=
  setProjects (λ _, [imagedProject; sampleProject "p2" 20]) sampleState.

(** A character of the ASCII range: on strings made of such characters
    the byte strings of the model and the strings of JavaScript have the
    same length, the same characters and the same upper case. *)
Definition isAsciiChar (c : ascii) : bool := (nat_of_ascii c <? 128)%nat.

(** ** First run *)

(** What [initializeData] does outside the state: the calls to the gateway
    and to [localStorage]. *)
Inductive StartupCall : Type :=
| gateway (c : DbCall)
| localStorage_removeItem
| db_getProjects.

(** [initializeData], with its two [try] blocks.  [localData] is what
    [localStorage.getItem] returns ([rejected] when it throws);
    [JSON_parse] gives [None] where [JSON.parse] throws or gives no array
    of objects; [saved] is how [db.saveAllProjects] settles and
    [dbProjects] how [db.getProjects] does.  A failure of the migration is
    caught by the inner [try] and logged; the load follows in any case. *)
Definition initializeData (uuid : nat → nat → string)
    (clock : nat → nat → Z)
    (JSON_parse : string → option (list StoredProject))
    (localData : Settled (option string)) (saved : Settled unit)
    (dbProjects : Settled (list Project.t)) (st : AppState)
    : AppState * list StartupCall :=
  match localData with
  | rejected _ => (setGlobalError (Some "Lỗi khởi tạo cơ sở dữ liệu.") st, [])
  | fulfilled localData =>
      let migration :=
        if truthy_str localData then
          match JSON_parse (default "" localData) with
          | Some parsed =>
              match initializeData_migrate uuid clock parsed with
              | Some migrated =>
                  match saved with
                  | fulfilled _ =>
                      [gateway (saveAllProjects migrated);
                       localStorage_removeItem]
                  | rejected _ => [gateway (saveAllProjects migrated)]
                  end
              | None => []
              end
          | None => []
          end
        else [] in
      match dbProjects with
      | fulfilled ps =>
          (setProjects (λ _, ps) st, migration ++ [db_getProjects])
      | rejected _ =>
          (setGlobalError (Some "Lỗi khởi tạo cơ sở dữ liệu.") st,
           migration ++ [db_getProjects])
      end
  end.

(** ** Lemmas on the reducer helpers *)

Lemma lookup_mapProject pid f ps (i : nat) :
  mapProject pid f ps !! i
  = (λ p, if decide (Project.id p = pid) then f p else p) <$> ps !! i.
Proof. unfold mapProject. apply list_lookup_fmap. Qed.

Lemma lookup_mapShot shotId f ss (i : nat) :
  mapShot shotId f ss !! i
  = (λ s, if decide (Shot.id s = shotId) then f s else s) <$> ss !! i.
Proof. unfold mapShot. apply list_lookup_fmap. Qed.

Lemma lookup_mapProject_hit pid f ps (i : nat) p :
  ps !! i = Some p → Project.id p = pid →
  mapProject pid f ps !! i = Some (f p).
Proof.
  intros Hp Hid. rewrite lookup_mapProject, Hp. simpl.
  destruct (decide (Project.id p = pid)); congruence.
Qed.

Lemma lookup_mapShot_hit shotId f ss (i : nat) s :
  ss !! i = Some s → Shot.id s = shotId →
  mapShot shotId f ss !! i = Some (f s).
Proof.
  intros Hs Hid. rewrite lookup_mapShot, Hs. simpl.
  destruct (decide (Shot.id s = shotId)); congruence.
Qed.

Lemma truthy_str_Some s : s ≠ "" → truthy_str (Some s) = true.
Proof.
  intros Hs. simpl. destruct (String.eqb_spec s ""); [contradiction | done].
Qed.

Lemma renumber_wellNumbered ss : wellNumbered (renumber ss).
Proof.
  intros i s. unfold renumber. rewrite list_lookup_imap.
  destruct (ss !! i); simpl; [|discriminate].
  intros [= <-]. reflexivity.
Qed.

Lemma length_renumber ss : length (renumber ss) = length ss.
Proof. unfold renumber. apply length_imap. Qed.

Lemma length_insertByShotNumber x l :
  length (insertByShotNumber x l) = S (length l).
Proof.
  induction l as [|y r IH]; simpl; [done|].
  destruct (Shot.shotNumber x <=? Shot.shotNumber y)%Z; simpl; congruence.
Qed.

Lemma length_sortByShotNumber l : length (sortByShotNumber l) = length l.
Proof.
  induction l as [|x l IH]; simpl; [done|].
  rewrite length_insertByShotNumber. congruence.
Qed.

(** ** Shot renumbering *)

Lemma addShotAfter_found now newId previousShotId p :
  is_Some (findShot previousShotId (Project.shots p)) →
  wellNumbered (Project.shots (addShotAfter now newId previousShotId p))
  ∧ length (Project.shots (addShotAfter now newId previousShotId p))
    = S (length (Project.shots p)).
Proof.
  unfold findShot, addShotAfter. intros [s Hs].
  destruct (list_find _ (Project.shots p)) as [[i x]|] eqn:E; [|discriminate].
  simpl. split; [apply renumber_wellNumbered|].
  rewrite length_renumber, length_app. simpl.
  rewrite length_take, length_drop.
  apply list_find_Some in E as (Hl & _). apply lookup_lt_Some in Hl. lia.
Qed.

Lemma trashShot_found now shotId p :
  is_Some (findShot shotId (Project.shots p)) →
  wellNumbered (Project.shots (trashShot now shotId p))
  ∧ Forall (λ s, Shot.id s ≠ shotId) (Project.shots (trashShot now shotId p)).
Proof.
  unfold trashShot. intros [s Hs]. rewrite Hs. simpl.
  split; [apply renumber_wellNumbered|].
  apply list.Forall_forall. intros x Hx.
  apply list_elem_of_lookup in Hx as [i Hi].
  unfold renumber in Hi. rewrite list_lookup_imap in Hi.
  destruct (filter _ _ !! i) as [y|] eqn:Ey; [|discriminate].
  simpl in Hi. injection Hi as <-. simpl.
  apply list_elem_of_lookup_2 in Ey. by apply list_elem_of_filter in Ey as [? _].
Qed.

Lemma restoreShot_found now shotId p trashed :
  Project.trashedShots p = Some trashed →
  is_Some (findShot shotId trashed) →
  wellNumbered (Project.shots (restoreShot now shotId p))
  ∧ length (Project.shots (restoreShot now shotId p))
    = S (length (Project.shots p)).
Proof.
  unfold restoreShot. intros Ht [s Hs]. rewrite Ht, Hs. simpl.
  split; [apply renumber_wellNumbered|].
  rewrite length_renumber, length_sortByShotNumber, length_app. simpl. lia.
Qed.

(** C3. After add-shot-after, trash-shot (confirmed deletion) or
    restore-shot has been applied to the selected project's shot list
    (the shot the handler names is found), every shot of that list has
    [shotNumber = index + 1]; the list has grown by one on insertion and
    restoration, and no longer holds the trashed shot. *)
Theorem shot_list_operations_renumber (now : Z) (newId shotId : string)
    (st : AppState) (i : nat) (p : Project.t) :
  projects st !! i = Some p →
  selectedProjectId st = Some (Project.id p) →
  Project.id p ≠ "" →
  (is_Some (findShot shotId (Project.shots p)) →
   ∃ p', projects (handleAddShotAfter now newId shotId st) !! i = Some p'
         ∧ wellNumbered (Project.shots p')
         ∧ length (Project.shots p') = S (length (Project.shots p)))
  ∧ (pendingShotDeletionId st = Some shotId → shotId ≠ "" →
     is_Some (findShot shotId (Project.shots p)) →
     ∃ p', projects (handleConfirmDeleteShot now st) !! i = Some p'
           ∧ wellNumbered (Project.shots p')
           ∧ Forall (λ s, Shot.id s ≠ shotId) (Project.shots p'))
  ∧ (∀ trashed, Project.trashedShots p = Some trashed →
     is_Some (findShot shotId trashed) →
     ∃ p', projects (handleRestoreShot now shotId st) !! i = Some p'
           ∧ wellNumbered (Project.shots p')
           ∧ length (Project.shots p') = S (length (Project.shots p))).
Proof.
  intros Hp Hsel Hne. split; [|split].
  - intros Hf. exists (addShotAfter now newId shotId p).
    unfold handleAddShotAfter. rewrite Hsel, (truthy_str_Some _ Hne). simpl.
    split; [by apply lookup_mapProject_hit|].
    by apply addShotAfter_found.
  - intros Hpend Hs Hf. exists (trashShot now shotId p).
    unfold handleConfirmDeleteShot.
    rewrite Hpend, Hsel, (truthy_str_Some _ Hne), (truthy_str_Some _ Hs).
    simpl. split; [by apply lookup_mapProject_hit|].
    by apply trashShot_found.
  - intros trashed Ht Hf. exists (restoreShot now shotId p).
    unfold handleRestoreShot. rewrite Hsel, (truthy_str_Some _ Hne). simpl.
    split; [by apply lookup_mapProject_hit|].
    by eapply restoreShot_found.
Qed.

(** ** Change-tracking auto-save *)

Lemma changedProjects_loop prev current init :
  foldl (λ changed project,
           match findProject (Project.id project) prev with
           | None => changed ++ [project]
           | Some old =>
               if decide (Project.updatedAt old ≠ Project.updatedAt project)
               then changed ++ [project]
               else changed
           end)
        init current
  = init ++ filter (λ p, isChanged prev p = true) current.
Proof.
  revert init. induction current as [|x l IH]; intros init; simpl.
  - by rewrite app_nil_r.
  - rewrite IH, filter_cons.
    assert (isChanged prev x
            = match findProject (Project.id x) prev with
              | None => true
              | Some old =>
                  bool_decide (Project.updatedAt old ≠ Project.updatedAt x)
              end) as Hx by reflexivity.
    destruct (findProject (Project.id x) prev) as [old|].
    + destruct (decide (Project.updatedAt old ≠ Project.updatedAt x)) as [H|H].
      * rewrite (bool_decide_eq_true_2 _ H) in Hx.
        rewrite decide_True by done. by rewrite <- app_assoc.
      * rewrite (bool_decide_eq_false_2 _ H) in Hx.
        rewrite decide_False by (by rewrite Hx). done.
    + rewrite decide_True by done. by rewrite <- app_assoc.
Qed.

Lemma findProject_None pid prev :
  findProject pid prev = None ↔ Forall (λ q, Project.id q ≠ pid) prev.
Proof.
  unfold findProject. rewrite fmap_None. apply list_find_None.
Qed.

Lemma findProject_Some pid prev old :
  findProject pid prev = Some old → old ∈ prev ∧ Project.id old = pid.
Proof.
  unfold findProject. intros H.
  destruct (list_find _ prev) as [[i x]|] eqn:E; [|discriminate].
  injection H as <-. apply list_find_Some in E as (Hl & Hx & _).
  split; [by eapply list_elem_of_lookup_2 | done].
Qed.

(** With distinct ids in the snapshot, two entries of the same id are the
    same entry. *)
Lemma same_id_same_entry (prev : list Project.t) q1 q2 :
  NoDup (Project.id <$> prev) → q1 ∈ prev → q2 ∈ prev →
  Project.id q1 = Project.id q2 → q1 = q2.
Proof.
  intros Hnd H1 H2 Hid.
  apply list_elem_of_lookup in H1 as [i Hi].
  apply list_elem_of_lookup in H2 as [j Hj].
  assert ((Project.id <$> prev) !! i = Some (Project.id q1)) as Ei
    by (by rewrite list_lookup_fmap, Hi).
  assert ((Project.id <$> prev) !! j = Some (Project.id q1)) as Ej
    by (by rewrite list_lookup_fmap, Hj, Hid).
  pose proof (NoDup_lookup _ _ _ _ Hnd Ei Ej) as ->. congruence.
Qed.

Lemma isChanged_dirty prev p :
  NoDup (Project.id <$> prev) → isChanged prev p = true ↔ dirty prev p.
Proof.
  intros Hnd. unfold isChanged, dirty.
  destruct (findProject (Project.id p) prev) as [old|] eqn:E.
  - apply findProject_Some in E as [Hin Hid].
    rewrite bool_decide_eq_true. split.
    + intros Hne. right. apply list.Exists_exists. by exists old.
    + intros [Hall | Hex].
      * rewrite list.Forall_forall in Hall. by destruct (Hall old Hin).
      * apply list.Exists_exists in Hex as (q & Hq & Hqid & Hqt).
        assert (q = old) as -> by (eapply same_id_same_entry; eauto; congruence).
        done.
  - apply findProject_None in E. split; [by left | done].
Qed.

Lemma changedProjects_filter prev current :
  NoDup (Project.id <$> prev) →
  changedProjects (Some prev) current = filter (dirty prev) current.
Proof.
  intros Hnd. unfold changedProjects. rewrite changedProjects_loop. simpl.
  apply list_filter_iff. intros p. by apply isChanged_dirty.
Qed.

Lemma member_not_dirty prev q :
  NoDup (Project.id <$> prev) → q ∈ prev → ¬ dirty prev q.
Proof.
  intros Hnd Hq [Hall | Hex].
  - rewrite list.Forall_forall in Hall. by destruct (Hall q Hq).
  - apply list.Exists_exists in Hex as (r & Hr & Hid & Ht).
    assert (r = q) as -> by (eapply same_id_same_entry; eauto).
    done.
Qed.

Lemma filter_dirty_members prev l :
  NoDup (Project.id <$> prev) → l ⊆ prev → filter (dirty prev) l = [].
Proof.
  intros Hnd. induction l as [|x l IH]; intros Hsub; [done|].
  rewrite filter_cons, decide_False.
  - apply IH. set_solver.
  - apply member_not_dirty; [done | set_solver].
Qed.

(** C1. When the auto-save timer fires, the [saveProject] calls are: one
    per current project when there is no snapshot; otherwise (snapshot ids
    distinct) one per project, in order, whose id is absent from the
    snapshot or whose [updatedAt] differs from the snapshot entry of the
    same id.  A state that differs from the snapshot in one project's
    [updatedAt] yields exactly one call, for that project; three projects
    and no snapshot yield three calls. *)
Theorem autoSave_persists_exactly_dirty (st : AppState) :
  (prevProjectsRef st = None →
   (autoSave st).2 = saveProject <$> projects st)
  ∧ (∀ S, prevProjectsRef st = Some S → NoDup (Project.id <$> S) →
       (autoSave st).2 = saveProject <$> filter (dirty S) (projects st))
  ∧ (∀ S (i : nat) P t,
       prevProjectsRef st = Some S → NoDup (Project.id <$> S) →
       S !! i = Some P → t ≠ Project.updatedAt P →
       projects st = <[i := Project.set_updatedAt t P]> S →
       (autoSave st).2 = [saveProject (Project.set_updatedAt t P)])
  ∧ (prevProjectsRef st = None → length (projects st) = 3 →
     length (autoSave st).2 = 3).
Proof.
  assert (Hnone : prevProjectsRef st = None →
                  (autoSave st).2 = saveProject <$> projects st).
  { intros H. unfold autoSave, saveTimeout.
    destruct (projects st) eqn:E; [done|]. simpl. by rewrite H. }
  assert (Hsome : ∀ S, prevProjectsRef st = Some S →
                       NoDup (Project.id <$> S) →
                       (autoSave st).2
                       = saveProject <$> filter (dirty S) (projects st)).
  { intros S H Hnd. unfold autoSave, saveTimeout.
    destruct (projects st) eqn:E; [done|]. simpl.
    by rewrite H, changedProjects_filter. }
  split; [done|]. split; [done|]. split.
  - intros S i P t H Hnd Hi Ht Hst. rewrite (Hsome S H Hnd), Hst.
    rewrite insert_take_drop by (by eapply lookup_lt_Some).
    rewrite list.filter_app, filter_cons.
    rewrite (filter_dirty_members S (take i S) Hnd (subseteq_take i S)).
    rewrite (filter_dirty_members S (drop (Datatypes.S i) S) Hnd
               (subseteq_drop (Datatypes.S i) S)).
    rewrite decide_True; [done|].
    right. apply list.Exists_exists. exists P.
    split; [by eapply list_elem_of_lookup_2|]. simpl. split; [done|congruence].
  - intros H Hlen. rewrite (Hnone H), length_fmap. done.
Qed.

(** ** Base64 size *)

Lemma base64Padding_range s :
  (base64Padding s = 0 ∨ base64Padding s = 1 ∨ base64Padding s = 2)%Z.
Proof.
  unfold base64Padding.
  destruct (endsWith s "=="); [auto|]. destruct (endsWith s "="); auto.
Qed.

(** The value computed by the code, as a fraction over four. *)
Lemma calculateBase64Size_quarters s :
  (calculateBase64Size s : Q)
  == (3 * Z.of_nat (String.length s) - 4 * base64Padding s) # 4.
Proof.
  unfold calculateBase64Size, Qcminus, Qcdiv, Qcmult, Qcplus, Qcopp, Qcinv,
    Qc_of_Z, Q2Qc.
  cbn [this]. rewrite !Qred_correct.
  unfold Qeq, Qminus, Qplus, Qmult, Qopp, Qinv, inject_Z. simpl. lia.
Qed.

Lemma Qceiling_quarters (a : Z) : Qceiling (a # 4) = (- (- a / 4))%Z.
Proof. unfold Qceiling, Qfloor. simpl. reflexivity. Qed.

Lemma specBase64Size_quarters s :
  specBase64Size s
  = (- (- (3 * Z.of_nat (String.length s)) / 4) - base64Padding s)%Z.
Proof.
  unfold specBase64Size.
  assert (inject_Z (Z.of_nat (String.length s)) * (3 # 4)
          == (3 * Z.of_nat (String.length s)) # 4) as ->.
  { unfold Qeq, Qmult, inject_Z. simpl. lia. }
  by rewrite Qceiling_quarters.
Qed.

Lemma substring_0_length (s : string) :
  substring 0 (String.length s) s = s.
Proof. induction s as [|c r IH]; [done|]. simpl. by rewrite IH. Qed.

(** A string is its first [k] characters followed by the rest. *)
Lemma substring_split (k : nat) (s : string) :
  (k ≤ String.length s)%nat →
  s = (substring 0 k s ++ substring k (String.length s - k) s)%string.
Proof.
  revert s. induction k as [|k IH]; intros s Hk.
  - rewrite Nat.sub_0_r, substring_0_length. by destruct s.
  - destruct s as [|c r]; simpl in Hk; [lia|].
    change (substring 0 (S k) (String c r)) with (String c (substring 0 k r)).
    change (String c (substring 0 k r) ++ ?x)%string
      with (String c (substring 0 k r ++ x)%string).
    f_equal. simpl. apply IH. lia.
Qed.

Lemma length_append (a b : string) :
  String.length (a ++ b)%string = (String.length a + String.length b)%nat.
Proof.
  induction a as [|c a IH]; [done|].
  change (String c a ++ b)%string with (String c (a ++ b)%string).
  simpl. by rewrite IH.
Qed.

Lemma substring_append_suffix (t suffix : string) :
  substring (String.length t) (String.length suffix) (t ++ suffix)%string
  = suffix.
Proof.
  induction t as [|c t IH].
  - change (EmptyString ++ suffix)%string with suffix.
    apply substring_0_length.
  - change (String c t ++ suffix)%string with (String c (t ++ suffix)%string).
    simpl. exact IH.
Qed.

(** [endsWith] holds exactly of the strings that have the suffix at their
    end. *)
Lemma endsWith_spec (s suffix : string) :
  endsWith s suffix = true ↔ ∃ t, s = (t ++ suffix)%string.
Proof.
  unfold endsWith. split.
  - destruct (String.length suffix <=? String.length s)%nat eqn:E;
      [|discriminate].
    apply Nat.leb_le in E. remember (String.length suffix) as m eqn:Em.
    intros H%String.eqb_eq.
    exists (substring 0 (String.length s - m) s).
    pose proof (substring_split (String.length s - m) s) as Hs.
    replace (String.length s - (String.length s - m))%nat with m in Hs by lia.
    rewrite H in Hs. apply Hs. lia.
  - intros [t ->]. rewrite length_append.
    rewrite (proj2 (Nat.leb_le _ _)) by lia.
    replace (String.length t + String.length suffix - String.length suffix)%nat
      with (String.length t) by lia.
    rewrite substring_append_suffix. apply String.eqb_refl.
Qed.

(** C10.  [calculateBase64Size] returns exactly three
    quarters of the encoded length minus the padding adjustment, without
    rounding, the adjustment being 2 on a string that ends in two padding
    characters, 1 on one that ends in one, else 0: the formula with the
    ceiling is the ceiling of the returned value, and equals it when the
    length is a multiple of four, as on the known pairs with 0, 1 and 2
    padding characters. *)
Theorem calculateBase64Size_formula (s : string) :
  calculateBase64Size s
  = (Qc_of_Z (Z.of_nat (String.length s)) * Q2Qc (3 # 4)
     - Qc_of_Z (base64Padding s))%Qc
  ∧ (((∃ t, s = (t ++ "==")%string) → base64Padding s = 2%Z)
     ∧ ((∃ t, s = (t ++ "=")%string) → ¬ (∃ t, s = (t ++ "==")%string) →
        base64Padding s = 1%Z)
     ∧ (¬ (∃ t, s = (t ++ "=")%string) → base64Padding s = 0%Z))
  ∧ Qceiling (calculateBase64Size s) = specBase64Size s
  ∧ ((4 | String.length s)%nat →
     calculateBase64Size s = Qc_of_Z (specBase64Size s))
  ∧ calculateBase64Size "TWFu" = Qc_of_Z 3
  ∧ calculateBase64Size "TWE=" = Qc_of_Z 2
  ∧ calculateBase64Size "TQ==" = Qc_of_Z 1.
Proof.
  split; [|split; [|split; [|split]]].
  - apply Qc_is_canon. rewrite calculateBase64Size_quarters.
    unfold Qcminus, Qcmult, Qcplus, Qcopp, Qc_of_Z, Q2Qc.
    cbn [this]. rewrite !Qred_correct.
    unfold Qeq, Qminus, Qplus, Qmult, Qopp, inject_Z. simpl. lia.
  - unfold base64Padding. split; [|split].
    + intros H%endsWith_spec. by rewrite H.
    + intros H1%endsWith_spec H2.
      destruct (endsWith s "==") eqn:E2.
      * exfalso. apply H2. by apply endsWith_spec.
      * by rewrite H1.
    + intros H1.
      destruct (endsWith s "==") eqn:E2.
      * exfalso. apply H1. apply endsWith_spec in E2 as [t ->].
        exists (t ++ "=")%string. clear.
        induction t as [|c t IH]; [done|].
        change (String c t ++ ?x)%string with (String c (t ++ x)%string).
        by rewrite IH.
      * destruct (endsWith s "=") eqn:E1; [|done].
        exfalso. apply H1. by apply endsWith_spec.
  - rewrite (Qceiling_comp _ _ (calculateBase64Size_quarters s)).
    rewrite Qceiling_quarters, specBase64Size_quarters.
    replace (- (3 * Z.of_nat (String.length s) - 4 * base64Padding s))%Z
      with (- (3 * Z.of_nat (String.length s)) + base64Padding s * 4)%Z
      by lia.
    rewrite Z.div_add by lia. lia.
  - intros [k Hk]. apply Qc_is_canon.
    rewrite calculateBase64Size_quarters, specBase64Size_quarters.
    rewrite Hk.
    replace (- (3 * Z.of_nat (k * 4)))%Z with ((- (3 * Z.of_nat k)) * 4)%Z
      by lia.
    rewrite Z.div_mul by lia.
    unfold Qc_of_Z. cbn [this].
    unfold Qeq, inject_Z. simpl. lia.
  - repeat split; apply Qc_is_canon; reflexivity.
Qed.

(** ** Legacy shot migration *)

Lemma truthy_or_str a b :
  truthy_str (or_str a b) = truthy_str a || truthy_str b.
Proof. unfold or_str. destruct (truthy_str a) eqn:E; simpl; done. Qed.

Lemma ensureSettings_complete st t :
  StoredSettings.shotType st = Some t → t ≠ "" →
  StoredSettings.of_settings (ensureSettings (Some st)) = st.
Proof.
  intros Ht Hne. destruct st as [cm ty ar art li]. simpl in *. subst ty.
  unfold StoredSettings.of_settings. simpl.
  destruct (String.eqb_spec t ""); [contradiction | done].
Qed.


(** C4.  On a shot whose [imageVariations] is non-empty the
    migration builds no asset and keeps the variations, the selection and
    every other property, except that it removes the deprecated
    [imageUrl], [imageOriginalUrl] and [imagePreviewUrl] and, at import,
    fills in missing settings or a missing shot type.  A shot without
    those three properties (and, at import, with complete settings) is
    returned unchanged. *)
Theorem migration_keeps_existing_variations (newId : string) (now : Z)
    (s : StoredShot.t) (v : ImageAsset.t) (vs : list ImageAsset.t) :
  StoredShot.imageVariations s = Some (v :: vs) →
  initializeData_migrateShot newId now s = clearDeprecatedUrls s
  ∧ Shot.stored (handleImportJson_migrateShot newId now s)
    = StoredShot.set_settings
        (Some (StoredSettings.of_settings
                 (ensureSettings (StoredShot.settings s))))
        (clearDeprecatedUrls s)
  ∧ (deprecatedUrlsAbsent s → initializeData_migrateShot newId now s = s)
  ∧ (deprecatedUrlsAbsent s → settingsComplete s →
     Shot.stored (handleImportJson_migrateShot newId now s) = s).
Proof.
  intros Hv.
  assert (H1 : initializeData_migrateShot newId now s = clearDeprecatedUrls s).
  { unfold initializeData_migrateShot, clearDeprecatedUrls. rewrite Hv.
    simpl. by rewrite andb_false_r. }
  assert (H2 : Shot.stored (handleImportJson_migrateShot newId now s)
               = StoredShot.set_settings
                   (Some (StoredSettings.of_settings
                            (ensureSettings (StoredShot.settings s))))
                   (clearDeprecatedUrls s)).
  { unfold handleImportJson_migrateShot, clearDeprecatedUrls, Shot.stored,
      StoredShot.set_settings.
    rewrite Hv. simpl. by rewrite andb_false_r. }
  split; [done|]. split; [done|]. split.
  - intros (Hu & Ho & Hp). rewrite H1. unfold clearDeprecatedUrls.
    destruct s; simpl in *. by subst.
  - intros (Hu & Ho & Hp) (st & t & Hs & Ht & Hne). rewrite H2.
    unfold clearDeprecatedUrls, StoredShot.set_settings.
    destruct s; simpl in *. subst.
    by rewrite (ensureSettings_complete st t Ht Hne).
Qed.

(** C5.  On a shot without variations that carries a
    non-empty [imageUrl] or [imageOriginalUrl], both migrations build
    exactly one asset, the sole variation and the selected one.  The asset
    reuses the deprecated preview URL with its stored size when that URL is
    non-empty and otherwise recomputes both, and reuses the deprecated
    original size when it is non-zero and otherwise recomputes it.  Both
    migrations remove [imageUrl], [imageOriginalUrl] and [imagePreviewUrl]
    and keep the two deprecated size properties.  The import migration
    fills in the default settings when settings are absent and the shot
    type when settings lack it. *)
Theorem legacy_shot_conversion (newId : string) (now : Z)
    (s : StoredShot.t) :
  legacyImaged s →
  let a := legacyAsset newId now s in
  let r := initializeData_migrateShot newId now s in
  let m := handleImportJson_migrateShot newId now s in
  (StoredShot.imageVariations r = Some [a]
   ∧ StoredShot.selectedVariationId r = Some newId
   ∧ Shot.imageVariations m = [a]
   ∧ Shot.selectedVariationId m = Some newId)
  ∧ (ImageAsset.id a = newId
     ∧ ImageAsset.createdAt a = now
     ∧ ImageAsset.originalUrl a
       = or_str_default (StoredShot.imageOriginalUrl s) (StoredShot.imageUrl s)
     ∧ (∀ u, StoredShot.imagePreviewUrl s = Some u → u ≠ "" →
          ImageAsset.previewUrl a = u
          ∧ ImageAsset.previewFileSize a = StoredShot.imagePreviewFileSize s)
     ∧ (truthy_str (StoredShot.imagePreviewUrl s) = false →
          ImageAsset.previewUrl a = compressImage (ImageAsset.originalUrl a)
          ∧ ImageAsset.previewFileSize a
            = Some (calculateBase64Size (ImageAsset.previewUrl a)))
     ∧ (∀ q, StoredShot.imageOriginalFileSize s = Some q → q ≠ Qc_of_Z 0 →
          ImageAsset.originalFileSize a = q)
     ∧ (truthy_num (StoredShot.imageOriginalFileSize s) = false →
          ImageAsset.originalFileSize a
          = calculateBase64Size (ImageAsset.originalUrl a)))
  ∧ (StoredShot.imageUrl r = None ∧ StoredShot.imageOriginalUrl r = None
     ∧ StoredShot.imagePreviewUrl r = None
     ∧ Shot.imageUrl m = None ∧ Shot.imageOriginalUrl m = None
     ∧ Shot.imagePreviewUrl m = None)
  ∧ (StoredShot.imagePreviewFileSize r = StoredShot.imagePreviewFileSize s
     ∧ StoredShot.imageOriginalFileSize r = StoredShot.imageOriginalFileSize s
     ∧ Shot.imagePreviewFileSize m = StoredShot.imagePreviewFileSize s
     ∧ Shot.imageOriginalFileSize m = StoredShot.imageOriginalFileSize s)
  ∧ ((StoredShot.settings s = None → Shot.settings m = defaultSettings)
     ∧ (∀ st, StoredShot.settings s = Some st →
          truthy_str (StoredSettings.shotType st) = false →
          Shot.settings m
          = ShotSettings.mk (StoredSettings.cameraMovement st) "Medium Shot"
              (StoredSettings.aspectRatio st) (StoredSettings.artStyle st)
              (StoredSettings.lighting st))
     ∧ (∀ st t, StoredShot.settings s = Some st →
          StoredSettings.shotType st = Some t → t ≠ "" →
          StoredSettings.of_settings (Shot.settings m) = st)).
Proof.
  intros [Hempty Himg] a r m.
  assert (Hc1 : truthy_str (or_str (StoredShot.imageOriginalUrl s)
                              (StoredShot.imageUrl s)) = true).
  { rewrite truthy_or_str. destruct Himg as [-> | ->]; by rewrite ?orb_true_r. }
  assert (Hc2 : truthy_str (or_str (StoredShot.imageUrl s)
                              (StoredShot.imageOriginalUrl s)) = true).
  { rewrite truthy_or_str. destruct Himg as [-> | ->]; by rewrite ?orb_true_r. }
  assert (Hv : match StoredShot.imageVariations s with
               | Some vs => vs
               | None => []
               end = []).
  { destruct (StoredShot.imageVariations s); done. }
  split; [|split; [|split; [|split]]].
  - subst r m. unfold initializeData_migrateShot, handleImportJson_migrateShot.
    rewrite Hv, Hc1, Hc2. simpl. done.
  - subst a. unfold legacyAsset.
    cbn [ImageAsset.id ImageAsset.createdAt ImageAsset.originalUrl
         ImageAsset.previewUrl ImageAsset.previewFileSize
         ImageAsset.originalFileSize].
    split; [done|]. split; [done|]. split; [done|].
    split; [|split; [|split]].
    + intros u Hu Hne. rewrite Hu, (truthy_str_Some u Hne). done.
    + destruct (StoredShot.imagePreviewUrl s) as [u|]; [|done].
      intros ->. done.
    + intros q Hq Hne. rewrite Hq. unfold truthy_num.
      destruct (Qc_eq_bool q (Qc_of_Z 0)) eqn:E; [|done].
      by apply Qc_eq_bool_correct in E.
    + destruct (StoredShot.imageOriginalFileSize s) as [q|]; [|done].
      intros ->. done.
  - subst r m. simpl. done.
  - subst r m. simpl. done.
  - subst m. unfold handleImportJson_migrateShot. cbn [Shot.settings].
    split; [|split].
    + by intros ->.
    + intros st -> Ht. unfold ensureSettings.
      destruct (StoredSettings.shotType st) as [t|]; [|done].
      by rewrite Ht.
    + intros st t -> Ht Hne. by apply ensureSettings_complete with t.
Qed.

(** The first-run migration copies the settings as they are stored. *)
Lemma initializeData_migrateShot_settings newId now s :
  StoredShot.settings (initializeData_migrateShot newId now s)
  = StoredShot.settings s.
Proof. reflexivity. Qed.

(** ** [updatedAt] as the dirty marker *)

Lemma projects_handleApiError message st :
  projects (handleApiError message st) = projects st.
Proof. unfold handleApiError. repeat case_match; reflexivity. Qed.

Lemma projects_resetWarning captured st :
  projects (resetWarning captured st) = projects st.
Proof. by destruct captured. Qed.

Lemma bumps_refl now ps : bumps now ps ps.
Proof. intros i p p' Hp Hp' Hne. congruence. Qed.

Lemma mapProject_bumps now pid f ps :
  (∀ p, f p = p ∨ Project.updatedAt (f p) = now) →
  bumps now ps (mapProject pid f ps).
Proof.
  intros Hf i p p' Hp Hp' Hne.
  rewrite lookup_mapProject, Hp in Hp'. simpl in Hp'.
  injection Hp' as <-.
  destruct (decide (Project.id p = pid)); [|done].
  destruct (Hf p) as [E|E]; [by rewrite E in Hne | done].
Qed.

Lemma mapProject_keeps_updatedAt pid f ps :
  (∀ p, Project.updatedAt (f p) = Project.updatedAt p) →
  Project.updatedAt <$> mapProject pid f ps = Project.updatedAt <$> ps.
Proof.
  intros Hf. unfold mapProject. rewrite <- list_fmap_compose.
  apply list_fmap_ext. intros i p _. simpl.
  by destruct (decide (Project.id p = pid)).
Qed.

Lemma markGenerating_keeps_updatedAt pid shotId b ps :
  Project.updatedAt <$> markGenerating pid shotId b ps
  = Project.updatedAt <$> ps.
Proof. unfold markGenerating. by apply mapProject_keeps_updatedAt. Qed.


(** C2.  Each of the following transformations sets the [updatedAt] of
    each project it changes to the time of the transformation: select
    variation, generate-image and edit-image success, soft-delete and
    restore project, save project info, the description edit that starts
    update-description, update visual prompt, update settings, add shot,
    trash, restore and permanently delete shot, empty shot trash.  The
    transformations that only mark or clear [isGeneratingImage]
    (generate-image and edit-image start and failure) leave every
    [updatedAt] as it was. *)
Theorem content_transformations_bump_updatedAt (now : Z) (st : AppState) :
  ((∀ shotId v,
      bumps now (projects st)
        (projects (handleSelectVariation now shotId v st)))
   ∧ (∀ pid shotId k uuid clock results,
        successfulImages results ≠ [] →
        bumps now (projects st)
          (projects (handleGenerateImage_settled pid shotId k uuid clock now
                       results st)))
   ∧ (∀ pid shotId k newId t img,
        bumps now (projects st)
          (projects (handleEditShotImage_settled pid shotId k newId t now
                       (fulfilled img) st)))
   ∧ (∀ id, bumps now (projects st) (projects (handleDeleteProject now id st)))
   ∧ (∀ id, bumps now (projects st) (projects (handleRestoreProject now id st)))
   ∧ bumps now (projects st) (projects (handleSaveProjectInfo now st))
   ∧ (∀ shotId d,
        bumps now (projects st)
          (projects (handleUpdateShotDescription now shotId d st).1))
   ∧ (∀ shotId v,
        bumps now (projects st)
          (projects (handleUpdateVisualPrompt now shotId v st)))
   ∧ (∀ shotId new,
        bumps now (projects st)
          (projects (handleUpdateShotSettings now shotId new st))))
  ∧ ((∀ newId shotId,
        bumps now (projects st)
          (projects (handleAddShotAfter now newId shotId st)))
     ∧ bumps now (projects st) (projects (handleConfirmDeleteShot now st))
     ∧ (∀ shotId,
          bumps now (projects st) (projects (handleRestoreShot now shotId st)))
     ∧ (∀ shotId,
          bumps now (projects st)
            (projects (handlePermanentlyDeleteShot now shotId st)))
     ∧ bumps now (projects st) (projects (handleEmptyTrash now st)))
  ∧ ((∀ shotId r c,
        Project.updatedAt <$> projects (handleGenerateImage shotId r c st).1
        = Project.updatedAt <$> projects st)
     ∧ (∀ pid shotId k uuid clock t results,
          successfulImages results = [] →
          Project.updatedAt
            <$> projects (handleGenerateImage_settled pid shotId k uuid
                            clock t results st)
          = Project.updatedAt <$> projects st)
     ∧ (∀ shotId instruction,
          Project.updatedAt
            <$> projects (handleEditShotImage shotId instruction st).1
          = Project.updatedAt <$> projects st)
     ∧ (∀ pid shotId k newId t1 t2 message,
          Project.updatedAt
            <$> projects (handleEditShotImage_settled pid shotId k newId t1
                            t2 (rejected message) st)
          = Project.updatedAt <$> projects st)).
Proof.
  split; [|split].
  - repeat apply conj.
    + intros shotId v. unfold handleSelectVariation.
      repeat case_match; try apply bumps_refl.
      apply mapProject_bumps. intros p. by right.
    + intros pid shotId k uuid clock results Hne.
      unfold handleGenerateImage_settled.
      destruct (successfulImages results) as [|img imgs]; [done|].
      cbn [finallyThrottle setApiThrottle setIsApiBusy projects].
      rewrite projects_resetWarning.
      apply mapProject_bumps. intros p. by right.
    + intros pid shotId k newId t img. unfold handleEditShotImage_settled.
      cbn [finallyThrottle setApiThrottle setIsApiBusy projects].
      rewrite projects_resetWarning.
      apply mapProject_bumps. intros p. by right.
    + intros id. unfold handleDeleteProject.
      case_match; apply mapProject_bumps; intros p; by right.
    + intros id. apply mapProject_bumps. intros p. by right.
    + unfold handleSaveProjectInfo.
      repeat case_match; try apply bumps_refl.
      apply mapProject_bumps. intros p. by right.
    + intros shotId d. unfold handleUpdateShotDescription.
      repeat case_match; try apply bumps_refl.
      apply mapProject_bumps. intros p. by right.
    + intros shotId v. unfold handleUpdateVisualPrompt.
      repeat case_match; try apply bumps_refl.
      apply mapProject_bumps. intros p. by right.
    + intros shotId new. unfold handleUpdateShotSettings.
      repeat case_match; try apply bumps_refl.
      apply mapProject_bumps. intros p. by right.
  - repeat apply conj.
    + intros newId shotId. unfold handleAddShotAfter.
      repeat case_match; try apply bumps_refl.
      apply mapProject_bumps. intros p. unfold addShotAfter.
      repeat case_match; [by right | by left].
    + unfold handleConfirmDeleteShot.
      repeat case_match; try apply bumps_refl.
      apply mapProject_bumps. intros p. unfold trashShot.
      repeat case_match; [by right | by left].
    + intros shotId. unfold handleRestoreShot.
      repeat case_match; try apply bumps_refl.
      apply mapProject_bumps. intros p. unfold restoreShot.
      repeat case_match; try (by left). by right.
    + intros shotId. unfold handlePermanentlyDeleteShot.
      repeat case_match; try apply bumps_refl.
      apply mapProject_bumps. intros p. by right.
    + unfold handleEmptyTrash.
      repeat case_match; try apply bumps_refl.
      apply mapProject_bumps. intros p. by right.
  - repeat apply conj.
    + intros shotId r c. unfold handleGenerateImage.
      repeat case_match; try reflexivity.
      apply markGenerating_keeps_updatedAt.
    + intros pid shotId k uuid clock t results Hnil.
      unfold handleGenerateImage_settled. rewrite Hnil.
      cbn [finallyThrottle setApiThrottle setIsApiBusy setProjects projects].
      by rewrite markGenerating_keeps_updatedAt, projects_handleApiError.
    + intros shotId instruction. unfold handleEditShotImage.
      repeat case_match; try reflexivity.
      apply markGenerating_keeps_updatedAt.
    + intros pid shotId k newId t1 t2 message.
      unfold handleEditShotImage_settled.
      cbn [finallyThrottle setApiThrottle setIsApiBusy setProjects projects].
      by rewrite markGenerating_keeps_updatedAt, projects_handleApiError.
Qed.

(** The completion of update-description writes no [updatedAt], whether it
    stores the new visual prompt or only clears the flag. *)
Lemma handleUpdateShotDescription_settled_updatedAt pid shotId k result st :
  Project.updatedAt
    <$> projects (handleUpdateShotDescription_settled pid shotId k result st)
  = Project.updatedAt <$> projects st.
Proof.
  unfold handleUpdateShotDescription_settled. destruct result.
  - cbn [finallyThrottle setApiThrottle setIsApiBusy projects].
    rewrite projects_resetWarning. cbn [setProjects projects].
    by rewrite mapProject_keeps_updatedAt.
  - cbn [finallyThrottle setApiThrottle setIsApiBusy setProjects projects].
    rewrite mapProject_keeps_updatedAt by done.
    by rewrite projects_handleApiError.
Qed.

(** ** Generate image *)

Lemma handleApiError_noImage st :
  handleApiError (Some "Không thể tạo được ảnh nào.") st
  = setGlobalError (Some "Không thể tạo được ảnh nào.") st.
Proof. reflexivity. Qed.

(** A handler call that issued requests marked the shot and changed
    nothing else in the project collection. *)
Lemma handleGenerateImage_admitted shotId r c st pid :
  selectedProjectId st = Some pid →
  (handleGenerateImage shotId r c st).2 ≠ [] →
  projects (handleGenerateImage shotId r c st).1
  = markGenerating pid shotId true (projects st)
  ∧ ∃ call, (handleGenerateImage shotId r c st).2 = [call; call].
Proof.
  intros Hsel. unfold handleGenerateImage. rewrite Hsel.
  repeat case_match; simpl; try done. eauto.
Qed.

Lemma markGenerating_lookup pid shotId b ps (i j : nat) p s :
  ps !! i = Some p → Project.id p = pid →
  Project.shots p !! j = Some s → Shot.id s = shotId →
  ∃ p', markGenerating pid shotId b ps !! i = Some p'
        ∧ Project.id p' = pid
        ∧ Project.shots p' !! j = Some (Shot.set_isGeneratingImage b s).
Proof.
  intros Hp Hpid Hs Hsid. eexists. split.
  - unfold markGenerating. by eapply lookup_mapProject_hit.
  - split; [done|]. simpl. by apply lookup_mapShot_hit.
Qed.

(** C6.  A run of generate-image that issued its two requests: when both
    fail, the shot keeps its variations and selection, is no longer marked
    as generating, and an error message is surfaced; when exactly one
    succeeds, exactly one new variation is put in front of the shot's
    variations and is the selected one. *)
Theorem generate_image_outcome (st : AppState) (shotId : string)
    (r c : option string) (pid : string) (uuid : nat → string)
    (clock : nat → Z) (now : Z) (results : list (Settled string))
    (i j : nat) (p : Project.t) (s : Shot.t) :
  selectedProjectId st = Some pid →
  (handleGenerateImage shotId r c st).2 ≠ [] →
  projects st !! i = Some p → Project.id p = pid →
  Project.shots p !! j = Some s → Shot.id s = shotId →
  let st1 := (handleGenerateImage shotId r c st).1 in
  let st2 :=
    handleGenerateImage_settled pid shotId (apiKeyStatus st) uuid clock now
      results st1 in
  ∃ p2 s2,
    projects st2 !! i = Some p2 ∧ Project.shots p2 !! j = Some s2
    ∧ Shot.isGeneratingImage s2 = false
    ∧ (∀ m1 m2, results = [rejected m1; rejected m2] →
         Shot.imageVariations s2 = Shot.imageVariations s
         ∧ Shot.selectedVariationId s2 = Shot.selectedVariationId s
         ∧ globalError st2 = Some "Không thể tạo được ảnh nào.")
    ∧ (∀ img m,
         results = [fulfilled img; rejected m]
         ∨ results = [rejected m; fulfilled img] →
         let newVar := processAndSaveImage (uuid 0) (clock 0) img in
         Shot.imageVariations s2 = newVar :: Shot.imageVariations s
         ∧ Shot.selectedVariationId s2 = Some (ImageAsset.id newVar)).
Proof.
  intros Hsel Hadm Hp Hpid Hs Hsid st1 st2.
  destruct (handleGenerateImage_admitted shotId r c st pid Hsel Hadm)
    as [Hst1 _].
  destruct (markGenerating_lookup pid shotId true (projects st) i j p s
              Hp Hpid Hs Hsid) as (p1 & Hp1 & Hp1id & Hs1).
  fold st1 in Hst1. rewrite <- Hst1 in Hp1.
  subst st2. unfold handleGenerateImage_settled.
  destruct (successfulImages results) as [|img imgs] eqn:Eres.
  - destruct (markGenerating_lookup pid shotId false (projects st1) i j p1
                (Shot.set_isGeneratingImage true s)
                Hp1 Hp1id Hs1 Hsid) as (p2 & Hp2 & _ & Hs2).
    exists p2, (Shot.set_isGeneratingImage false
                  (Shot.set_isGeneratingImage true s)).
    split.
    { cbn [finallyThrottle setApiThrottle setIsApiBusy setProjects projects].
      by rewrite projects_handleApiError. }
    split; [done|]. split; [done|]. split.
    + intros m1 m2 _. split; [done|]. split; [done|].
      by rewrite handleApiError_noImage.
    + intros img m [-> | ->]; discriminate.
  - set (newVariations :=
           imap (λ i b, processAndSaveImage (uuid i) (clock i) b) (img :: imgs)).
    eexists _, (addVariations newVariations (Shot.set_isGeneratingImage true s)).
    split.
    { cbn [finallyThrottle setApiThrottle setIsApiBusy projects].
      rewrite projects_resetWarning. cbn [setProjects projects].
      by apply lookup_mapProject_hit. }
    cbn [Project.shots Project.set_shots Project.set_updatedAt].
    split; [by apply lookup_mapShot_hit|]. split; [done|]. split.
    + intros m1 m2 ->. discriminate.
    + intros img' m Hres.
      assert (img = img' ∧ imgs = []) as [-> ->]
        by (destruct Hres as [-> | ->]; simpl in Eres; by injection Eres).
      done.
Qed.

(** ** Gating and throttle *)

Lemma gated_admitsNothing st :
  isApiBusy st = true ∨ (0 < apiThrottle st)%Z → admitsNothing st.
Proof.
  intros H.
  assert (isApiBusy st || (0 <? apiThrottle st)%Z = true) as Hg.
  { destruct H as [-> | H]; [done|].
    apply Z.ltb_lt in H. rewrite H. apply orb_true_r. }
  assert (shotGate st = true) as Hs.
  { unfold shotGate. rewrite <- orb_assoc, Hg. apply orb_true_r. }
  unfold admitsNothing, handleCreateProject, handleGenerateImage,
    handleEditShotImage, handleUpdateShotDescription,
    handleGetSuggestionsForShot.
  rewrite <- orb_assoc, Hg, Hs, orb_true_r. done.
Qed.

Lemma finallyThrottle_arms st :
  isApiBusy (finallyThrottle st) = false
  ∧ apiThrottle (finallyThrottle st) = 3%Z.
Proof. done. Qed.

Lemma aiCallCompletes_arms st st' :
  aiCallCompletes st st' → isApiBusy st' = false ∧ apiThrottle st' = 3%Z.
Proof.
  intros H. destruct H as [| | | |result]; try apply finallyThrottle_arms.
  destruct result; apply finallyThrottle_arms.
Qed.

(** The throttle counter after [k] firings of its one-second timer. *)
Lemma apiThrottle_ticks (k : nat) st :
  (0 ≤ apiThrottle st)%Z →
  apiThrottle (Nat.iter k throttleTick st)
  = Z.max 0 (apiThrottle st - Z.of_nat k).
Proof.
  intros H0. induction k as [|k IH].
  - simpl. lia.
  - rewrite Nat.iter_succ. unfold throttleTick at 1.
    destruct (0 <? apiThrottle (Nat.iter k throttleTick st))%Z eqn:E.
    + apply Z.ltb_lt in E. cbn [setApiThrottle apiThrottle]. lia.
    + apply Z.ltb_ge in E. lia.
Qed.

(** C7.  Each of the five AI-triggering handlers returns
    without changing the state or issuing a call whenever the busy flag is
    set or the throttle counter is above zero.  When an admitted call has
    completed, with either outcome, the busy flag is cleared and the
    throttle counter is set to 3, so that none of the handlers admits a
    call before the throttle timer has fired three times, after which the
    counter is zero. *)
Theorem ai_calls_gated_and_throttled (st : AppState) :
  (isApiBusy st = true ∨ (0 < apiThrottle st)%Z → admitsNothing st)
  ∧ (∀ st', aiCallCompletes st st' →
       isApiBusy st' = false ∧ apiThrottle st' = 3%Z
       ∧ (∀ k : nat, k < 3 → admitsNothing (Nat.iter k throttleTick st'))
       ∧ apiThrottle (Nat.iter 3 throttleTick st') = 0%Z).
Proof.
  split; [apply gated_admitsNothing|].
  intros st' H. destruct (aiCallCompletes_arms st st' H) as [Hb Ht].
  split; [done|]. split; [done|]. split.
  - intros k Hk. apply gated_admitsNothing. right.
    rewrite apiThrottle_ticks by lia. lia.
  - rewrite apiThrottle_ticks by lia. lia.
Qed.

(** ** Selected variation *)









(** ** Import *)



(** ** Auto-save: further results *)

Lemma changedProjects_sublist prev current :
  changedProjects prev current `sublist_of` current.
Proof.
  destruct prev as [prev|]; simpl; [|done].
  rewrite changedProjects_loop. simpl. apply sublist_filter.
Qed.

Lemma autoSave_calls_sublist (st : AppState) :
  ∃ saved, (autoSave st).2 = saveProject <$> saved
           ∧ saved `sublist_of` projects st.
Proof.
  unfold autoSave, saveTimeout. destruct (projects st) as [|p ps] eqn:E.
  - exists []. done.
  - eexists. split; [reflexivity|]. apply changedProjects_sublist.
Qed.

(** Every [saveProject] of a firing is for a project of the current
    collection, in the order of the collection and, when the project ids
    are distinct, at most once per id, whatever the snapshot; the
    auto-save never issues another kind of call. *)
Theorem autoSave_saves_only_current (st : AppState) :
  ∃ saved, (autoSave st).2 = saveProject <$> saved
           ∧ saved `sublist_of` projects st
           ∧ (NoDup (Project.id <$> projects st) →
              NoDup (Project.id <$> saved)).
Proof.
  destruct (autoSave_calls_sublist st) as (saved & Hs & Hsub).
  exists saved. split; [done|]. split; [done|].
  intros Hnd. eapply sublist_NoDup; [exact Hnd|by apply fmap_sublist].
Qed.

(** After a firing the snapshot is the current collection, and a second
    firing with no change in between persists nothing (project ids
    distinct). *)
Theorem autoSave_second_firing_saves_nothing (st : AppState) :
  NoDup (Project.id <$> projects st) →
  prevProjectsRef (saveTimeout st).1 = Some (projects st)
  ∧ projects (saveTimeout st).1 = projects st
  ∧ (saveTimeout (saveTimeout st).1).2 = [].
Proof.
  intros Hnd. split; [done|]. split; [done|].
  unfold saveTimeout.
  cbn [fst snd prevProjectsRef projects setPrevProjectsRef].
  rewrite changedProjects_filter by done.
  by rewrite filter_dirty_members.
Qed.

(** With distinct ids, the update of the project of a given id is the
    replacement of one element. *)
Lemma mapProject_insert pid f ps (i : nat) p :
  NoDup (Project.id <$> ps) → ps !! i = Some p → Project.id p = pid →
  mapProject pid f ps = <[i := f p]> ps.
Proof.
  intros Hnd Hp Hid. apply list_eq. intros j.
  rewrite lookup_mapProject.
  destruct (decide (j = i)) as [-> | Hne].
  - rewrite Hp, list_lookup_insert_eq by (by eapply lookup_lt_Some).
    simpl. by rewrite decide_True.
  - rewrite list_lookup_insert_ne by done.
    destruct (ps !! j) as [q|] eqn:Eq; [|done]. simpl.
    destruct (decide (Project.id q = pid)) as [Hq|]; [|done].
    exfalso. apply Hne.
    eapply (NoDup_lookup (Project.id <$> ps)); [done| |].
    + by rewrite list_lookup_fmap, Eq.
    + rewrite list_lookup_fmap, Hp. simpl. congruence.
Qed.

(** One project replaced by a version of the same id and another
    [updatedAt]: that version is the only changed project. *)
Lemma changedProjects_replaced S (i : nat) P P' :
  NoDup (Project.id <$> S) → S !! i = Some P →
  Project.id P' = Project.id P →
  Project.updatedAt P' ≠ Project.updatedAt P →
  changedProjects (Some S) (<[i := P']> S) = [P'].
Proof.
  intros Hnd Hi Hid Ht. rewrite changedProjects_filter by done.
  rewrite insert_take_drop by (by eapply lookup_lt_Some).
  rewrite list.filter_app, filter_cons.
  rewrite (filter_dirty_members S (take i S) Hnd (subseteq_take i S)).
  rewrite (filter_dirty_members S (drop (Datatypes.S i) S) Hnd
             (subseteq_drop (Datatypes.S i) S)).
  rewrite decide_True; [done|].
  right. apply list.Exists_exists. exists P.
  split; [by eapply list_elem_of_lookup_2|]. split; congruence.
Qed.

(** The same for a firing of the timer. *)
Lemma autoSave_replaced st S (i : nat) P P' :
  prevProjectsRef st = Some S → projects st = <[i := P']> S →
  NoDup (Project.id <$> S) → S !! i = Some P →
  Project.id P' = Project.id P →
  Project.updatedAt P' ≠ Project.updatedAt P →
  (autoSave st).2 = [saveProject P'].
Proof.
  intros Hprev Hps Hnd Hi Hid Ht. unfold autoSave, saveTimeout.
  rewrite Hprev, Hps.
  destruct (<[i := P']> S) eqn:E.
  - apply (f_equal length) in E. rewrite length_insert in E.
    apply lookup_lt_Some in Hi. simpl in E. lia.
  - rewrite <- E. cbn [snd].
    by rewrite (changedProjects_replaced S i P P').
Qed.

(** A soft-deleted project reaches the store: when the collection was
    saved, a project is moved to the trash at a time other than its
    [updatedAt], and the timer fires, exactly one [saveProject] is issued,
    for that project with [isTrashed] set. *)
Theorem soft_delete_is_persisted (now : Z) (id : string) (st : AppState)
    (i : nat) (p : Project.t) :
  NoDup (Project.id <$> projects st) →
  projects st !! i = Some p → Project.id p = id →
  now ≠ Project.updatedAt p →
  (autoSave (handleDeleteProject now id (saveTimeout st).1)).2
  = [saveProject
       (Project.set_updatedAt now (Project.set_isTrashed (Some true) p))].
Proof.
  intros Hnd Hp Hid Hnow.
  set (f := λ q, Project.set_updatedAt now (Project.set_isTrashed (Some true) q)).
  assert (Hps : projects (handleDeleteProject now id (saveTimeout st).1)
                = <[i := f p]> (projects st)).
  { unfold handleDeleteProject. case_match; simpl;
      by apply mapProject_insert. }
  assert (Hprev : prevProjectsRef (handleDeleteProject now id (saveTimeout st).1)
                  = Some (projects st)).
  { unfold handleDeleteProject. by case_match. }
  by apply (autoSave_replaced _ (projects st) i p (f p)).
Qed.

(** A generated image reaches the store: when the collection was saved and
    a generation that succeeded at least once completes at a time other
    than the project's [updatedAt], the next firing issues exactly one
    [saveProject], for the project that holds the new variations. *)
Theorem generated_image_is_persisted (pid shotId : string)
    (k : ApiKeyStatus) (uuid : nat → string) (clock : nat → Z) (now : Z)
    (results : list (Settled string)) (st : AppState) (i : nat)
    (p : Project.t) :
  NoDup (Project.id <$> projects st) →
  projects st !! i = Some p → Project.id p = pid →
  now ≠ Project.updatedAt p →
  successfulImages results ≠ [] →
  ∃ p',
    (autoSave (handleGenerateImage_settled pid shotId k uuid clock now results
                 (saveTimeout st).1)).2 = [saveProject p']
    ∧ Project.id p' = pid ∧ Project.updatedAt p' = now
    ∧ Project.shots p'
      = mapShot shotId
          (addVariations
             (imap (λ i b, processAndSaveImage (uuid i) (clock i) b)
                (successfulImages results)))
          (Project.shots p).
Proof.
  intros Hnd Hp Hid Hnow Hres.
  destruct (successfulImages results) as [|img imgs] eqn:Eres; [done|].
  set (vs := imap (λ i b, processAndSaveImage (uuid i) (clock i) b) (img :: imgs)).
  set (f := λ q, Project.set_shots
                   (mapShot shotId (addVariations vs) (Project.shots q))
                   (Project.set_updatedAt now q)).
  exists (f p).
  assert (Hps : projects (handleGenerateImage_settled pid shotId k uuid clock
                            now results (saveTimeout st).1)
                = <[i := f p]> (projects st)).
  { unfold handleGenerateImage_settled. rewrite Eres.
    cbn [finallyThrottle setApiThrottle setIsApiBusy projects].
    rewrite projects_resetWarning. cbn [setProjects projects saveTimeout fst
                                         setPrevProjectsRef].
    by apply mapProject_insert. }
  assert (Hprev : prevProjectsRef
                    (handleGenerateImage_settled pid shotId k uuid clock now
                       results (saveTimeout st).1)
                  = Some (projects st)).
  { unfold handleGenerateImage_settled. rewrite Eres. by destruct k. }
  split; [|by rewrite <- Hid].
  by apply (autoSave_replaced _ (projects st) i p (f p)).
Qed.

(** ** Project trash *)

Lemma trashed_partition (ps : list Project.t) :
  ps ≡ₚ filter (λ p, truthy_bool (Project.isTrashed p) = false) ps
        ++ filter (λ p, truthy_bool (Project.isTrashed p) = true) ps.
Proof.
  induction ps as [|p ps IH]; [done|].
  rewrite !filter_cons.
  destruct (truthy_bool (Project.isTrashed p)) eqn:E.
  - rewrite decide_False, decide_True by done.
    rewrite <- Permutation_middle. by constructor.
  - rewrite decide_True, decide_False by done. simpl. by constructor.
Qed.

(** Emptying the project trash splits the collection: the projects in the
    trash are removed and each gets one [deleteProject] call, every other
    project is kept, in order, and the trash is empty afterwards. *)
Theorem empty_project_trash_partitions (st : AppState) :
  (handleEmptyProjectTrash st).2
  = deleteProject <$> (Project.id <$> trashedProjects st)
  ∧ trashedProjects (handleEmptyProjectTrash st).1 = []
  ∧ projects st
    ≡ₚ projects (handleEmptyProjectTrash st).1 ++ trashedProjects st
  ∧ projects (handleEmptyProjectTrash st).1 `sublist_of` projects st
  ∧ length (projects (handleEmptyProjectTrash st).1)
    + length (handleEmptyProjectTrash st).2
    = length (projects st).
Proof.
  unfold handleEmptyProjectTrash, trashedProjects.
  cbn [fst snd setProjects projects].
  split; [done|]. split; [|split; [|split]].
  - induction (projects st) as [|p ps IH]; [done|].
    rewrite filter_cons.
    destruct (truthy_bool (Project.isTrashed p)) eqn:E.
    + by rewrite decide_False by done.
    + rewrite decide_True by done. rewrite filter_cons.
      rewrite decide_False by (by rewrite E). done.
  - apply trashed_partition.
  - apply sublist_filter.
  - rewrite !length_fmap, <- length_app.
    by rewrite <- (trashed_partition (projects st)).
Qed.

(** Deleting a project for good removes every project of that id and
    nothing else, issues one [deleteProject] for the id even when no
    project carries it, and no later firing of the auto-save writes a
    project of that id back. *)
Theorem hard_delete_is_final (id : string) (st : AppState) :
  (handlePermanentlyDeleteProject id st).2 = [deleteProject id]
  ∧ findProject id (projects (handlePermanentlyDeleteProject id st).1) = None
  ∧ (∀ p, p ∈ projects st → Project.id p ≠ id →
          p ∈ projects (handlePermanentlyDeleteProject id st).1)
  ∧ (∀ p, saveProject p ∈ (autoSave (handlePermanentlyDeleteProject id st).1).2 →
          Project.id p ≠ id).
Proof.
  unfold handlePermanentlyDeleteProject. cbn [fst snd].
  split; [done|]. split; [|split].
  - apply findProject_None. cbn [setProjects projects].
    apply list.Forall_forall. intros q Hq.
    by apply list_elem_of_filter in Hq as [? _].
  - intros p Hp Hne. cbn [setProjects projects].
    by apply list_elem_of_filter.
  - intros p Hp.
    destruct (autoSave_calls_sublist
                (setProjects (filter (λ p, Project.id p ≠ id)) st))
      as (saved & Hs & Hsub).
    rewrite Hs in Hp. apply list_elem_of_fmap in Hp as (q & [= ->] & Hq).
    eapply elem_of_sublist in Hq; [|exact Hsub].
    cbn [setProjects projects] in Hq.
    by apply list_elem_of_filter in Hq as [? _].
Qed.

(** Moving a project to the trash changes [isTrashed] and [updatedAt] only
    (its shots, trashed shots, title and idea stay), leaves the selection
    and the view alone unless the project is the selected one, in which
    case the selection is cleared and the dashboard shown; restoring it
    afterwards gives the collection back up to [updatedAt], with
    [isTrashed] false. *)
Theorem soft_delete_restore_project (now1 now2 : Z) (id : string)
    (st : AppState) :
  let st' := handleDeleteProject now1 id st in
  (∀ (i : nat) p, projects st !! i = Some p →
     ∃ p', projects st' !! i = Some p'
           ∧ Project.id p' = Project.id p
           ∧ Project.shots p' = Project.shots p
           ∧ Project.trashedShots p' = Project.trashedShots p
           ∧ Project.title p' = Project.title p
           ∧ Project.idea p' = Project.idea p
           ∧ (Project.id p = id → Project.isTrashed p' = Some true)
           ∧ (Project.id p ≠ id → p' = p))
  ∧ (selectedProjectId st = Some id →
     selectedProjectId st' = None ∧ currentView st' = DASHBOARD)
  ∧ (selectedProjectId st ≠ Some id →
     selectedProjectId st' = selectedProjectId st
     ∧ currentView st' = currentView st)
  ∧ projects (handleRestoreProject now2 id st')
    = mapProject id
        (λ p, Project.set_updatedAt now2 (Project.set_isTrashed (Some false) p))
        (projects st).
Proof.
  intros st'.
  assert (Hps : projects st'
                = mapProject id
                    (λ p, Project.set_updatedAt now1
                            (Project.set_isTrashed (Some true) p))
                    (projects st)).
  { subst st'. unfold handleDeleteProject. by case_match. }
  split; [|split; [|split]].
  - intros i p Hp. rewrite Hps, lookup_mapProject, Hp. simpl.
    eexists. split; [reflexivity|].
    destruct (decide (Project.id p = id)); simpl; repeat split; done.
  - intros Hsel. subst st'. unfold handleDeleteProject.
    by rewrite decide_True.
  - intros Hsel. subst st'. unfold handleDeleteProject.
    by rewrite decide_False.
  - unfold handleRestoreProject. cbn [setProjects projects]. rewrite Hps.
    unfold mapProject. rewrite <- list_fmap_compose.
    apply list_fmap_ext. intros i p _. simpl.
    destruct (decide (Project.id p = id)) as [Hid|Hid]; simpl.
    + by rewrite decide_True.
    + by rewrite decide_False.
Qed.

(** ** Shots: where they go *)

Lemma renumber_ids ss : Shot.id <$> renumber ss = Shot.id <$> ss.
Proof.
  apply list_eq. intros i. unfold renumber.
  rewrite !list_lookup_fmap, list_lookup_imap. by destruct (ss !! i).
Qed.

Lemma lookup_renumber ss (i : nat) :
  renumber ss !! i = Shot.set_shotNumber (Z.of_nat i + 1) <$> ss !! i.
Proof. unfold renumber. by rewrite list_lookup_imap. Qed.

Lemma filter_all {A} (P : A → Prop) `{∀ x, Decision (P x)} (l : list A) :
  Forall P l → filter P l = l.
Proof.
  induction 1 as [|x l Hx _ IH]; [done|].
  by rewrite filter_cons, decide_True, IH.
Qed.

(** With distinct ids, removing the shots of an id removes one element. *)
Lemma filter_id_delete (l : list Shot.t) (j : nat) s :
  NoDup (Shot.id <$> l) → l !! j = Some s →
  filter (λ x, Shot.id x ≠ Shot.id s) l = delete j l.
Proof.
  revert j. induction l as [|y r IH]; intros j Hnd Hj; [done|].
  rewrite fmap_cons in Hnd. apply list.NoDup_cons in Hnd as [Hy Hr].
  destruct j as [|j]; simpl in Hj.
  - injection Hj as ->. rewrite filter_cons, decide_False by (by intros ?).
    simpl. apply filter_all. apply list.Forall_forall. intros x Hx Heq.
    apply Hy. rewrite <- Heq. by apply list_elem_of_fmap_2.
  - rewrite filter_cons, decide_True.
    + simpl. f_equal. by apply IH.
    + intros Heq. apply Hy. rewrite Heq.
      apply list_elem_of_fmap_2. by eapply list_elem_of_lookup_2.
Qed.

Lemma findShot_lookup (l : list Shot.t) (j : nat) s :
  NoDup (Shot.id <$> l) → l !! j = Some s → findShot (Shot.id s) l = Some s.
Proof.
  intros Hnd Hj. unfold findShot.
  destruct (list_find (λ x, Shot.id x = Shot.id s) l) as [[i x]|] eqn:E.
  - apply list_find_Some in E as (Hi & Hx & _). simpl. f_equal.
    assert (i = j) as ->; [|congruence].
    eapply (NoDup_lookup (Shot.id <$> l)); [done| |].
    + by rewrite list_lookup_fmap, Hi.
    + rewrite list_lookup_fmap, Hj. simpl. congruence.
  - apply list_find_None in E. rewrite list.Forall_forall in E.
    destruct (E s); [by eapply list_elem_of_lookup_2 | done].
Qed.

Lemma findShot_None shotId (l : list Shot.t) :
  findShot shotId l = None ↔ Forall (λ s, Shot.id s ≠ shotId) l.
Proof. unfold findShot. rewrite fmap_None. apply list_find_None. Qed.

(** Trashing a shot, in a project whose active shots have distinct ids:
    the shot leaves the active list, the other shots keep their order, the
    shot is appended to the trash with the number it had, and the shots of
    the project are the same as before up to their order. *)
Theorem trash_shot_moves_the_shot (now : Z) (p : Project.t) (j : nat)
    (s : Shot.t) :
  NoDup (Shot.id <$> Project.shots p) →
  Project.shots p !! j = Some s →
  let p' := trashShot now (Shot.id s) p in
  Project.shots p' = renumber (delete j (Project.shots p))
  ∧ Project.trashedShots p'
    = Some (default [] (Project.trashedShots p) ++ [s])
  ∧ shotIds p' ≡ₚ shotIds p
  ∧ Project.id p' = Project.id p ∧ Project.title p' = Project.title p.
Proof.
  intros Hnd Hj p'. subst p'. unfold trashShot.
  rewrite (findShot_lookup _ j s Hnd Hj).
  rewrite (filter_id_delete _ j s Hnd Hj).
  split; [done|]. split; [done|]. split; [|done].
  unfold shotIds.
  cbn [Project.shots Project.trashedShots Project.set_updatedAt
       Project.set_trashedShots Project.set_shots default].
  rewrite !fmap_app, renumber_ids, list_fmap_delete.
  rewrite <- (take_drop_middle (Project.shots p) j s Hj) at 2.
  rewrite delete_take_drop, !fmap_app, fmap_cons, <- !fmap_take, <- !fmap_drop.
  simpl. rewrite fmap_app. simpl.
  rewrite <- !app_assoc. apply Permutation_app_head.
  rewrite (app_assoc _ _ [Shot.id s]), <- Permutation_cons_append.
  done.
Qed.

(** Inserting a shot after the shot of a given id: the new shot stands
    right behind the first shot of that id, with the next number, no
    image, no selection and the default settings; the shots before and
    behind keep their order and everything but their number. *)
Theorem add_shot_after_position (now : Z) (newId previousShotId : string)
    (p : Project.t) (j : nat) (s : Shot.t) :
  Project.shots p !! j = Some s → Shot.id s = previousShotId →
  (∀ (i : nat) x, Project.shots p !! i = Some x → i < j →
                  Shot.id x ≠ previousShotId) →
  let p' := addShotAfter now newId previousShotId p in
  Shot.id <$> Project.shots p'
  = take (S j) (Shot.id <$> Project.shots p)
    ++ newId :: drop (S j) (Shot.id <$> Project.shots p)
  ∧ (∃ new, Project.shots p' !! S j = Some new
            ∧ Shot.id new = newId
            ∧ Shot.shotNumber new = (Z.of_nat j + 2)%Z
            ∧ Shot.imageVariations new = []
            ∧ Shot.selectedVariationId new = None
            ∧ Shot.settings new = defaultSettings)
  ∧ (∀ (i : nat) x, Project.shots p !! i = Some x →
       Project.shots p' !! (if decide (i ≤ j)%nat then i else S i)
       = Some (Shot.set_shotNumber
                 (Z.of_nat (if decide (i ≤ j)%nat then i else S i) + 1) x))
  ∧ Project.trashedShots p' = Project.trashedShots p.
Proof.
  intros Hj Hid Hfirst p'. subst p'. unfold addShotAfter.
  assert (list_find (λ x, Shot.id x = previousShotId) (Project.shots p)
          = Some (j, s)) as ->.
  { apply list_find_Some. split; [done|]. split; [done|].
    intros i x Hi Hlt. by apply (Hfirst i x). }
  cbn [Project.shots Project.trashedShots Project.set_updatedAt
       Project.set_shots].
  replace (j + 1) with (S j) by lia.
  assert (Hlen : length (take (S j) (Project.shots p)) = S j).
  { rewrite length_take. apply lookup_lt_Some in Hj. lia. }
  split; [|split; [|split]].
  - by rewrite renumber_ids, fmap_app, fmap_cons, fmap_take, fmap_drop.
  - eexists. split.
    + rewrite lookup_renumber, lookup_app_r by lia.
      rewrite Hlen, Nat.sub_diag. reflexivity.
    + simpl. repeat split; try done. lia.
  - intros i x Hi. rewrite lookup_renumber.
    destruct (decide (i ≤ j)%nat).
    + rewrite lookup_app_l by lia. by rewrite lookup_take_lt, Hi by lia.
    + rewrite lookup_app_r by lia. rewrite Hlen.
      replace (S i - S j) with (S (i - S j)) by lia. simpl.
      rewrite lookup_drop. replace (S j + (i - S j)) with i by lia.
      by rewrite Hi.
  - done.
Qed.

(** ** Shots: restoring *)

Lemma insertByShotNumber_le x y r :
  (Shot.shotNumber x ≤ Shot.shotNumber y)%Z →
  insertByShotNumber x (y :: r) = x :: y :: r.
Proof. intros H. simpl. by rewrite (proj2 (Z.leb_le _ _) H). Qed.

Lemma insertByShotNumber_gt x y r :
  (Shot.shotNumber y < Shot.shotNumber x)%Z →
  insertByShotNumber x (y :: r) = y :: insertByShotNumber x r.
Proof. intros H. simpl. by rewrite (proj2 (Z.leb_gt _ _) H). Qed.

(** Sorting a list numbered [o+1, o+2, ...] followed by one more shot puts
    that shot behind the shots whose number does not exceed its own. *)
Lemma foldr_insert_numbered (l : list Shot.t) (o : Z) (x : Shot.t) :
  (∀ (i : nat) s, l !! i = Some s →
                  Shot.shotNumber s = (o + Z.of_nat i + 1)%Z) →
  let c := Z.to_nat (Z.min (Z.max 0 (Shot.shotNumber x - o))
                       (Z.of_nat (length l))) in
  foldr insertByShotNumber [x] l = take c l ++ x :: drop c l.
Proof.
  revert o. induction l as [|y r IH]; intros o Hnum c;
    [by rewrite take_nil, drop_nil|].
  assert (Hy : Shot.shotNumber y = (o + 1)%Z).
  { rewrite (Hnum 0 y eq_refl). lia. }
  assert (Hr : ∀ (i : nat) s, r !! i = Some s →
                 Shot.shotNumber s = (o + 1 + Z.of_nat i + 1)%Z).
  { intros i s Hi. rewrite (Hnum (S i) s Hi). lia. }
  simpl foldr. rewrite (IH (o + 1)%Z Hr).
  set (c' := Z.to_nat (Z.min (Z.max 0 (Shot.shotNumber x - (o + 1)))
                         (Z.of_nat (length r)))).
  destruct (Z_le_gt_dec (o + 1) (Shot.shotNumber x)) as [Hle | Hgt].
  - assert (c = S c') as -> by (subst c c'; simpl length; lia).
    clearbody c'. simpl. destruct (take c' r) as [|z t] eqn:Et.
    + simpl. apply insertByShotNumber_le. lia.
    + simpl app. apply insertByShotNumber_le.
      destruct r as [|z' r']; [destruct c'; discriminate|].
      destruct c' as [|c'']; [done|]. simpl in Et. injection Et as -> _.
      rewrite (Hr 0 z eq_refl). lia.
  - assert (c = 0) as -> by (subst c; simpl length; lia).
    assert (c' = 0) as -> by (subst c'; lia).
    rewrite !take_0, !drop_0. cbn [app].
    rewrite insertByShotNumber_gt by lia. f_equal.
    destruct r as [|z r']; [done|].
    apply insertByShotNumber_le. rewrite (Hr 0 z eq_refl). lia.
Qed.

Lemma sortByShotNumber_snoc_numbered (l : list Shot.t) (x : Shot.t) :
  wellNumbered l →
  let c := Z.to_nat (Z.min (Z.max 0 (Shot.shotNumber x))
                       (Z.of_nat (length l))) in
  sortByShotNumber (l ++ [x]) = take c l ++ x :: drop c l.
Proof.
  intros Hw c. unfold sortByShotNumber. rewrite foldr_app. simpl.
  rewrite (foldr_insert_numbered l 0 x).
  - subst c. by rewrite Z.sub_0_r.
  - intros i s Hi. rewrite (Hw i s Hi). lia.
Qed.

(** Restoring a shot into a list numbered 1, 2, ...: the shot goes behind
    the shot that now carries its old number (to the front when that
    number is below 1, to the end when it exceeds the count), the whole
    list is renumbered, and every shot of that id leaves the trash. *)
Theorem restore_shot_position (now : Z) (shotId : string) (p : Project.t)
    (trashed : list Shot.t) (x : Shot.t) :
  wellNumbered (Project.shots p) →
  Project.trashedShots p = Some trashed →
  findShot shotId trashed = Some x →
  let c := Z.to_nat (Z.min (Z.max 0 (Shot.shotNumber x))
                       (Z.of_nat (length (Project.shots p)))) in
  Project.shots (restoreShot now shotId p)
  = renumber (take c (Project.shots p) ++ x :: drop c (Project.shots p))
  ∧ Project.trashedShots (restoreShot now shotId p)
    = Some (filter (λ s, Shot.id s ≠ shotId) trashed).
Proof.
  intros Hw Ht Hx c. unfold restoreShot. rewrite Ht, Hx.
  cbn [Project.shots Project.trashedShots Project.set_updatedAt
       Project.set_trashedShots Project.set_shots].
  by rewrite sortByShotNumber_snoc_numbered.
Qed.

(** ** Shots: trash and restore together *)

Lemma set_shotNumber_same s : Shot.set_shotNumber (Shot.shotNumber s) s = s.
Proof. by destruct s. Qed.

Lemma renumber_numbered l : wellNumbered l → renumber l = l.
Proof.
  intros Hw. apply list_eq. intros i. rewrite lookup_renumber.
  destruct (l !! i) as [s|] eqn:E; [|done]. simpl.
  by rewrite <- (Hw i s E), set_shotNumber_same.
Qed.

Lemma renumber_app_renumber a b : renumber (renumber a ++ b) = renumber (a ++ b).
Proof.
  apply list_eq. intros i. rewrite !lookup_renumber.
  destruct (decide (i < length a)) as [Hlt|Hge].
  - rewrite !lookup_app_l by (by rewrite ?length_renumber).
    rewrite lookup_renumber. by destruct (a !! i).
  - rewrite !lookup_app_r by (rewrite ?length_renumber; lia).
    by rewrite length_renumber.
Qed.

Lemma findShot_snoc shotId (tr : list Shot.t) x :
  Forall (λ s, Shot.id s ≠ shotId) tr → Shot.id x = shotId →
  findShot shotId (tr ++ [x]) = Some x.
Proof.
  intros Htr Hx. unfold findShot.
  induction Htr as [|y tr Hy _ IH]; simpl.
  - by rewrite decide_True.
  - rewrite decide_False by done.
    destruct (list_find _ (tr ++ [x])) as [[i z]|]; [|discriminate].
    simpl in *. congruence.
Qed.

(** The ids of the active shots are distinct and none of them is in the
    trash, when the ids of the project are distinct. *)
Lemma shotIds_split p :
  NoDup (shotIds p) →
  NoDup (Shot.id <$> Project.shots p)
  ∧ NoDup (Shot.id <$> default [] (Project.trashedShots p))
  ∧ ∀ s, s ∈ Project.shots p →
         Forall (λ t, Shot.id t ≠ Shot.id s)
           (default [] (Project.trashedShots p)).
Proof.
  unfold shotIds. rewrite fmap_app. intros Hnd.
  apply list.NoDup_app in Hnd as (H1 & H2 & H3).
  split; [done|]. split; [done|].
  intros s Hs. apply list.Forall_forall. intros t Ht Heq.
  apply (H2 (Shot.id s)); [by apply list_elem_of_fmap_2|].
  rewrite <- Heq. by apply list_elem_of_fmap_2.
Qed.

(** Trashing a shot and restoring it at once, in a project numbered
    1, 2, ... with distinct shot ids: the trash is as before, the other
    shots keep their order, and the shot comes back one place behind the
    place it had - except the last shot, which comes back to its place, so
    that the shot list is the original one. *)
Theorem trash_then_restore (now1 now2 : Z) (p : Project.t) (j : nat)
    (s : Shot.t) :
  wellNumbered (Project.shots p) → NoDup (shotIds p) →
  Project.shots p !! j = Some s →
  let p2 := restoreShot now2 (Shot.id s) (trashShot now1 (Shot.id s) p) in
  let c := Nat.min (S j) (length (Project.shots p) - 1) in
  (Shot.id <$> Project.shots p2) !! c = Some (Shot.id s)
  ∧ delete c (Shot.id <$> Project.shots p2)
    = delete j (Shot.id <$> Project.shots p)
  ∧ wellNumbered (Project.shots p2)
  ∧ Project.trashedShots p2 = Some (default [] (Project.trashedShots p))
  ∧ (S j = length (Project.shots p) → Project.shots p2 = Project.shots p).
Proof.
  intros Hw Hnd Hj p2 c.
  destruct (shotIds_split p Hnd) as (Hl & _ & Hdis).
  pose proof (Hdis s (list_elem_of_lookup_2 _ _ _ Hj)) as Htr.
  pose proof (lookup_lt_Some _ _ _ Hj) as Hlen.
  set (l := Project.shots p) in *.
  set (tr := default [] (Project.trashedShots p)) in *.
  set (l1 := renumber (delete j l)).
  assert (Hp2 : Project.shots p2 = renumber (take c l1 ++ s :: drop c l1)
                ∧ Project.trashedShots p2 = Some tr).
  { subst p2. unfold trashShot. fold l.
    rewrite (findShot_lookup l j s Hl Hj), (filter_id_delete l j s Hl Hj).
    unfold restoreShot.
    cbn [Project.shots Project.trashedShots Project.set_updatedAt
         Project.set_trashedShots Project.set_shots].
    fold tr. rewrite (findShot_snoc (Shot.id s) tr s Htr eq_refl).
    cbn [Project.shots Project.trashedShots Project.set_updatedAt
         Project.set_trashedShots Project.set_shots].
    rewrite (sortByShotNumber_snoc_numbered (renumber (delete j l)) s
               (renumber_wellNumbered _)).
    rewrite length_renumber, length_delete by (by eexists).
    rewrite (Hw j s Hj).
    replace (Z.to_nat (Z.min (Z.max 0 (Z.of_nat j + 1))
                         (Z.of_nat (length l - 1)))) with c
      by (subst c; lia).
    split; [done|]. f_equal.
    rewrite list.filter_app, (filter_all _ tr Htr).
    rewrite filter_cons, decide_False by (by intros ?). by rewrite app_nil_r. }
  destruct Hp2 as [Hs2 Ht2].
  assert (Hl1 : length l1 = length l - 1).
  { subst l1. by rewrite length_renumber, length_delete by (by eexists). }
  assert (Hc : (c ≤ length l1)%nat) by (subst c; lia).
  assert (Hids : Shot.id <$> Project.shots p2
                 = take c (Shot.id <$> l1) ++ Shot.id s :: drop c (Shot.id <$> l1)).
  { by rewrite Hs2, renumber_ids, fmap_app, fmap_cons, fmap_take, fmap_drop. }
  assert (Htk : length (take c (Shot.id <$> l1)) = c).
  { rewrite length_take, length_fmap. lia. }
  split; [|split; [|split; [|split]]].
  - rewrite Hids, lookup_app_r by lia. by rewrite Htk, Nat.sub_diag.
  - rewrite Hids. rewrite <- Htk at 1. rewrite delete_middle, take_drop.
    subst l1. by rewrite renumber_ids, list_fmap_delete.
  - rewrite Hs2. apply renumber_wellNumbered.
  - done.
  - intros Hlast. rewrite Hs2.
    assert (c = length l1) as -> by (subst c; lia).
    rewrite take_ge, drop_ge by lia. subst l1.
    rewrite renumber_app_renumber, delete_take_drop.
    rewrite (drop_ge l (S j)) by lia. rewrite app_nil_r.
    rewrite <- (renumber_numbered l Hw) at 2.
    rewrite <- (take_drop_middle l j s Hj) at 2.
    by rewrite (drop_ge l (S j)) by lia.
Qed.

(** ** Shots: deleting for good *)

Lemma mapProject_mapProject pid f g ps :
  mapProject pid g (mapProject pid f ps)
  = mapProject pid (λ p, if decide (Project.id (f p) = pid) then g (f p) else f p) ps.
Proof.
  unfold mapProject. rewrite <- list_fmap_compose.
  apply list_fmap_ext. intros i p _. simpl.
  destruct (decide (Project.id p = pid)) as [Hp|Hp]; [done|].
  by rewrite decide_False.
Qed.

Lemma mapProject_ext pid f g ps :
  (∀ p, Project.id p = pid → f p = g p) → mapProject pid f ps = mapProject pid g ps.
Proof.
  intros H. unfold mapProject. apply list_fmap_ext. intros i p _.
  destruct (decide (Project.id p = pid)); auto.
Qed.

(** A shot deleted for good, or a trash that was emptied, leaves nothing
    to restore: restoring the shot afterwards changes nothing, not even
    [updatedAt]; and neither deletion touches the active shots. *)
Theorem deleted_shot_cannot_be_restored (now1 now2 : Z) (shotId : string)
    (st : AppState) :
  handleRestoreShot now2 shotId (handlePermanentlyDeleteShot now1 shotId st)
  = handlePermanentlyDeleteShot now1 shotId st
  ∧ handleRestoreShot now2 shotId (handleEmptyTrash now1 st)
    = handleEmptyTrash now1 st
  ∧ Project.shots <$> projects (handlePermanentlyDeleteShot now1 shotId st)
    = Project.shots <$> projects st
  ∧ Project.shots <$> projects (handleEmptyTrash now1 st)
    = Project.shots <$> projects st.
Proof.
  unfold handleRestoreShot, handlePermanentlyDeleteShot, handleEmptyTrash.
  destruct (selectedProjectId st) as [pid|] eqn:Esel;
    [|by rewrite ?Esel].
  destruct (truthy_str (Some pid)) eqn:Etr; [|by rewrite ?Esel, ?Etr].
  cbn [setProjects selectedProjectId projects]. rewrite Esel, Etr.
  unfold setProjects. cbn [projects currentView selectedProjectId
    prevProjectsRef pendingShotDeletionId isEditingProjectInfo editedTitle
    editedIdea ideaInput isApiBusy apiThrottle rateLimitCooldown globalError
    apiKeyStatus].
  split; [|split; [|split]].
  - f_equal. rewrite mapProject_mapProject. apply mapProject_ext.
    intros p Hp. cbn [Project.id Project.set_updatedAt Project.set_trashedShots].
    rewrite decide_True by done. unfold restoreShot.
    cbn [Project.trashedShots Project.set_updatedAt Project.set_trashedShots].
    assert (findShot shotId
              (filter (λ s, Shot.id s ≠ shotId)
                 (default [] (Project.trashedShots p))) = None) as ->; [|done].
    apply findShot_None, list.Forall_forall. intros x Hx.
    by apply list_elem_of_filter in Hx as [? _].
  - f_equal. rewrite mapProject_mapProject. apply mapProject_ext.
    intros p Hp. cbn [Project.id Project.set_updatedAt Project.set_trashedShots].
    by rewrite decide_True by done.
  - unfold mapProject. rewrite <- list_fmap_compose.
    apply list_fmap_ext. intros i p _. simpl.
    by destruct (decide (Project.id p = pid)).
  - unfold mapProject. rewrite <- list_fmap_compose.
    apply list_fmap_ext. intros i p _. simpl.
    by destruct (decide (Project.id p = pid)).
Qed.

(** ** Shots: distinct ids *)

Lemma insertByShotNumber_perm x l : insertByShotNumber x l ≡ₚ x :: l.
Proof.
  induction l as [|y r IH]; simpl; [done|].
  destruct (Shot.shotNumber x <=? Shot.shotNumber y)%Z; [done|].
  rewrite IH. apply perm_swap.
Qed.

Lemma sortByShotNumber_perm l : sortByShotNumber l ≡ₚ l.
Proof.
  induction l as [|x l IH]; simpl; [done|].
  by rewrite insertByShotNumber_perm, IH.
Qed.

Lemma mapProject_Forall (P : Project.t → Prop) pid f ps :
  Forall P ps → (∀ p, p ∈ ps → P p → P (f p)) →
  Forall P (mapProject pid f ps).
Proof.
  intros Hall Hf. apply list.Forall_forall. intros q Hq.
  unfold mapProject in Hq. apply list_elem_of_fmap in Hq as (p & -> & Hp).
  rewrite list.Forall_forall in Hall.
  destruct (decide (Project.id p = pid)); auto.
Qed.

Lemma addShotAfter_shotIds now newId shotId p :
  NoDup (shotIds p) → newId ∉ shotIds p →
  NoDup (shotIds (addShotAfter now newId shotId p)).
Proof.
  intros Hnd Hfresh. unfold addShotAfter.
  destruct (list_find _ (Project.shots p)) as [[j s]|]; [|done].
  unfold shotIds in *.
  cbn [Project.shots Project.trashedShots Project.set_updatedAt
       Project.set_shots].
  rewrite fmap_app, renumber_ids, fmap_app, fmap_cons. cbn [Shot.id].
  rewrite <- app_assoc, <- app_comm_cons, <- Permutation_middle.
  apply NoDup_cons_2.
  - by rewrite app_assoc, <- fmap_app, take_drop, <- fmap_app.
  - by rewrite app_assoc, <- fmap_app, take_drop, <- fmap_app.
Qed.

Lemma trashShot_shotIds now shotId p :
  NoDup (shotIds p) → shotIds (trashShot now shotId p) ≡ₚ shotIds p.
Proof.
  intros Hnd. destruct (shotIds_split p Hnd) as (Hl & _ & _).
  unfold trashShot, findShot.
  destruct (list_find _ (Project.shots p)) as [[j s]|] eqn:E; [|done].
  apply list_find_Some in E as (Hj & <- & _). simpl.
  rewrite (filter_id_delete _ j s Hl Hj). unfold shotIds.
  cbn [Project.shots Project.trashedShots Project.set_updatedAt
       Project.set_trashedShots Project.set_shots default].
  rewrite !fmap_app, renumber_ids. simpl.
  rewrite (delete_Permutation (Project.shots p) j s Hj) at 2.
  rewrite fmap_app, fmap_cons. simpl.
  by rewrite app_assoc, <- Permutation_cons_append.
Qed.

Lemma restoreShot_shotIds now shotId p :
  NoDup (shotIds p) → shotIds (restoreShot now shotId p) ≡ₚ shotIds p.
Proof.
  intros Hnd. destruct (shotIds_split p Hnd) as (_ & Htr & _).
  unfold restoreShot.
  destruct (Project.trashedShots p) as [tr|] eqn:Et; [|done].
  simpl in Htr. unfold findShot.
  destruct (list_find _ tr) as [[k x]|] eqn:E; [|done].
  apply list_find_Some in E as (Hk & <- & _). simpl.
  rewrite (filter_id_delete _ k x Htr Hk). unfold shotIds.
  cbn [Project.shots Project.trashedShots Project.set_updatedAt
       Project.set_trashedShots Project.set_shots default].
  rewrite Et. simpl.
  rewrite !fmap_app, renumber_ids, sortByShotNumber_perm, fmap_app. simpl.
  rewrite (delete_Permutation tr k x Hk) at 2.
  rewrite fmap_cons, <- app_assoc. done.
Qed.

(** A project in which every shot id occurs once, among the active and the
    trashed shots together, stays so when a shot with a new id is inserted
    and when a shot is trashed, restored or deleted for good or the trash
    is emptied; trashing and restoring keep the very same ids. *)
Theorem shot_ids_stay_distinct (now : Z) (newId shotId : string)
    (st : AppState) :
  Forall (λ p, NoDup (shotIds p)) (projects st) →
  (Forall (λ p, newId ∉ shotIds p) (projects st) →
   Forall (λ p, NoDup (shotIds p))
     (projects (handleAddShotAfter now newId shotId st)))
  ∧ Forall (λ p, NoDup (shotIds p)) (projects (handleConfirmDeleteShot now st))
  ∧ Forall (λ p, NoDup (shotIds p))
      (projects (handleRestoreShot now shotId st))
  ∧ Forall (λ p, NoDup (shotIds p))
      (projects (handlePermanentlyDeleteShot now shotId st))
  ∧ Forall (λ p, NoDup (shotIds p)) (projects (handleEmptyTrash now st)).
Proof.
  intros Hall. split; [|split; [|split; [|split]]].
  - intros Hfresh. unfold handleAddShotAfter. repeat case_match; try done.
    cbn [setProjects projects]. apply mapProject_Forall; [done|].
    intros p Hp Hnd. apply addShotAfter_shotIds; [done|].
    rewrite list.Forall_forall in Hfresh. by apply Hfresh.
  - unfold handleConfirmDeleteShot. repeat case_match; try done.
    cbn [setPendingShotDeletionId setProjects projects].
    apply mapProject_Forall; [done|].
    intros p Hp Hnd. by rewrite trashShot_shotIds.
  - unfold handleRestoreShot. repeat case_match; try done.
    cbn [setProjects projects]. apply mapProject_Forall; [done|].
    intros p Hp Hnd. by rewrite restoreShot_shotIds.
  - unfold handlePermanentlyDeleteShot. repeat case_match; try done.
    cbn [setProjects projects]. apply mapProject_Forall; [done|].
    intros p Hp Hnd. eapply sublist_NoDup; [exact Hnd|].
    unfold shotIds. apply fmap_sublist.
    cbn [Project.shots Project.trashedShots Project.set_updatedAt
         Project.set_trashedShots default].
    apply sublist_app; [done|]. apply sublist_filter.
  - unfold handleEmptyTrash. repeat case_match; try done.
    cbn [setProjects projects]. apply mapProject_Forall; [done|].
    intros p Hp Hnd. eapply sublist_NoDup; [exact Hnd|].
    unfold shotIds. apply fmap_sublist.
    cbn [Project.shots Project.trashedShots Project.set_updatedAt
         Project.set_trashedShots default].
    apply sublist_app; [done|]. apply sublist_nil_l.
Qed.

(** ** Edit image, description update, create project *)

Lemma findVariation_Some vid vs v :
  findVariation vid vs = Some v → v ∈ vs ∧ ImageAsset.id v = vid.
Proof.
  unfold findVariation. intros H.
  destruct (list_find _ vs) as [[i x]|] eqn:E; [|discriminate].
  injection H as <-. apply list_find_Some in E as (Hl & Hx & _).
  split; [by eapply list_elem_of_lookup_2 | done].
Qed.


(** When the edit request settles: on success the shot has exactly one
    more variation, in front, and it is the selected one; on failure the
    variations and the selection are as they were; in both cases the shot
    is no longer marked as generating, the busy flag is cleared and the
    throttle is armed. *)
Theorem edit_image_outcome (pid shotId : string) (k : ApiKeyStatus)
    (newId : string) (t1 t2 : Z) (result : Settled string) (st : AppState)
    (i j : nat) (p : Project.t) (s : Shot.t) :
  projects st !! i = Some p → Project.id p = pid →
  Project.shots p !! j = Some s → Shot.id s = shotId →
  let st' := handleEditShotImage_settled pid shotId k newId t1 t2 result st in
  ∃ p' s',
    projects st' !! i = Some p' ∧ Project.shots p' !! j = Some s'
    ∧ Shot.isGeneratingImage s' = false
    ∧ isApiBusy st' = false ∧ apiThrottle st' = 3%Z
    ∧ (∀ img, result = fulfilled img →
         Shot.imageVariations s'
         = processAndSaveImage newId t1 img :: Shot.imageVariations s
         ∧ Shot.selectedVariationId s' = Some newId
         ∧ Project.updatedAt p' = t2)
    ∧ (∀ m, result = rejected m →
         Shot.imageVariations s' = Shot.imageVariations s
         ∧ Shot.selectedVariationId s' = Shot.selectedVariationId s
         ∧ Project.updatedAt p' = Project.updatedAt p).
Proof.
  intros Hp Hpid Hs Hsid st'. subst st'. unfold handleEditShotImage_settled.
  destruct result as [img|m].
  - eexists _, _. split.
    { cbn [finallyThrottle setApiThrottle setIsApiBusy projects].
      rewrite projects_resetWarning. cbn [setProjects projects].
      by apply lookup_mapProject_hit. }
    cbn [Project.shots Project.set_shots Project.set_updatedAt].
    split; [by apply lookup_mapShot_hit|].
    split; [done|]. split; [done|]. split; [done|]. split.
    + intros img' [= <-]. done.
    + intros m' [=].
  - destruct (markGenerating_lookup pid shotId false (projects st) i j p s
                Hp Hpid Hs Hsid) as (p' & Hp' & _ & Hs').
    exists p', (Shot.set_isGeneratingImage false s). split.
    { cbn [finallyThrottle setApiThrottle setIsApiBusy setProjects projects].
      by rewrite projects_handleApiError. }
    split; [done|]. split; [done|]. split; [done|]. split; [done|]. split.
    + intros img [=].
    + intros m' _. split; [done|]. split; [done|].
      unfold markGenerating in Hp'.
      rewrite (lookup_mapProject_hit _ _ _ _ _ Hp Hpid) in Hp'.
      by injection Hp' as <-.
Qed.

(** Updating a description is optimistic: an admitted call stores the new
    description at once and asks for a new prompt; when the request
    settles the description is still the new one and the updating flag is
    cleared, the visual prompt being the regenerated one on success and
    the old one on failure; the images are not touched. *)
Theorem description_edit_is_optimistic (now : Z)
    (shotId newDescription pid : string) (result : Settled string)
    (st : AppState) (i j : nat) (p : Project.t) (s : Shot.t) :
  selectedProjectId st = Some pid → pid ≠ "" →
  isApiBusy st = false → (apiThrottle st ≤ 0)%Z →
  projects st !! i = Some p → Project.id p = pid →
  Project.shots p !! j = Some s → Shot.id s = shotId →
  let started := handleUpdateShotDescription now shotId newDescription st in
  let st2 :=
    handleUpdateShotDescription_settled pid shotId (apiKeyStatus st) result
      started.1 in
  started.2 = [regenerateVisualPrompt newDescription]
  ∧ ∃ p2 s2,
      projects st2 !! i = Some p2 ∧ Project.shots p2 !! j = Some s2
      ∧ Shot.description s2 = newDescription
      ∧ Shot.isUpdatingPrompt s2 = false
      ∧ Shot.imageVariations s2 = Shot.imageVariations s
      ∧ Shot.selectedVariationId s2 = Shot.selectedVariationId s
      ∧ (∀ v, result = fulfilled v → Shot.visualPrompt s2 = v)
      ∧ (∀ m, result = rejected m →
              Shot.visualPrompt s2 = Shot.visualPrompt s).
Proof.
  intros Hsel Hne Hbusy Hthr Hp Hpid Hs Hsid started st2.
  assert (Hgate : shotGate st = false).
  { unfold shotGate. rewrite Hsel, (truthy_str_Some _ Hne), Hbusy. simpl.
    by apply Z.ltb_ge. }
  assert (Hst : started
                = (setProjects
                     (mapProject pid
                        (λ p, Project.set_updatedAt now
                                (Project.set_shots
                                   (mapShot shotId
                                      (λ s, Shot.set_isUpdatingPrompt true
                                              (Shot.set_description
                                                 newDescription s))
                                      (Project.shots p))
                                   p)))
                     (setIsApiBusy true (setGlobalError None st)),
                   [regenerateVisualPrompt newDescription])).
  { subst started. unfold handleUpdateShotDescription.
    by rewrite Hgate, Hsel. }
  split; [by rewrite Hst|].
  subst st2. rewrite Hst. cbn [fst].
  unfold handleUpdateShotDescription_settled. destruct result as [v|m].
  - eexists _, _. split.
    { cbn [finallyThrottle setApiThrottle setIsApiBusy projects].
      rewrite projects_resetWarning. cbn [setProjects projects setIsApiBusy
                                           setGlobalError].
      eapply lookup_mapProject_hit;
        [by apply lookup_mapProject_hit | exact Hpid]. }
    cbn [Project.shots Project.set_shots Project.set_updatedAt].
    split.
    { eapply lookup_mapShot_hit;
        [by apply lookup_mapShot_hit | exact Hsid]. }
    split; [done|]. split; [done|]. split; [done|]. split; [done|]. split.
    + by intros v' [= <-].
    + intros m [=].
  - eexists _, _. split.
    { cbn [finallyThrottle setApiThrottle setIsApiBusy setProjects projects].
      rewrite projects_handleApiError.
      cbn [setProjects projects setIsApiBusy setGlobalError].
      eapply lookup_mapProject_hit;
        [by apply lookup_mapProject_hit | exact Hpid]. }
    cbn [Project.shots Project.set_shots Project.set_updatedAt].
    split.
    { eapply lookup_mapShot_hit;
        [by apply lookup_mapShot_hit | exact Hsid]. }
    split; [done|]. split; [done|]. split; [done|]. split; [done|]. split.
    + intros v [=].
    + by intros m' _.
Qed.

(** ** Create project *)

Lemma length_substring_0 (n : nat) (s : string) :
  String.length (substring 0 n s) = Nat.min n (String.length s).
Proof.
  revert s. induction n as [|n IH]; intros s; destruct s; simpl; auto.
Qed.

Lemma substring_0_all (n : nat) (s : string) :
  (String.length s ≤ n)%nat → substring 0 n s = s.
Proof.
  revert s. induction n as [|n IH]; intros s Hs; destruct s; simpl in *;
    try done; [lia|].
  f_equal. apply IH. lia.
Qed.

Lemma length_string_app (a b : string) :
  String.length (a ++ b)%string = String.length a + String.length b.
Proof.
  induction a as [|c a IH]; [done|].
  change (String c a ++ b)%string with (String c (a ++ b)%string).
  simpl. by rewrite IH.
Qed.

Lemma string_app_empty_r (a : string) : (a ++ "")%string = a.
Proof.
  induction a as [|c a IH]; [done|].
  change (String c a ++ "")%string with (String c (a ++ "")%string).
  by rewrite IH.
Qed.

(** Create-project does nothing on an input that is empty or holds ASCII
    white space only.  When the breakdown arrives, the new project stands
    first in the collection and is the one on display, with one shot per
    element of the breakdown, each carrying the breakdown's number and
    texts, no image, no selection and the default settings; for an idea of
    ASCII characters its title is the idea itself when that has at most 30
    characters, and its first 30 characters followed by three dots when it
    has more; the input field is emptied.
    When the breakdown fails, the collection, the selection, the view and
    the typed idea are kept. *)
Theorem create_project_outcome (idea : string) (k : ApiKeyStatus)
    (uuid : nat → string) (projectId : string) (t1 t2 : Z)
    (result : Settled (list ShotData)) (st : AppState) :
  let st' := handleCreateProject_settled idea k uuid projectId t1 t2 result st in
  (isBlank (ideaInput st) = true → handleCreateProject st = (st, []))
  ∧ (∀ shotsData, result = fulfilled shotsData →
       ∃ np, projects st' = np :: projects st
             ∧ currentProject st' = Some np
             ∧ currentView st' = PROJECT_DETAIL
             ∧ ideaInput st' = ""
             ∧ Project.id np = projectId ∧ Project.idea np = idea
             ∧ Project.trashedShots np = Some []
             ∧ Project.isTrashed np = Some false
             ∧ (allChars isAsciiChar idea = true →
                (String.length idea ≤ 30)%nat → Project.title np = idea)
             ∧ (allChars isAsciiChar idea = true →
                (30 < String.length idea)%nat →
                ∃ head rest,
                  idea = (head ++ rest)%string
                  ∧ String.length head = 30
                  ∧ Project.title np = (head ++ "...")%string)
             ∧ length (Project.shots np) = length shotsData
             ∧ (∀ (i : nat) d, shotsData !! i = Some d →
                  ∃ s, Project.shots np !! i = Some s
                       ∧ Shot.id s = uuid i
                       ∧ Shot.shotNumber s = sd_shotNumber d
                       ∧ Shot.description s = sd_description d
                       ∧ Shot.visualPrompt s = sd_visualPrompt d
                       ∧ Shot.imageVariations s = []
                       ∧ Shot.selectedVariationId s = None
                       ∧ Shot.settings s = defaultSettings))
  ∧ (∀ m, result = rejected m →
       projects st' = projects st
       ∧ selectedProjectId st' = selectedProjectId st
       ∧ currentView st' = currentView st
       ∧ ideaInput st' = ideaInput st).
Proof.
  intros st'. split; [|split].
  - intros Hb. unfold handleCreateProject. by rewrite Hb.
  - intros shotsData ->. subst st'. unfold handleCreateProject_settled.
    eexists. split.
    { cbn [finallyThrottle setApiThrottle setIsApiBusy projects].
      rewrite projects_resetWarning. reflexivity. }
    split.
    { unfold currentProject. destruct k; simpl;
        unfold findProject; simpl; by rewrite decide_True. }
    split; [by destruct k|]. split; [by destruct k|].
    cbn [Project.id Project.idea Project.trashedShots Project.isTrashed
         Project.title Project.shots].
    split; [done|]. split; [done|]. split; [done|]. split; [done|]. split.
    { intros _ Hlen. rewrite substring_0_all by done.
      rewrite (proj2 (Nat.ltb_ge _ _) Hlen). apply string_app_empty_r. }
    split.
    { intros _ Hlen.
      exists (substring 0 30 idea),
        (substring 30 (String.length idea - 30) idea).
      split; [apply substring_split; lia|].
      split; [rewrite length_substring_0; lia|].
      by rewrite (proj2 (Nat.ltb_lt _ _) Hlen). }
    split; [apply length_imap|].
    intros i d Hd. eexists. split.
    { unfold newShotsOf. by rewrite list_lookup_imap, Hd. }
    done.
  - intros m ->. subst st'. unfold handleCreateProject_settled.
    cbn [finallyThrottle setApiThrottle setIsApiBusy projects
         selectedProjectId currentView ideaInput].
    unfold handleApiError. repeat case_match; done.
Qed.

(** ** Error classification and cool-down *)

Lemma length_toUpperCase s : String.length (toUpperCase s) = String.length s.
Proof. induction s as [|c s IH]; simpl; [done|]. by rewrite IH. Qed.

Lemma toUpperCase_substring (m n : nat) s :
  substring m n (toUpperCase s) = toUpperCase (substring m n s).
Proof.
  revert m n. induction s as [|c s IH]; intros m n.
  - destruct m, n; done.
  - destruct m as [|m]; [destruct n as [|n]|]; simpl; [done| |apply IH].
    by rewrite IH.
Qed.

Lemma includes_elim s pat :
  includes s pat = true → ∃ m, substring m (String.length pat) s = pat.
Proof.
  unfold includes. destruct (index 0 pat s) as [m|] eqn:E; [|discriminate].
  intros _. exists m. by eapply index_correct1.
Qed.

Lemma includes_intro s pat (m : nat) :
  pat ≠ "" → substring m (String.length pat) s = pat → includes s pat = true.
Proof.
  intros Hne Hsub. unfold includes.
  destruct (index 0 pat s) as [k|] eqn:E; [done|].
  exfalso. by apply (index_correct3 0 m pat s E Hne); [lia|].
Qed.

Lemma toUpperCase_nonempty w : w ≠ "" → toUpperCase w ≠ "".
Proof. by destruct w. Qed.

(** The search is blind to the case of ASCII letters. *)
Lemma includes_toUpperCase m w :
  includes m w = true → w ≠ "" →
  includes (toUpperCase m) (toUpperCase w) = true.
Proof.
  intros H Hne. apply includes_elim in H as [k Hk].
  apply (includes_intro _ _ k); [by apply toUpperCase_nonempty|].
  by rewrite length_toUpperCase, toUpperCase_substring, Hk.
Qed.

Lemma includes_empty_false w : w ≠ "" → includes "" w = false.
Proof. by destruct w. Qed.

Lemma rateLimitCooldown_ticks (k : nat) st :
  (0 ≤ rateLimitCooldown st)%Z →
  rateLimitCooldown (Nat.iter k cooldownTick st)
  = Z.max 0 (rateLimitCooldown st - Z.of_nat k).
Proof.
  intros H0. induction k as [|k IH].
  - simpl. lia.
  - rewrite Nat.iter_succ. unfold cooldownTick at 1.
    destruct (0 <? rateLimitCooldown (Nat.iter k cooldownTick st))%Z eqn:E.
    + apply Z.ltb_lt in E. cbn [setRateLimitCooldown rateLimitCooldown]. lia.
    + apply Z.ltb_ge in E. lia.
Qed.

(** The three shapes of [handleApiError] on a message [m] that is not
    empty. *)
Lemma handleApiError_message m st :
  m ≠ "" →
  handleApiError (Some m) st
  = if includes (toUpperCase m) "429"
       || includes (toUpperCase m) "RESOURCE_EXHAUSTED"
       || includes (toUpperCase m) "RATE LIMIT"
    then setGlobalError None
           (setApiKeyStatus warning (setRateLimitCooldown 60 st))
    else if includes (toUpperCase m) "PERMISSION_DENIED"
            || includes (toUpperCase m) "API_KEY"
            || includes (toUpperCase m) "403"
    then setGlobalError (Some m) (setApiKeyStatus error st)
    else setGlobalError (Some m) st.
Proof.
  intros Hne. unfold handleApiError. by rewrite (truthy_str_Some m Hne).
Qed.

(** How a failure is classified.  The classification changes neither the
    projects nor the busy flag nor the throttle.  A message that contains
    "429", "resource_exhausted" or "rate limit" in any letter case is a
    rate limit, whatever else it contains: the cool-down is set to 60, the
    key status to warning, no error text is shown, and the cool-down then
    counts down by one per tick, to zero after 60 ticks, never below.  An
    ASCII message that is no rate limit and contains "permission_denied",
    "api_key" or "403" in any letter case sets the key status to error and
    shows the message.  A missing or empty message shows the fallback text
    and changes nothing else. *)
Theorem api_error_classification (message : option string) (st : AppState) :
  let st' := handleApiError message st in
  (projects st' = projects st ∧ isApiBusy st' = isApiBusy st
   ∧ apiThrottle st' = apiThrottle st)
  ∧ (∀ m w, message = Some m → includes m w = true →
       toUpperCase w = "429" ∨ toUpperCase w = "RESOURCE_EXHAUSTED"
       ∨ toUpperCase w = "RATE LIMIT" →
       rateLimitCooldown st' = 60%Z ∧ apiKeyStatus st' = warning
       ∧ globalError st' = None
       ∧ ∀ k : nat,
           rateLimitCooldown (Nat.iter k cooldownTick st')
           = Z.max 0 (60 - Z.of_nat k))
  ∧ (∀ m w, message = Some m → includes m w = true →
       toUpperCase w = "PERMISSION_DENIED" ∨ toUpperCase w = "API_KEY"
       ∨ toUpperCase w = "403" →
       allChars isAsciiChar m = true →
       includes (toUpperCase m) "429" = false →
       includes (toUpperCase m) "RESOURCE_EXHAUSTED" = false →
       includes (toUpperCase m) "RATE LIMIT" = false →
       apiKeyStatus st' = error ∧ globalError st' = Some m
       ∧ rateLimitCooldown st' = rateLimitCooldown st)
  ∧ (message = None ∨ message = Some "" →
     globalError st' = Some "Lỗi không xác định."
     ∧ apiKeyStatus st' = apiKeyStatus st
     ∧ rateLimitCooldown st' = rateLimitCooldown st).
Proof.
  intros st'. subst st'.
  assert (Hw : ∀ m w, includes m w = true →
                 toUpperCase w ≠ "" →
                 m ≠ "" ∧ includes (toUpperCase m) (toUpperCase w) = true).
  { intros m w Hin Hup.
    assert (w ≠ "") as Hne by (intros ->; by apply Hup).
    split; [|by apply includes_toUpperCase].
    intros ->. by rewrite includes_empty_false in Hin. }
  split; [|split; [|split]].
  - unfold handleApiError. repeat case_match; done.
  - intros m w -> Hin Hpat.
    destruct (Hw m w Hin) as [Hne Hup];
      [by destruct Hpat as [-> | [-> | ->]]|].
    rewrite (handleApiError_message m st Hne).
    assert (includes (toUpperCase m) "429"
            || includes (toUpperCase m) "RESOURCE_EXHAUSTED"
            || includes (toUpperCase m) "RATE LIMIT" = true) as ->.
    { destruct Hpat as [E | [E | E]]; rewrite E in Hup; rewrite Hup;
        by rewrite ?orb_true_r. }
    split; [done|]. split; [done|]. split; [done|].
    intros k. by rewrite rateLimitCooldown_ticks.
  - intros m w -> Hin Hpat _ H1 H2 H3.
    destruct (Hw m w Hin) as [Hne Hup];
      [by destruct Hpat as [-> | [-> | ->]]|].
    rewrite (handleApiError_message m st Hne), H1, H2, H3.
    assert (includes (toUpperCase m) "PERMISSION_DENIED"
            || includes (toUpperCase m) "API_KEY"
            || includes (toUpperCase m) "403" = true) as ->.
    { destruct Hpat as [E | [E | E]]; rewrite E in Hup; rewrite Hup;
        by rewrite ?orb_true_r. }
    done.
  - intros [-> | ->]; done.
Qed.

(** ** Migration: running it again, and round trips *)

Lemma truthy_or_str_comm a b :
  truthy_str (or_str a b) = truthy_str (or_str b a).
Proof. rewrite !truthy_or_str. apply orb_comm. Qed.

Lemma ensureSettings_shotType o :
  ShotSettings.shotType (ensureSettings o) ≠ "".
Proof.
  destruct o as [[cm ty ar art li]|]; [|done]. simpl.
  destruct ty as [t|]; [|done].
  destruct (String.eqb_spec t ""); done.
Qed.

Lemma import_of_stored newId now s :
  noDeprecatedUrls s → ShotSettings.shotType (Shot.settings s) ≠ "" →
  handleImportJson_migrateShot newId now (Shot.stored s) = s.
Proof.
  intros (Hu & Ho & Hp) Hty. unfold handleImportJson_migrateShot. simpl.
  rewrite Hu, Ho. simpl.
  destruct s as [? ? ? ? ? ? ? ? ? ? ? ? ? [cm ty ar art li]].
  simpl in *. subst.
  unfold ensureSettings. simpl.
  destruct (String.eqb_spec ty ""); [contradiction | done].
Qed.

(** Migrating twice is migrating once: a second run of either migration,
    with whatever new id and time, returns the shot the first run
    produced, and the import migration applied to the result of the
    first-run migration gives what it gives on the stored shot itself. *)
Theorem migration_is_idempotent (id1 id2 : string) (t1 t2 : Z)
    (s : StoredShot.t) :
  initializeData_migrateShot id2 t2 (initializeData_migrateShot id1 t1 s)
  = initializeData_migrateShot id1 t1 s
  ∧ handleImportJson_migrateShot id2 t2
      (Shot.stored (handleImportJson_migrateShot id1 t1 s))
    = handleImportJson_migrateShot id1 t1 s
  ∧ handleImportJson_migrateShot id2 t2 (initializeData_migrateShot id1 t1 s)
    = handleImportJson_migrateShot id1 t1 s.
Proof.
  split; [|split].
  - unfold initializeData_migrateShot at 1. simpl. reflexivity.
  - apply import_of_stored; [done|]. apply ensureSettings_shotType.
  - unfold handleImportJson_migrateShot at 1. simpl.
    unfold handleImportJson_migrateShot.
    by rewrite (truthy_or_str_comm (StoredShot.imageUrl s)).
Qed.

(** Export then import: with a project on display whose id is not empty
    and whose shots carry no deprecated URL property and a shot type, the
    export yields a file, and importing that file puts in front of the
    collection a copy of the project that differs from it only by the new
    id and by " (Imported)" at the end of the title - shots, trash, time
    stamps and trash flag included. *)
Theorem export_import_round_trip (uuid : nat → string) (clock : nat → Z)
    (newId : string) (st st0 : AppState) (p : Project.t) :
  currentProject st0 = Some p →
  Project.id p ≠ "" →
  Forall (λ s, noDeprecatedUrls s
               ∧ ShotSettings.shotType (Shot.settings s) ≠ "")
    (Project.shots p) →
  ∃ name file,
    handleExportJson st0 = Some (name, file)
    ∧ projects (handleImportJson uuid clock newId (Some file) st)
      = Project.mk newId (Project.title p ++ " (Imported)")%string
          (Project.idea p) (Project.shots p) (Project.trashedShots p)
          (Project.createdAt p) (Project.updatedAt p) (Project.isTrashed p)
        :: projects st.
Proof.
  intros Hcur Hid Hshots. unfold handleExportJson. rewrite Hcur.
  eexists _, _. split; [reflexivity|].
  unfold handleImportJson, exportedProject.
  cbn [sp_shots sp_id sp_title sp_idea sp_trashedShots sp_createdAt
       sp_updatedAt sp_isTrashed].
  rewrite (truthy_str_Some _ Hid).
  cbn [setGlobalError setProjects projects default]. f_equal. f_equal.
  apply list_eq. intros i. rewrite list_lookup_imap, list_lookup_fmap.
  destruct (Project.shots p !! i) as [s|] eqn:E; [|done]. simpl. f_equal.
  rewrite list.Forall_forall in Hshots.
  destruct (Hshots s (list_elem_of_lookup_2 _ _ _ E)) as [Hd Hty].
  by apply import_of_stored.
Qed.

Lemma initializeData_migrate_None uuid clock parsed :
  initializeData_migrate uuid clock parsed = None
  ↔ ∃ p, p ∈ parsed ∧ sp_shots p = None.
Proof.
  unfold initializeData_migrate.
  rewrite mapM_None, list.Exists_exists. split.
  - intros ([j p] & Hin & Hnone). exists p. split.
    + apply list_elem_of_lookup in Hin as [i Hi].
      rewrite list_lookup_imap in Hi.
      destruct (parsed !! i) eqn:E; [|discriminate].
      injection Hi as _ <-. by eapply list_elem_of_lookup_2.
    + simpl in Hnone. by destruct (sp_shots p).
  - intros (p & Hin & Hnone).
    apply list_elem_of_lookup in Hin as [i Hi].
    exists (i, p). split.
    + apply list_elem_of_lookup. exists i.
      by rewrite list_lookup_imap, Hi.
    + simpl. by rewrite Hnone.
Qed.

Lemma initializeData_migrate_Some uuid clock parsed migrated :
  initializeData_migrate uuid clock parsed = Some migrated →
  length migrated = length parsed
  ∧ ∀ (j : nat) p, parsed !! j = Some p →
      ∃ ss, sp_shots p = Some ss
            ∧ migrated !! j
              = Some (mkStoredProject (sp_id p) (sp_title p) (sp_idea p)
                        (Some (imap (λ i s,
                                 initializeData_migrateShot (uuid j i)
                                   (clock j i) s) ss))
                        (sp_trashedShots p) (sp_createdAt p)
                        (sp_updatedAt p) (sp_isTrashed p)).
Proof.
  unfold initializeData_migrate. intros Hm. apply mapM_Some_1 in Hm.
  split.
  - apply Forall2_length in Hm. by rewrite length_imap in Hm.
  - intros j p Hj.
    assert (imap (λ j p, (j, p)) parsed !! j = Some (j, p)) as Hjp
      by (by rewrite list_lookup_imap, Hj).
    destruct (Forall2_lookup_l _ _ _ _ _ Hm Hjp) as (q & Hq & Hf).
    simpl in Hf. destruct (sp_shots p) as [ss|]; [|discriminate].
    exists ss. split; [done|]. by injection Hf as <-.
Qed.

Lemma initializeData_migrate_all_shots uuid clock parsed :
  Forall (λ p, sp_shots p ≠ None) parsed
  ↔ ∃ migrated, initializeData_migrate uuid clock parsed = Some migrated.
Proof.
  destruct (initializeData_migrate uuid clock parsed) as [migrated|] eqn:E.
  - split; [by eexists|]. intros _. apply list.Forall_forall. intros p Hp Hn.
    assert (initializeData_migrate uuid clock parsed = None) as E'
      by (apply initializeData_migrate_None; by exists p).
    congruence.
  - split; [|by intros [? ?]]. intros Hall.
    apply initializeData_migrate_None in E as (p & Hp & Hn).
    rewrite list.Forall_forall in Hall. by destruct (Hall p Hp).
Qed.

(** The first run is all or nothing for the legacy store.  The legacy
    entry is removed exactly when it was read, is not empty and parses,
    every stored project has shots and the gateway accepted the save; what
    is handed to the gateway is then one project per stored project, in
    order, each with its id, title, idea, trashed shots and time stamps as
    stored and with every shot migrated, and never a part of them.  A
    migration that fails does not stop the load: unless reading the legacy
    entry itself throws, the projects of the gateway are requested last
    and shown, or the error text is set when that request fails. *)
Theorem first_run_migration_all_or_nothing (uuid : nat → nat → string)
    (clock : nat → nat → Z)
    (JSON_parse : string → option (list StoredProject))
    (localData : Settled (option string)) (saved : Settled unit)
    (dbProjects : Settled (list Project.t)) (st : AppState) :
  let r := initializeData uuid clock JSON_parse localData saved dbProjects
             st in
  (localStorage_removeItem ∈ r.2
   ↔ ∃ data parsed,
       localData = fulfilled (Some data) ∧ data ≠ ""
       ∧ JSON_parse data = Some parsed
       ∧ Forall (λ p, sp_shots p ≠ None) parsed
       ∧ ∃ u, saved = fulfilled u)
  ∧ (∀ ps, gateway (saveAllProjects ps) ∈ r.2 →
       ∃ data parsed,
         localData = fulfilled (Some data) ∧ data ≠ ""
         ∧ JSON_parse data = Some parsed
         ∧ length ps = length parsed
         ∧ ∀ (j : nat) p, parsed !! j = Some p →
             ∃ ss, sp_shots p = Some ss
                   ∧ ps !! j
                     = Some (mkStoredProject (sp_id p) (sp_title p)
                               (sp_idea p)
                               (Some (imap (λ i s,
                                        initializeData_migrateShot
                                          (uuid j i) (clock j i) s) ss))
                               (sp_trashedShots p) (sp_createdAt p)
                               (sp_updatedAt p) (sp_isTrashed p)))
  ∧ (∀ data parsed,
       localData = fulfilled (Some data) → data ≠ "" →
       JSON_parse data = Some parsed →
       Forall (λ p, sp_shots p ≠ None) parsed →
       ∃ ps, head r.2 = Some (gateway (saveAllProjects ps)))
  ∧ ((∃ m, localData = rejected m) →
     r = (setGlobalError (Some "Lỗi khởi tạo cơ sở dữ liệu.") st, []))
  ∧ (∀ l, localData = fulfilled l →
       (∃ migration,
          r.2 = migration ++ [db_getProjects]
          ∧ (migration = []
             ∨ ∃ ps, migration = [gateway (saveAllProjects ps)]
                     ∨ migration = [gateway (saveAllProjects ps);
                                    localStorage_removeItem]))
       ∧ (∀ ps, dbProjects = fulfilled ps → r.1 = setProjects (λ _, ps) st)
       ∧ (∀ m, dbProjects = rejected m →
            r.1 = setGlobalError (Some "Lỗi khởi tạo cơ sở dữ liệu.") st)).
Proof.
  intros r. subst r. unfold initializeData.
  destruct localData as [l|m0].
  2:{ split; [|split; [|split; [|split]]].
      - split; [by intros ?%elem_of_nil | by intros (? & ? & ? & _)].
      - by intros ps ?%elem_of_nil.
      - by intros.
      - done.
      - by intros. }
  set (migration :=
         if truthy_str l then
           match JSON_parse (default "" l) with
           | Some parsed =>
               match initializeData_migrate uuid clock parsed with
               | Some migrated =>
                   match saved with
                   | fulfilled _ =>
                       [gateway (saveAllProjects migrated);
                        localStorage_removeItem]
                   | rejected _ => [gateway (saveAllProjects migrated)]
                   end
               | None => []
               end
           | None => []
           end
         else []).
  assert (Hcalls : (let (_, calls) :=
                      match dbProjects with
                      | fulfilled ps =>
                          (setProjects (λ _, ps) st,
                           migration ++ [db_getProjects])
                      | rejected _ =>
                          (setGlobalError
                             (Some "Lỗi khởi tạo cơ sở dữ liệu.") st,
                           migration ++ [db_getProjects])
                      end in calls) = migration ++ [db_getProjects])
    by (by destruct dbProjects).
  assert (Hsnd : ∀ x : AppState * list StartupCall,
             x.2 = (let (_, calls) := x in calls)) by (by intros []).
  rewrite !Hsnd, !Hcalls. clear Hsnd Hcalls.
  assert (Hmig :
    migration = []
    ∧ ¬ (∃ data parsed, l = Some data ∧ data ≠ ""
           ∧ JSON_parse data = Some parsed
           ∧ Forall (λ p, sp_shots p ≠ None) parsed)
    ∨ ∃ data parsed migrated,
        l = Some data ∧ data ≠ "" ∧ JSON_parse data = Some parsed
        ∧ initializeData_migrate uuid clock parsed = Some migrated
        ∧ Forall (λ p, sp_shots p ≠ None) parsed
        ∧ migration
          = match saved with
            | fulfilled _ =>
                [gateway (saveAllProjects migrated); localStorage_removeItem]
            | rejected _ => [gateway (saveAllProjects migrated)]
            end).
  { subst migration. destruct l as [data|]; simpl.
    2:{ left. split; [done|]. by intros (? & ? & ? & _). }
    destruct (String.eqb_spec data "") as [->|Hne]; simpl.
    { left. split; [done|]. by intros (? & ? & [= <-] & ? & _). }
    destruct (JSON_parse data) as [parsed|] eqn:Ep.
    2:{ left. split; [done|].
        intros (? & ? & [= <-] & _ & ? & _). congruence. }
    destruct (initializeData_migrate uuid clock parsed) as [migrated|] eqn:Em.
    - right. exists data, parsed, migrated.
      split; [done|]. split; [done|]. split; [done|]. split; [done|].
      split; [|done].
      apply (initializeData_migrate_all_shots uuid clock). by eexists.
    - left. split; [done|].
      intros (? & parsed' & [= <-] & _ & Hp' & Hall).
      assert (parsed' = parsed) as -> by congruence.
      apply (initializeData_migrate_all_shots uuid clock) in Hall as [? ?].
      congruence. }
  split; [|split; [|split; [|split]]].
  - destruct Hmig as [[-> Hno] | (data & parsed & migrated & -> & Hne & Hp
                                   & Hm & Hall & ->)].
    + split.
      * intros Hin. rewrite app_nil_l in Hin.
        apply list_elem_of_singleton in Hin. discriminate.
      * intros (data & parsed & [= ->] & Hne & Hp & Hall & _).
        exfalso. apply Hno. by exists data, parsed.
    + split.
      * intros Hin. exists data, parsed.
        split; [done|]. split; [done|]. split; [done|]. split; [done|].
        destruct saved as [u|m]; [by exists u|].
        exfalso. simpl in Hin.
        apply elem_of_cons in Hin as [Hin|Hin]; [discriminate|].
        apply list_elem_of_singleton in Hin. discriminate.
      * intros (? & ? & _ & _ & _ & _ & u & ->). simpl.
        apply elem_of_cons. right. apply elem_of_cons. by left.
  - intros ps Hin.
    destruct Hmig as [[-> Hno] | (data & parsed & migrated & -> & Hne & Hp
                                   & Hm & Hall & ->)].
    + rewrite app_nil_l in Hin. apply list_elem_of_singleton in Hin.
      discriminate.
    + assert (ps = migrated) as ->.
      { destruct saved; simpl in Hin;
          repeat (apply elem_of_cons in Hin as [Hin|Hin];
                  [congruence || discriminate|]);
          by apply elem_of_nil in Hin. }
      exists data, parsed. split; [done|]. split; [done|]. split; [done|].
      by apply initializeData_migrate_Some.
  - intros data parsed [= ->] Hne Hp Hall.
    destruct Hmig as [[-> Hno] | (data' & parsed' & migrated & [= <-] & _
                                   & Hp' & Hm & _ & ->)].
    + exfalso. apply Hno. by exists data, parsed.
    + exists migrated. by destruct saved.
  - by intros [? ?].
  - intros l' _. split; [|split].
    + exists migration. split; [done|].
      destruct Hmig as [[-> _] | (_ & _ & migrated & _ & _ & _ & _ & _ & ->)];
        [by left|].
      right. exists migrated. destruct saved; [by right | by left].
    + by intros ps ->.
    + by intros m ->.
Qed.

(** ** Export file names *)

Lemma sanitized_char c :
  isFileNameChar (lower_ascii (if isAlnum c then c else "_"%char)) = true.
Proof. destruct c as [[] [] [] [] [] [] [] []]; reflexivity. Qed.

Lemma sanitize_fixed c :
  isFileNameChar c = true →
  lower_ascii (if isAlnum c then c else "_"%char) = c.
Proof. destruct c as [[] [] [] [] [] [] [] []]; (reflexivity || discriminate). Qed.

Lemma sanitizeTitle_chars title :
  allChars isFileNameChar (sanitizeTitle title) = true.
Proof.
  induction title as [|c r IH]; simpl; [done|].
  by rewrite sanitized_char, IH.
Qed.

Lemma sanitizeTitle_fixed s :
  allChars isFileNameChar s = true → sanitizeTitle s = s.
Proof.
  induction s as [|c r IH]; simpl; [done|].
  intros [Hc Hr]%andb_true_iff. by rewrite sanitize_fixed, IH.
Qed.

(** What the sanitizing does to one character, by its code. *)
Lemma sanitized_char_code c :
  lower_ascii (if isAlnum c then c else "_"%char)
  = (let n := nat_of_ascii c in
     if ((48 <=? n) && (n <=? 57) || (97 <=? n) && (n <=? 122))%nat then c
     else if ((65 <=? n) && (n <=? 90))%nat then ascii_of_nat (n + 32)
     else "_"%char).
Proof. destruct c as [[] [] [] [] [] [] [] []]; reflexivity. Qed.

Lemma get_sanitizeTitle (title : string) (i : nat) (c : ascii) :
  String.get i title = Some c →
  String.get i (sanitizeTitle title)
  = Some (lower_ascii (if isAlnum c then c else "_"%char)).
Proof.
  revert i. induction title as [|c' r IH]; intros i; [done|].
  destruct i as [|i]; simpl; [by intros [= ->] | apply IH].
Qed.

Lemma get_replaceSpaces (title : string) (i : nat) (c : ascii) :
  String.get i title = Some c →
  String.get i (replaceSpaces title)
  = Some (if Ascii.eqb c " "%char then "_"%char else c).
Proof.
  revert i. induction title as [|c' r IH]; intros i; [done|].
  destruct i as [|i]; simpl; [by intros [= ->] | apply IH].
Qed.

(** The names under which a project is downloaded.  For a title of ASCII
    characters the backup name is the suffix "_backup.json" behind a stem
    that has, place by place, the digits and lower-case letters of the
    title as they are, its upper-case letters in lower case and an
    underscore for every other character; the stem is made of lower-case
    letters, digits and underscores only and sanitizing leaves it as it
    is.  The HTML name is the suffix "_storyboard.html" behind the title
    with, place by place, an underscore for every space and every other
    character as it is. *)
Theorem export_file_names (title : string) :
  (allChars isAsciiChar title = true →
   ∃ stem, exportJsonFileName title = (stem ++ "_backup.json")%string
           ∧ String.length stem = String.length title
           ∧ (∀ (i : nat) c, String.get i title = Some c →
                String.get i stem
                = Some (let n := nat_of_ascii c in
                        if ((48 <=? n) && (n <=? 57)
                            || (97 <=? n) && (n <=? 122))%nat then c
                        else if ((65 <=? n) && (n <=? 90))%nat
                             then ascii_of_nat (n + 32)
                             else "_"%char))
           ∧ allChars isFileNameChar stem = true
           ∧ sanitizeTitle stem = stem)
  ∧ (∃ stem, exportHtmlFileName title = (stem ++ "_storyboard.html")%string
             ∧ String.length stem = String.length title
             ∧ (∀ (i : nat) c, String.get i title = Some c →
                  String.get i stem
                  = Some (if Ascii.eqb c " "%char then "_"%char else c))
             ∧ allChars (λ c, negb (Ascii.eqb c " "%char)) stem = true
             ∧ (allChars (λ c, negb (Ascii.eqb c " "%char)) title = true →
                stem = title)).
Proof.
  split.
  - intros _. exists (sanitizeTitle title). split; [done|]. split; [|split].
    + induction title as [|c r IH]; simpl; [done|]. by rewrite IH.
    + intros i c Hc. rewrite (get_sanitizeTitle title i c Hc).
      by rewrite sanitized_char_code.
    + split; [apply sanitizeTitle_chars|].
      apply sanitizeTitle_fixed, sanitizeTitle_chars.
  - exists (replaceSpaces title). split; [done|]. split; [|split; [|split]].
    + induction title as [|c r IH]; simpl; [done|]. by rewrite IH.
    + apply get_replaceSpaces.
    + induction title as [|c r IH]; simpl; [done|].
      rewrite IH, andb_true_r.
      by destruct (Ascii.eqb_spec c " "%char);
        [|destruct (Ascii.eqb_spec c " "%char)].
    + induction title as [|c r IH]; simpl; [done|].
      intros [Hc Hr]%andb_true_iff. rewrite IH by done.
      by destruct (Ascii.eqb c " "%char).
Qed.

(** ** Generate image: the requests *)

Lemma findVariation_first vid before v after :
  ImageAsset.id v = vid →
  Forall (λ a, ImageAsset.id a ≠ vid) before →
  findVariation vid (before ++ v :: after) = Some v.
Proof.
  intros Hv Hb. unfold findVariation.
  induction Hb as [|a before Ha Hb IH]; simpl.
  - by rewrite decide_True.
  - rewrite decide_False by done.
    destruct (list_find _ (before ++ v :: after)) as [[k w]|]; [|done].
    simpl in *. congruence.
Qed.

Lemma findVariation_None vid vs :
  findVariation vid vs = None ↔ Forall (λ a, ImageAsset.id a ≠ vid) vs.
Proof.
  unfold findVariation. rewrite fmap_None. apply list_find_None.
Qed.

(** The reference image of a generation.  A custom upload that is not
    empty is used as it is.  Without one, when a reference shot is named,
    is found and has a selection, the reference is the original payload
    of the first variation of that shot whose id is the selection; and
    there is no reference exactly when no reference shot is named, or the
    named shot is not in the project, or it has no selection, or none of
    its variations has the selected id. *)
Theorem reference_image_priority (project : Project.t)
    (referenceShotId customReferenceBase64 : option string) :
  (∀ u, customReferenceBase64 = Some u → u ≠ "" →
        referenceImageUrl project referenceShotId customReferenceBase64
        = Some u)
  ∧ (truthy_str customReferenceBase64 = false →
     ∀ u, referenceImageUrl project referenceShotId customReferenceBase64
          = Some u →
          ∃ rid refShot v,
            referenceShotId = Some rid
            ∧ findShot rid (Project.shots project) = Some refShot
            ∧ v ∈ Shot.imageVariations refShot
            ∧ Shot.selectedVariationId refShot = Some (ImageAsset.id v)
            ∧ ImageAsset.originalUrl v = u)
  ∧ (truthy_str customReferenceBase64 = false →
     truthy_str referenceShotId = false →
     referenceImageUrl project referenceShotId customReferenceBase64 = None)
  ∧ (truthy_str customReferenceBase64 = false →
     ∀ rid refShot vid before v after,
       referenceShotId = Some rid → rid ≠ "" →
       findShot rid (Project.shots project) = Some refShot →
       Shot.selectedVariationId refShot = Some vid → vid ≠ "" →
       Shot.imageVariations refShot = before ++ v :: after →
       ImageAsset.id v = vid →
       Forall (λ a, ImageAsset.id a ≠ vid) before →
       referenceImageUrl project referenceShotId customReferenceBase64
       = Some (ImageAsset.originalUrl v))
  ∧ (truthy_str customReferenceBase64 = false →
     (referenceImageUrl project referenceShotId customReferenceBase64 = None
      ↔ truthy_str referenceShotId = false
        ∨ ∃ rid, referenceShotId = Some rid
            ∧ (findShot rid (Project.shots project) = None
               ∨ ∃ refShot,
                   findShot rid (Project.shots project) = Some refShot
                   ∧ (truthy_str (Shot.selectedVariationId refShot) = false
                      ∨ ∃ vid,
                          Shot.selectedVariationId refShot = Some vid
                          ∧ Forall (λ a, ImageAsset.id a ≠ vid)
                              (Shot.imageVariations refShot))))).
Proof.
  unfold referenceImageUrl. split; [|split; [|split; [|split]]].
  - intros u -> Hne. by rewrite (truthy_str_Some u Hne).
  - intros -> u.
    destruct referenceShotId as [rid|]; [|done].
    destruct (truthy_str (Some rid)); [|done].
    destruct (findShot rid (Project.shots project)) as [refShot|] eqn:Eref;
      [|done].
    destruct (Shot.selectedVariationId refShot) as [vid|] eqn:Esel; [|done].
    destruct (truthy_str (Some vid)); [|done].
    destruct (findVariation vid (Shot.imageVariations refShot)) as [v|] eqn:Ev;
      [|done].
    apply findVariation_Some in Ev as [Hin <-]. simpl. intros [= <-].
    exists rid, refShot, v. split; [done|]. split; [done|]. split; [done|].
    split; done.
  - intros -> Hr. destruct referenceShotId as [rid|]; [|done].
    by rewrite Hr.
  - intros -> rid refShot vid before v after -> Hrid Href Hsel Hvid Hvs Hv Hb.
    rewrite (truthy_str_Some rid Hrid), Href, Hsel,
      (truthy_str_Some vid Hvid), Hvs.
    by rewrite (findVariation_first vid before v after Hv Hb).
  - intros ->. destruct referenceShotId as [rid|].
    2:{ split; [by left | done]. }
    destruct (truthy_str (Some rid)) eqn:Erid.
    2:{ split; [by left | done]. }
    destruct (findShot rid (Project.shots project)) as [refShot|] eqn:Eref.
    2:{ split; [|done]. intros _. right. exists rid. split; [done|].
        by left. }
    destruct (Shot.selectedVariationId refShot) as [vid|] eqn:Esel.
    2:{ split; [|done]. intros _. right. exists rid. split; [done|].
        right. exists refShot. split; [done|]. left. by rewrite Esel. }
    destruct (truthy_str (Some vid)) eqn:Evid.
    2:{ split; [|done]. intros _. right. exists rid. split; [done|].
        right. exists refShot. split; [done|]. left. by rewrite Esel. }
    rewrite fmap_None, findVariation_None. split.
    + intros Hall. right. exists rid. split; [done|]. right.
      exists refShot. split; [done|]. right. by exists vid.
    + intros [Hf | (rid' & [= <-] & [Hn | (refShot' & Hr' & Hcase)])];
        [discriminate | congruence |].
      assert (refShot' = refShot) as -> by congruence.
      destruct Hcase as [Hf | (vid' & Hs' & Hall)].
      * rewrite Esel in Hf. congruence.
      * rewrite Esel in Hs'. by injection Hs' as <-.
Qed.


(** ** Settings *)




(** ** The shot deletion dialog *)

(** Confirming the deletion of a shot: without a pending shot nothing
    happens, so cancelling and then confirming trashes nothing; with a
    pending shot and a selected project the shot is trashed and the
    pending id cleared, so that confirming twice trashes once; with a
    pending shot and no selected project nothing happens and the pending
    id stays. *)
Theorem shot_deletion_dialog (now now' : Z) (shotId : string)
    (st : AppState) :
  handleConfirmDeleteShot now (handleCancelDeleteShot st)
  = handleCancelDeleteShot st
  ∧ (∀ pid, selectedProjectId st = Some pid → pid ≠ "" → shotId ≠ "" →
       projects (handleConfirmDeleteShot now (handleInitiateDeleteShot shotId st))
       = mapProject pid (trashShot now shotId) (projects st)
       ∧ pendingShotDeletionId
           (handleConfirmDeleteShot now (handleInitiateDeleteShot shotId st))
         = None
       ∧ handleConfirmDeleteShot now'
           (handleConfirmDeleteShot now (handleInitiateDeleteShot shotId st))
         = handleConfirmDeleteShot now (handleInitiateDeleteShot shotId st))
  ∧ (selectedProjectId st = None →
     handleConfirmDeleteShot now (handleInitiateDeleteShot shotId st)
     = handleInitiateDeleteShot shotId st).
Proof.
  split; [done|]. split.
  - intros pid Hsel Hne Hs.
    assert (Hc : handleConfirmDeleteShot now (handleInitiateDeleteShot shotId st)
                 = setPendingShotDeletionId None
                     (setProjects (mapProject pid (trashShot now shotId))
                        (handleInitiateDeleteShot shotId st))).
    { unfold handleConfirmDeleteShot.
      cbn [handleInitiateDeleteShot setPendingShotDeletionId
           pendingShotDeletionId selectedProjectId].
      by rewrite Hsel, (truthy_str_Some _ Hne), (truthy_str_Some _ Hs). }
    rewrite Hc. split; [done|]. split; [done|]. done.
  - intros Hsel. unfold handleConfirmDeleteShot.
    cbn [handleInitiateDeleteShot setPendingShotDeletionId
         pendingShotDeletionId selectedProjectId].
    by rewrite Hsel.
Qed.

End Application.

Arguments fulfilled {A} value.
Arguments rejected {A} message.

(** ** Examples on the sample data *)

Lemma shot_list_operations_renumber_witness :
  (∃ p', projects (handleAddShotAfter 40 "s9" "s1" sampleState) !! 0 = Some p'
         ∧ wellNumbered (Project.shots p')
         ∧ length (Project.shots p') = 3)
  ∧ (∃ p', projects (handleConfirmDeleteShot 40 sampleState) !! 0 = Some p'
           ∧ wellNumbered (Project.shots p')
           ∧ Forall (λ s, Shot.id s ≠ "s1") (Project.shots p'))
  ∧ (∃ p', projects (handleRestoreShot 40 "s3" sampleState) !! 0 = Some p'
           ∧ wellNumbered (Project.shots p')
           ∧ length (Project.shots p') = 3).
Proof.
  destruct (shot_list_operations_renumber 40 "s9" "s1" sampleState 0
              (sampleProject "p1" 10) eq_refl eq_refl ltac:(done))
    as (Hadd & Htrash & _).
  destruct (shot_list_operations_renumber 40 "s9" "s3" sampleState 0
              (sampleProject "p1" 10) eq_refl eq_refl ltac:(done))
    as (_ & _ & Hrestore).
  split; [|split].
  - apply Hadd. by eexists.
  - apply Htrash; [reflexivity | done | by eexists].
  - apply (Hrestore [sampleShot "s3" 2]); [reflexivity | by eexists].
Defined.

Lemma autoSave_persists_exactly_dirty_witness :
  (autoSave savedState).2
  = [saveProject (Project.set_updatedAt 25 (sampleProject "p2" 20))]
  ∧ length (autoSave sampleState).2 = 3.
Proof.
  split.
  - apply (proj1 (proj2 (proj2 (autoSave_persists_exactly_dirty savedState)))
             (projects sampleState) 1 (sampleProject "p2" 20) 25%Z);
      [reflexivity | compute_done
      | reflexivity | done | reflexivity].
  - apply (proj2 (proj2 (proj2 (autoSave_persists_exactly_dirty sampleState))));
      reflexivity.
Defined.

Lemma calculateBase64Size_formula_witness :
  calculateBase64Size "TWE=" = Qc_of_Z (specBase64Size "TWE=")
  ∧ specBase64Size "TWE=" = 2%Z.
Proof.
  split; [|reflexivity].
  apply (proj1 (proj2 (proj2 (proj2 (calculateBase64Size_formula "TWE="))))).
  exists 1. reflexivity.
Defined.

(** The formula with the ceiling fails on a length that is not a multiple of
    four: five characters give 15/4, not 4. *)
Lemma calculateBase64Size_not_ceiling :
  calculateBase64Size "abcde" ≠ Qc_of_Z (specBase64Size "abcde").
Proof.
  intros H. apply (f_equal this) in H. vm_compute in H. discriminate H.
Qed.

Lemma migration_keeps_existing_variations_witness :
  initializeData_migrateShot keepOriginal "v9" 50 halfMigratedShot
  = clearDeprecatedUrls halfMigratedShot
  ∧ StoredShot.imageVariations
      (initializeData_migrateShot keepOriginal "v9" 50 halfMigratedShot)
    = Some [sampleAsset].
Proof.
  pose proof (proj1 (migration_keeps_existing_variations keepOriginal "v9" 50
                       halfMigratedShot sampleAsset [] eq_refl)) as H.
  split; [exact H|]. rewrite H. reflexivity.
Defined.

(** A shot with a variation that still carries a deprecated URL, and no
    settings, is changed by both migrations. *)
Lemma migration_changes_shot_with_variations :
  StoredShot.imageVariations halfMigratedShot = Some [sampleAsset]
  ∧ initializeData_migrateShot keepOriginal "v9" 50 halfMigratedShot
    ≠ halfMigratedShot
  ∧ Shot.stored (handleImportJson_migrateShot keepOriginal "v9" 50
                   halfMigratedShot)
    ≠ halfMigratedShot.
Proof.
  split; [reflexivity|].
  split; intros H; apply (f_equal StoredShot.imageUrl) in H; discriminate H.
Qed.

Lemma legacy_shot_conversion_witness :
  Shot.imageVariations
    (handleImportJson_migrateShot keepOriginal "v9" 50 legacyShot)
  = [legacyAsset keepOriginal "v9" 50 legacyShot]
  ∧ StoredShot.imageVariations
      (initializeData_migrateShot keepOriginal "v9" 50 legacyShot)
    = Some [legacyAsset keepOriginal "v9" 50 legacyShot]
  ∧ ImageAsset.previewUrl (legacyAsset keepOriginal "v9" 50 legacyShot)
    = "TWE=".
Proof.
  assert (legacyImaged legacyShot) as Hleg
    by (split; [reflexivity | left; reflexivity]).
  destruct (legacy_shot_conversion keepOriginal "v9" 50 legacyShot Hleg)
    as ((Hr & _ & Hm & _) & (_ & _ & _ & Hprev & _) & _).
  split; [exact Hm|]. split; [exact Hr|].
  by apply (Hprev "TWE=").
Defined.

(** The two deprecated size properties are still there after either
    migration of a legacy shot. *)
Lemma legacy_size_fields_survive :
  legacyImaged legacyShot
  ∧ Shot.imageOriginalFileSize
      (handleImportJson_migrateShot keepOriginal "v9" 50 legacyShot)
    ≠ None
  ∧ Shot.imagePreviewFileSize
      (handleImportJson_migrateShot keepOriginal "v9" 50 legacyShot)
    ≠ None
  ∧ StoredShot.imageOriginalFileSize
      (initializeData_migrateShot keepOriginal "v9" 50 legacyShot)
    ≠ None
  ∧ StoredShot.imagePreviewFileSize
      (initializeData_migrateShot keepOriginal "v9" 50 legacyShot)
    ≠ None.
Proof.
  split; [split; [reflexivity | left; reflexivity]|].
  repeat split; discriminate.
Qed.

Lemma content_transformations_bump_updatedAt_witness :
  bumps 60 (projects sampleState)
    (projects
       (handleGenerateImage_settled keepOriginal "p1" "s1" active
          (λ _, "v9") (λ _, 50%Z) 60
          [fulfilled "TWFu"; rejected None] sampleState))
  ∧ Project.updatedAt
      <$> projects
            (handleGenerateImage_settled keepOriginal "p1" "s1" active
               (λ _, "v9") (λ _, 50%Z) 60 [rejected None; rejected None]
               sampleState)
    = Project.updatedAt <$> projects sampleState.
Proof.
  pose proof (content_transformations_bump_updatedAt keepOriginal 60
                sampleState) as (Hcontent & _ & Hflags).
  split.
  - apply (proj1 (proj2 Hcontent)). discriminate.
  - apply (proj1 (proj2 Hflags)). reflexivity.
Defined.

(** Marking a shot as generating changes its project and leaves
    [updatedAt] alone, so the auto-save comparison does not see it. *)
Lemma generating_flag_not_bumped :
  touchedWithoutBump (projects sampleState)
    (projects (handleGenerateImage "s1" None None sampleState).1)
  ∧ changedProjects (Some (projects sampleState))
      (projects (handleGenerateImage "s1" None None sampleState).1)
    = [].
Proof.
  split; [|reflexivity].
  exists 0, (sampleProject "p1" 10),
    (Project.set_shots
       (mapShot "s1" (Shot.set_isGeneratingImage true)
          (Project.shots (sampleProject "p1" 10)))
       (sampleProject "p1" 10)).
  split; [reflexivity|]. split; [reflexivity|]. split; [|reflexivity].
  intros H. apply (f_equal Project.shots) in H. vm_compute in H.
  discriminate H.
Qed.

Lemma generate_image_outcome_witness :
  ∃ p2 s2,
    projects
      (handleGenerateImage_settled keepOriginal "p1" "s1" active (λ _, "v9")
         (λ _, 50%Z) 60 [rejected None; rejected None]
         (handleGenerateImage "s1" None None sampleState).1) !! 0 = Some p2
    ∧ Project.shots p2 !! 0 = Some s2
    ∧ Shot.isGeneratingImage s2 = false
    ∧ Shot.imageVariations s2 = [].
Proof.
  destruct (generate_image_outcome keepOriginal sampleState "s1" None None
              "p1" (λ _, "v9") (λ _, 50%Z) 60 [rejected None; rejected None]
              0 0 (sampleProject "p1" 10) (sampleShot "s1" 1)
              eq_refl ltac:(discriminate) eq_refl eq_refl eq_refl eq_refl)
    as (p2 & s2 & Hp & Hs & Hflag & Hfail & _).
  exists p2, s2. split; [exact Hp|]. split; [exact Hs|]. split; [exact Hflag|].
  exact (proj1 (Hfail None None eq_refl)).
Defined.

Lemma ai_calls_gated_and_throttled_witness :
  admitsNothing busyState
  ∧ admitsNothing
      (Nat.iter 2 throttleTick
         (handleGetSuggestionsForShot_settled (rejected None) busyState).1).
Proof.
  split.
  - apply (proj1 (ai_calls_gated_and_throttled keepOriginal busyState)).
    left. reflexivity.
  - apply (proj2 (ai_calls_gated_and_throttled keepOriginal busyState)
             _ (suggestionsCompletes keepOriginal busyState (rejected None))).
    lia.
Defined.

(** During a rate-limit cool-down, with the throttle window elapsed, the
    handlers admit a call. *)
Lemma cooldown_does_not_gate :
  (0 < rateLimitCooldown cooldownState)%Z ∧ ¬ admitsNothing cooldownState.
Proof.
  split; [done|]. intros (_ & _ & _ & _ & H).
  specialize (H "idea" "description"). discriminate H.
Qed.




(** ** Examples for the further results *)

Lemma sampleProject_wellNumbered :
  wellNumbered (Project.shots (sampleProject "p1" 10)).
Proof.
  intros i s. destruct i as [|[|i]]; simpl; intros [= <-]; reflexivity.
Qed.

Lemma autoSave_second_firing_saves_nothing_witness :
  (saveTimeout (saveTimeout sampleState).1).2 = [].
Proof.
  apply (autoSave_second_firing_saves_nothing sampleState). compute_done.
Defined.

Lemma soft_delete_is_persisted_witness :
  (autoSave (handleDeleteProject 25 "p2" (saveTimeout sampleState).1)).2
  = [saveProject
       (Project.set_updatedAt 25
          (Project.set_isTrashed (Some true) (sampleProject "p2" 20)))].
Proof.
  apply (soft_delete_is_persisted 25 "p2" sampleState 1 (sampleProject "p2" 20));
    [compute_done | reflexivity | reflexivity | done].
Defined.

Lemma generated_image_is_persisted_witness :
  ∃ p',
    (autoSave
       (handleGenerateImage_settled keepOriginal "p1" "s1" active (λ _, "v9")
          (λ _, 50%Z) 60 [fulfilled "TWFu"; rejected None]
          (saveTimeout sampleState).1)).2 = [saveProject p']
    ∧ Project.updatedAt p' = 60%Z.
Proof.
  destruct (generated_image_is_persisted keepOriginal "p1" "s1" active
              (λ _, "v9") (λ _, 50%Z) 60 [fulfilled "TWFu"; rejected None]
              sampleState 0 (sampleProject "p1" 10)
              ltac:(compute_done) eq_refl eq_refl ltac:(done)
              ltac:(discriminate))
    as (p' & Hsave & _ & Ht & _).
  exists p'. by split.
Defined.

Lemma trash_shot_moves_the_shot_witness :
  Project.shots (trashShot 40 "s1" (sampleProject "p1" 10))
  = renumber [sampleShot "s2" 2]
  ∧ Project.trashedShots (trashShot 40 "s1" (sampleProject "p1" 10))
    = Some [sampleShot "s3" 2; sampleShot "s1" 1].
Proof.
  destruct (trash_shot_moves_the_shot 40 (sampleProject "p1" 10) 0
              (sampleShot "s1" 1) ltac:(compute_done) eq_refl)
    as (Hs & Ht & _).
  by split.
Defined.

Lemma add_shot_after_position_witness :
  Shot.id <$> Project.shots (addShotAfter 40 "s9" "s1" (sampleProject "p1" 10))
  = ["s1"; "s9"; "s2"].
Proof.
  destruct (add_shot_after_position 40 "s9" "s1" (sampleProject "p1" 10) 0
              (sampleShot "s1" 1) eq_refl eq_refl
              ltac:(intros i x _ Hi; lia))
    as (Hids & _).
  exact Hids.
Defined.

Lemma restore_shot_position_witness :
  Project.shots (restoreShot 40 "s3" (sampleProject "p1" 10))
  = renumber [sampleShot "s1" 1; sampleShot "s2" 2; sampleShot "s3" 2].
Proof.
  destruct (restore_shot_position 40 "s3" (sampleProject "p1" 10)
              [sampleShot "s3" 2] (sampleShot "s3" 2)
              sampleProject_wellNumbered eq_refl eq_refl)
    as (Hs & _).
  exact Hs.
Defined.

(** The first shot, trashed and restored, comes back as the second. *)
Lemma trash_then_restore_witness :
  (Shot.id
     <$> Project.shots
           (restoreShot 41 "s1" (trashShot 40 "s1" (sampleProject "p1" 10))))
    !! 1 = Some "s1"
  ∧ (Shot.id
       <$> Project.shots
             (restoreShot 41 "s2" (trashShot 40 "s2" (sampleProject "p1" 10))))
    = ["s1"; "s2"].
Proof.
  destruct (trash_then_restore 40 41 (sampleProject "p1" 10) 0
              (sampleShot "s1" 1) sampleProject_wellNumbered
              ltac:(compute_done) eq_refl)
    as (H1 & _).
  destruct (trash_then_restore 40 41 (sampleProject "p1" 10) 1
              (sampleShot "s2" 2) sampleProject_wellNumbered
              ltac:(compute_done) eq_refl)
    as (_ & _ & _ & _ & H2).
  split; [exact H1|]. exact (f_equal (fmap Shot.id) (H2 eq_refl)).
Defined.

Lemma shot_ids_stay_distinct_witness :
  Forall (λ p, NoDup (shotIds p))
    (projects (handleRestoreShot 40 "s3" sampleState)).
Proof.
  apply (shot_ids_stay_distinct 40 "s9" "s3" sampleState). compute_done.
Defined.

Lemma edit_image_outcome_witness :
  ∃ p' s',
    projects
      (handleEditShotImage_settled keepOriginal "p1" "s1" active "v9" 50 60
         (fulfilled "TWFu") imagedState) !! 0 = Some p'
    ∧ Project.shots p' !! 0 = Some s'
    ∧ Shot.imageVariations s'
      = [processAndSaveImage keepOriginal "v9" 50 "TWFu"; sampleAsset]
    ∧ Shot.selectedVariationId s' = Some "v9".
Proof.
  destruct (edit_image_outcome keepOriginal "p1" "s1" active "v9" 50 60
              (fulfilled "TWFu") imagedState 0 0 imagedProject imagedShot
              eq_refl eq_refl eq_refl eq_refl)
    as (p' & s' & Hp & Hs & _ & _ & _ & Hok & _).
  destruct (Hok "TWFu" eq_refl) as (Hv & Hsel & _).
  exists p', s'. by repeat split.
Defined.

Lemma description_edit_is_optimistic_witness :
  ∃ p2 s2,
    projects
      (handleUpdateShotDescription_settled "p1" "s1" active (rejected None)
         (handleUpdateShotDescription 40 "s1" "A wet street" sampleState).1)
      !! 0 = Some p2
    ∧ Project.shots p2 !! 0 = Some s2
    ∧ Shot.description s2 = "A wet street"
    ∧ Shot.visualPrompt s2 = "night street, neon".
Proof.
  destruct (description_edit_is_optimistic 40 "s1" "A wet street" "p1"
              (rejected None) sampleState 0 0 (sampleProject "p1" 10)
              (sampleShot "s1" 1) eq_refl ltac:(discriminate) eq_refl
              ltac:(done) eq_refl eq_refl eq_refl eq_refl)
    as (_ & p2 & s2 & Hp & Hs & Hd & _ & _ & _ & _ & Hfail).
  exists p2, s2. split; [exact Hp|]. split; [exact Hs|]. split; [exact Hd|].
  exact (Hfail None eq_refl).
Defined.

Lemma export_import_round_trip_witness :
  ∃ name file,
    handleExportJson sampleState = Some (name, file)
    ∧ name = "neon_backup.json"
    ∧ Project.title
        <$> projects (handleImportJson keepOriginal (λ _, "v9") (λ _, 50%Z)
                        "p9" (Some file) sampleState)
      = ["Neon (Imported)"; "Neon"; "Neon"; "Neon"].
Proof.
  destruct (export_import_round_trip keepOriginal (λ _, "v9") (λ _, 50%Z) "p9"
              sampleState sampleState (sampleProject "p1" 10) eq_refl
              ltac:(discriminate)
              ltac:(repeat constructor; discriminate))
    as (name & file & Hex & Him).
  exists name, file. split; [exact Hex|]. split.
  - cbv in Hex. by injection Hex as <- _.
  - by rewrite Him.
Defined.


Lemma api_error_classification_witness :
  (rateLimitCooldown
     (handleApiError (Some "Error: Rate limit exceeded (code 403)") sampleState)
   = 60%Z
   ∧ apiKeyStatus
       (handleApiError (Some "Error: Rate limit exceeded (code 403)")
          sampleState)
     = warning
   ∧ rateLimitCooldown
       (Nat.iter 60 cooldownTick
          (handleApiError (Some "Error: Rate limit exceeded (code 403)")
             sampleState))
     = 0%Z)
  ∧ apiKeyStatus (handleApiError (Some "Invalid api_key given") sampleState)
    = error
  ∧ globalError (handleApiError (Some "Invalid api_key given") sampleState)
    = Some "Invalid api_key given".
Proof.
  split.
  - destruct (proj1 (proj2 (api_error_classification
                              (Some "Error: Rate limit exceeded (code 403)")
                              sampleState))
                "Error: Rate limit exceeded (code 403)" "Rate limit"
                eq_refl eq_refl ltac:(right; right; reflexivity))
      as (Hc & Hs & _ & Hticks).
    split; [exact Hc|]. split; [exact Hs|]. by rewrite Hticks.
  - destruct (proj1 (proj2 (proj2 (api_error_classification
                                     (Some "Invalid api_key given")
                                     sampleState)))
                "Invalid api_key given" "api_key"
                eq_refl eq_refl ltac:(right; left; reflexivity)
                eq_refl eq_refl eq_refl eq_refl)
      as (Hs & He & _).
    split; [exact Hs | exact He].
Defined.

Lemma create_project_outcome_witness :
  ∃ np head rest,
    projects
      (handleCreateProject_settled
         "A detective of the future looks for a lost memory" active
         (λ _, "s9") "p9" 70 70
         (fulfilled [mkShotData 1 "Rain" "rain, neon"]) sampleState)
    = np :: projects sampleState
    ∧ "A detective of the future looks for a lost memory"
      = (head ++ rest)%string
    ∧ String.length head = 30
    ∧ Project.title np = (head ++ "...")%string
    ∧ length (Project.shots np) = 1.
Proof.
  destruct (proj1 (proj2 (create_project_outcome
                            "A detective of the future looks for a lost memory"
                            active (λ _, "s9") "p9" 70 70
                            (fulfilled [mkShotData 1 "Rain" "rain, neon"])
                            sampleState))
              [mkShotData 1 "Rain" "rain, neon"] eq_refl)
    as (np & Hp & _ & _ & _ & _ & _ & _ & _ & _ & Htitle & Hlen & _).
  destruct (Htitle eq_refl ltac:(simpl; lia)) as (head & rest & H1 & H2 & H3).
  exists np, head, rest. repeat split; assumption.
Defined.

Lemma first_run_migration_all_or_nothing_witness :
  localStorage_removeItem
  ∈ (initializeData keepOriginal (λ _ _, "v9") (λ _ _, 50%Z)
       (λ _, Some [legacyFile]) (fulfilled (Some "[{}]")) (fulfilled ())
       (fulfilled []) sampleState).2.
Proof.
  apply (proj2 (proj1 (first_run_migration_all_or_nothing keepOriginal
                         (λ _ _, "v9") (λ _ _, 50%Z)
                         (λ _, Some [legacyFile]) (fulfilled (Some "[{}]"))
                         (fulfilled ()) (fulfilled []) sampleState))).
  exists "[{}]", [legacyFile].
  split; [reflexivity|]. split; [discriminate|]. split; [reflexivity|].
  split; [constructor; [discriminate | constructor]|].
  by exists ().
Defined.

Lemma export_file_names_witness :
  ∃ stem,
    exportJsonFileName "My Film 2" = (stem ++ "_backup.json")%string
    ∧ String.length stem = 9
    ∧ String.get 0 stem = Some "m"%char
    ∧ String.get 2 stem = Some "_"%char.
Proof.
  destruct (proj1 (export_file_names "My Film 2") eq_refl)
    as (stem & Hname & Hlen & Hget & _).
  exists stem. split; [exact Hname|]. split; [exact Hlen|].
  split; [exact (Hget 0 "M"%char eq_refl) | exact (Hget 2 " "%char eq_refl)].
Defined.

Lemma reference_image_priority_witness :
  referenceImageUrl imagedProject (Some "s1") None
  = Some (ImageAsset.originalUrl sampleAsset).
Proof.
  apply (proj1 (proj2 (proj2 (proj2 (reference_image_priority imagedProject
                                       (Some "s1") None))))
           eq_refl "s1" imagedShot "v1" [] sampleAsset []);
    try reflexivity; try discriminate.
  constructor.
Defined.
